(** * scripts/audio_rename_and_assign.py: renaming recordings and assigning
      them to the spots of the sound map.

    The script is embedded function by function.  Python [str] values are
    lists of Unicode code points; [pathlib.Path] is a record; the patterns
    handed to [re] are terms of a small pattern language run by a
    backtracking matcher; the directory is a finite map; [spots.json] is a
    list of records updated by index.  The three services the script borrows
    from the interpreter's Unicode tables (NFC normalisation, [str.lower] and
    the class [\d]) are the operations of the interface [Unicode]. *)

From Stdlib Require Import String Ascii NArith DecimalString DecimalNat.
From stdpp Require Import base option list gmap sorting.

Local Open Scope N_scope.
Local Open Scope nat_scope.

(** ** Text *)

(** A Python [str]: a sequence of code points. *)
Abbreviation str := (list N).

(** String literals are written as in the source file, in UTF-8, and decoded
    to code points. *)
Fixpoint utf8 (s : string) : str :=
  match s with
  | EmptyString => []
  | String a s1 =>
      let b := N_of_ascii a in
      if (b <? 128)%N then b :: utf8 s1
      else if (b <? 224)%N then
        match s1 with
        | String a1 s2 =>
            ((b - 192) * 64 + (N_of_ascii a1 - 128))%N :: utf8 s2
        | _ => []
        end
      else if (b <? 240)%N then
        match s1 with
        | String a1 (String a2 s3) =>
            ((b - 224) * 4096 + (N_of_ascii a1 - 128) * 64
             + (N_of_ascii a2 - 128))%N :: utf8 s3
        | _ => []
        end
      else
        match s1 with
        | String a1 (String a2 (String a3 s4)) =>
            ((b - 240) * 262144 + (N_of_ascii a1 - 128) * 4096
             + (N_of_ascii a2 - 128) * 64 + (N_of_ascii a3 - 128))%N
            :: utf8 s4
        | _ => []
        end
  end.

Notation "'u' s" := (utf8 s%string) (at level 1, only parsing).
Global Arguments utf8 : simpl never.

Definition chr_underscore : N := 95.
Definition chr_dot : N := 46.
Definition chr_newline : N := 10.
Definition chr_slash : N := 47.
Definition chr_zero : N := 48.

(** [s.startswith(p)] *)
Fixpoint startswith (p s : str) : bool :=
  match p, s with
  | [], _ => true
  | a :: p', b :: s' => bool_decide (a = b) && startswith p' s'
  | _ :: _, [] => false
  end.

(** [sub in s] *)
Fixpoint contains (sub s : str) : bool :=
  startswith sub s ||
  match s with
  | [] => false
  | _ :: s' => contains sub s'
  end.

(** [sep.join(parts)] *)
Fixpoint join (sep : str) (parts : list str) : str :=
  match parts with
  | [] => []
  | [p] => p
  | p :: ps => p ++ sep ++ join sep ps
  end.

(** Length of the longest prefix of [s] whose characters are all in the
    class [cls]. *)
Fixpoint span (cls : N → bool) (s : str) : nat :=
  match s with
  | c :: s' => if cls c then S (span cls s') else 0
  | [] => 0
  end.

(** [s.strip(c)] for a one-character argument. *)
Definition lstrip (c : N) (s : str) : str :=
  drop (span (λ x, bool_decide (x = c)) s) s.
Definition strip (c : N) (s : str) : str :=
  reverse (lstrip c (reverse (lstrip c s))).

(** [s.rfind(c)] for a one-character argument; [None] stands for [-1]. *)
Fixpoint rfind (c : N) (s : str) : option nat :=
  match s with
  | [] => None
  | x :: s' =>
      match rfind c s' with
      | Some i => Some (S i)
      | None => if bool_decide (x = c) then Some 0 else None
      end
  end.

(** Left-to-right replacement of non-overlapping matches.  [m t] is the
    length of the match that starts at the head of [t], if there is one;
    [skip] counts the characters of the current match still to be dropped.
    Every pattern of the script matches at least one character. *)
Fixpoint sub_scan (m : str → option nat) (repl : str) (skip : nat)
    (s : str) : str :=
  match s with
  | [] => []
  | c :: s' =>
      match skip with
      | S k => sub_scan m repl k s'
      | 0 =>
          match m s with
          | Some (S k) => repl ++ sub_scan m repl k s'
          | _ => c :: sub_scan m repl 0 s'
          end
      end
  end.

(** [s.replace(old, new)], for a non-empty [old]. *)
Definition replace (old new s : str) : str :=
  sub_scan (λ t, if startswith old t then Some (length old) else None)
    new 0 s.

(** [s.zfill(width)] *)
Definition zfill (width : nat) (s : str) : str :=
  if bool_decide (width ≤ length s) then s
  else
    let zeros := replicate (width - length s) chr_zero in
    match s with
    | c :: s' =>
        if bool_decide (c = 43%N) || bool_decide (c = 45%N)
        then c :: zeros ++ s'
        else zeros ++ s
    | [] => zeros
    end.

(** [str(i)] for a non-negative integer. *)
Definition str_of_nat (i : nat) : str :=
  utf8 (NilEmpty.string_of_uint (Nat.to_uint i)).

(** The code points of a decimal numeral. *)
Fixpoint uint_codes (d : Decimal.uint) : str :=
  match d with
  | Decimal.Nil => []
  | Decimal.D0 d => 48%N :: uint_codes d
  | Decimal.D1 d => 49%N :: uint_codes d
  | Decimal.D2 d => 50%N :: uint_codes d
  | Decimal.D3 d => 51%N :: uint_codes d
  | Decimal.D4 d => 52%N :: uint_codes d
  | Decimal.D5 d => 53%N :: uint_codes d
  | Decimal.D6 d => 54%N :: uint_codes d
  | Decimal.D7 d => 55%N :: uint_codes d
  | Decimal.D8 d => 56%N :: uint_codes d
  | Decimal.D9 d => 57%N :: uint_codes d
  end.

(** ** The interpreter's Unicode tables *)

Class Unicode := {
  (** [unicodedata.normalize("NFC", s)] *)
  nfc : str → str;
  (** [s.lower()] *)
  lower : str → str;
  (** membership in the class [\d] of a [str] pattern *)
  isdecimal : N → bool;
}.

(** ** Patterns *)

(** The patterns of the script are sequences of greedy repetitions of a
    character class (all of them groups), literals and a final [$]. *)
Inductive atom :=
  | Rep (cls : N → bool) (lo : nat) (hi : option nat)
  | Lit (s : str)
  | Eos.

(** Try [f (lo + extra)], [f (lo + extra - 1)], ..., [f lo]: the order in
    which a greedy repetition gives characters back. *)
Fixpoint try_down {A} (f : nat → option A) (lo extra : nat) : option A :=
  match f (lo + extra) with
  | Some r => Some r
  | None =>
      match extra with
      | 0 => None
      | S e => try_down f lo e
      end
  end.

(** [$] without [re.MULTILINE]: at the end of the string, or just before a
    newline that ends the string. *)
Definition at_end (s : str) : bool :=
  match s with
  | [] => true
  | [c] => bool_decide (c = chr_newline)
  | _ => false
  end.

(** Match [pat] at the head of [s]: the texts of the groups, in order, and
    what is left of [s] after the match. *)
Fixpoint re_exec (pat : list atom) (s : str) : option (list str * str) :=
  match pat with
  | [] => Some ([], s)
  | Lit l :: pat' =>
      if startswith l s then re_exec pat' (drop (length l) s) else None
  | Eos :: pat' => if at_end s then re_exec pat' s else None
  | Rep cls lo hi :: pat' =>
      let avail :=
        match hi with
        | Some h => h `min` span cls s
        | None => span cls s
        end in
      if bool_decide (avail < lo) then None
      else
        try_down
          (λ k, '(gs, r) ← re_exec pat' (drop k s); Some (take k s :: gs, r))
          lo (avail - lo)
  end.

(** [re.match(pat, s)]: the groups of the match.  [re.match] anchors at the
    start of [s], which is all a leading [^] asks for. *)
Definition re_match (pat : list atom) (s : str) : option (list str) :=
  fst <$> re_exec pat s.

(** [re.sub(pat, repl, s)] *)
Definition re_sub (pat : list atom) (repl s : str) : str :=
  sub_scan (λ t, '(_, r) ← re_exec pat t; Some (length t - length r))
    repl 0 s.

Definition is_char (c : N) : N → bool := λ x, bool_decide (x = c).
Definition ascii_digit : N → bool := λ x, (48 <=? x)%N && (x <=? 57)%N.
(** [[^0-9_]] *)
Definition not_digit_underscore : N → bool :=
  λ x, negb (ascii_digit x) && negb (is_char chr_underscore x).
(** [[^_]] *)
Definition not_underscore : N → bool := λ x, negb (is_char chr_underscore x).
(** [.] without [re.DOTALL] *)
Definition dot_any : N → bool := λ x, negb (is_char chr_newline x).

(** ** pathlib *)

(** A path: the components of its directory, and its last component. *)
Record Path := mkPath { parent : list str; name : str }.

Global Instance Path_eq_dec : EqDecision Path.
Proof. solve_decision. Defined.

Global Instance Path_countable : Countable Path.
Proof.
  refine (inj_countable' (λ p, (parent p, name p))
            (λ q, mkPath q.1 q.2) _).
  by intros [].
Defined.

(** [p.suffix] and [p.stem]: split at the last dot of the name, unless that
    dot is the first or the last character. *)
Definition suffix (p : Path) : str :=
  match rfind chr_dot (name p) with
  | Some i =>
      if bool_decide (0 < i) && bool_decide (i + 1 < length (name p))
      then drop i (name p) else []
  | None => []
  end.

Definition stem (p : Path) : str :=
  match rfind chr_dot (name p) with
  | Some i =>
      if bool_decide (0 < i) && bool_decide (i + 1 < length (name p))
      then take i (name p) else name p
  | None => name p
  end.

(** [p.with_name(nm)] raises [ValueError] when [p] has no name or [nm] is
    empty, is ["."] or contains a separator. *)
Inductive result (A : Type) :=
  | Ok (a : A)
  | ValueError.
Arguments Ok {A} a.
Arguments ValueError {A}.

Definition valid_name (nm : str) : bool :=
  negb (bool_decide (nm = [])) && negb (bool_decide (nm = [chr_dot]))
  && negb (bool_decide (chr_slash ∈ nm)).

Definition with_name (p : Path) (nm : str) : result Path :=
  if negb (bool_decide (name p = [])) && valid_name nm
  then Ok (mkPath (parent p) nm) else ValueError.

(** [Path(filename)] for a [filename] that is one path component, which is
    what every caller in the script passes ([entry.name], [it.src.name],
    [f.name]). *)
Definition Path_of_name (filename : str) : Path := mkPath [] filename.

(** Paths are ordered by their components, as [pathlib] compares them. *)
Fixpoint lex_ltb {A} `{EqDecision A} (ltb : A → A → bool) (s t : list A)
    : bool :=
  match s, t with
  | _, [] => false
  | [], _ :: _ => true
  | a :: s', b :: t' =>
      if bool_decide (a = b) then lex_ltb ltb s' t' else ltb a b
  end.

Definition str_ltb : str → str → bool := lex_ltb N.ltb.
Definition parts (p : Path) : list str := parent p ++ [name p].
Definition path_ltb (p q : Path) : bool := lex_ltb str_ltb (parts p) (parts q).
Definition path_le (p q : Path) : Prop := path_ltb q p = false.

Global Instance path_le_dec p q : Decision (path_le p q).
Proof. unfold path_le. apply _. Defined.

(** [sorted(paths)] *)
Definition sorted (paths : list Path) : list Path := merge_sort path_le paths.

(** ** The file system at the time a plan is made *)

(** What a directory entry is: a regular file (or a link to one), something
    else that exists, or a link that leads nowhere.  [is_file], [exists]
    and [iterdir] are modelled where they return: an [OSError] of the
    operating system (a name that is too long, a missing permission) is
    outside the model, so that [Raised] below is the [ValueError] of
    [with_name] and nothing else. *)
Inductive node := File | NotFile | Broken.

Abbreviation files := (gmap Path node).

Definition is_file (fs : files) (p : Path) : bool :=
  match fs !! p with
  | Some File => true
  | _ => false
  end.

Definition path_exists (fs : files) (p : Path) : bool :=
  match fs !! p with
  | Some File | Some NotFile => true
  | _ => false
  end.

(** [audio_dir.iterdir()]: the entries of [fs] that lie in [audio_dir]. *)
Definition iterdir (fs : files) (audio_dir : list str) : list Path :=
  filter (λ p, parent p = audio_dir) (map_to_list fs).*1.

(** ** Tables *)

Definition NAME_ROMAJI : gmap str str :=
  list_to_map [
    (u"鈴木", u"Suzuki");
    (u"塚本", u"Tsukamoto");
    (u"高野", u"Takano")
  ].

Definition KEYWORD_TO_SPOT_TITLE : list (str * str) := [
    (u"帆曳船", u"りんりんポート土浦");
    (u"white iris", u"りんりんポート土浦");
    (u"ホワイトアイリス", u"りんりんポート土浦");
    (u"帰港", u"りんりんポート土浦");
    (u"鐘", u"幸せの鐘");
    (u"水車", u"水車");
    (u"風車", u"風車");
    (u"野球", u"多目的広場");
    (u"サッカー", u"多目的広場");
    (u"ソフトボール", u"多目的広場");
    (u"滝", u"水郷の滝");
    (u"ひこうき", u"ツェッペリン号");
    (u"飛行機", u"ツェッペリン号");
    (u"水路", u"風車");
    (u"板", u"風車");
    (u"デッキ", u"レストハウス");
    (u"じゃり", u"レストハウス");
    (u"自販機", u"レストハウス");
    (u"扉", u"レストハウス");
    (u"箱", u"レストハウス");
    (u"鉄琴", u"レストハウス");
    (u"鎖", u"レストハウス");
    (u"水槽", u"レストハウス");
    (u"階段", u"風車");
    (u"砂", u"散歩道");
    (u"足音", u"ジョギングコース");
    (u"枯葉", u"ジョギングコース");
    (u"ドングリ", u"ジョギングコース");
    (u"どんぐり", u"ジョギングコース");
    (u"鳥", u"森1");
    (u"さえずり", u"森1");
    (u"薮", u"森1");
    (u"虫", u"森1");
    (u"木", u"森1");
    (u"水", u"水郷の滝");
    (u"池", u"水郷の滝");
    (u"川", u"水郷の滝")
  ].

(** ** Records *)

Record RenamePlanItem := mkItem { src : Path; dst : Path }.

Inductive SourceKind := KindA | KindB | KindOther.

Record ParsedAudioName := mkParsed {
  speaker : str;
  date_yyyymmdd : str;
  time_hhmmss : option str;
  descriptor : str;
  source_kind : SourceKind;
  keep_id : option str;
}.

(** A playlist entry of [spots.json], as far as the script reads and writes
    it: the values of [t.get("name")] and [t.get("file")]. *)
Record Track := mkTrack { track_name : option str; track_file : option str }.

(** The value under ["playlist"]: the key may be missing, or hold [null]. *)
Inductive Playlist := Absent | Null | Arr (tracks : list Track).

(** An object of [spots.json]: its title, if it has one, its playlist and the
    names of the other keys it carries. *)
Record Spot := mkSpot {
  spot_title : option str;
  spot_playlist : Playlist;
  spot_other : list str;
}.

(** A Python [dict]: keys in insertion order, each once. *)
Abbreviation dict K V := (list (K * V)).

Fixpoint dict_get {K V} `{EqDecision K} (k : K) (d : dict K V) : option V :=
  match d with
  | [] => None
  | (k', v) :: d' => if decide (k' = k) then Some v else dict_get k d'
  end.

(** [d[k] = v]: an existing key keeps its place. *)
Fixpoint dict_set {K V} `{EqDecision K} (k : K) (v : V) (d : dict K V)
    : dict K V :=
  match d with
  | [] => [(k, v)]
  | (k', v') :: d' =>
      if decide (k' = k) then (k', v) :: d' else (k', v') :: dict_set k v d'
  end.

(** [d[k] = f(d[k])] for a key that is present. *)
Fixpoint dict_alter {K V} `{EqDecision K} (f : V → V) (k : K) (d : dict K V)
    : dict K V :=
  match d with
  | [] => []
  | (k', v') :: d' =>
      if decide (k' = k) then (k', f v') :: d'
      else (k', v') :: dict_alter f k d'
  end.

(** What a run of the rename planner ends in: a value, the [ValueError] of
    [with_name], or a loop that was cut short (see [dup_loop]). *)
Inductive outcome (A : Type) :=
  | Done (a : A)
  | Raised
  | OutOfFuel.
Arguments Done {A} a.
Arguments Raised {A}.
Arguments OutOfFuel {A}.

(** ** The script *)

Section Script.
Context `{Unicode}.

Definition _nfc (text : str) : str := nfc text.

Definition _clean_separators (text : str) : str :=
  let t := _nfc text in
  let t := replace (u"＿") (u"_") t in
  let t := replace (u" ") (u"") t in
  let t := re_sub [Rep (is_char chr_dot) 1 None] (u".") t in
  let t := replace (u"..") (u".") t in
  let t := replace (u".") (u"") t in
  let t := re_sub [Rep (is_char chr_underscore) 1 None] (u"_") t in
  strip chr_underscore t.

(** A letter of a pattern compiled with [(?i)]: itself in either case. *)
Definition either_case (lo up : str) : atom :=
  Rep (λ x, bool_decide (x ∈ lo ++ up)) 1 (Some 1).

Definition _strip_mp3_token (text : str) : str :=
  re_sub [either_case (u"m") (u"M"); either_case (u"p") (u"P");
          either_case (u"3") (u"3")] (u"") text.

Definition tsukamoto_pattern : list atom :=
  [Rep not_digit_underscore 1 None; Rep isdecimal 8 (Some 8); Lit (u"_");
   Rep isdecimal 6 (Some 6); Rep dot_any 0 None; Eos].

Definition _parse_tsukamoto_style (stem : str) : option ParsedAudioName :=
  match re_match tsukamoto_pattern stem with
  | Some [speaker; date; time; rest] =>
      let rest := _strip_mp3_token rest in
      let rest := _clean_separators rest in
      let rest := replace (u"(1)") (u"take1_") rest in
      let rest := replace (u"(2)") (u"take2_") rest in
      let rest := replace (u"(3)") (u"take3_") rest in
      let rest := _clean_separators rest in
      let descriptor :=
        if bool_decide (rest = []) then u"UnknownContent" else rest in
      Some {| speaker := speaker; date_yyyymmdd := date;
              time_hhmmss := Some time; descriptor := descriptor;
              source_kind := KindB; keep_id := None |}
  | _ => None
  end.

Definition suzuki_pattern : list atom :=
  [Rep not_underscore 1 None; Lit (u"_WAV_"); Rep isdecimal 4 (Some 4);
   Lit (u"_"); Rep isdecimal 3 (Some 3); Rep dot_any 0 None; Eos].

Definition _parse_suzuki_style (stem unknown_date : str) (keep_id : bool)
    : option ParsedAudioName :=
  match re_match suzuki_pattern stem with
  | Some [speaker; id1; id2; rest] =>
      let rest := _strip_mp3_token rest in
      let rest := _clean_separators rest in
      let rest := if startswith (u"_") rest then drop 1 rest else rest in
      let descriptor :=
        if bool_decide (rest = []) then u"UnknownContent" else rest in
      let kept :=
        if keep_id
        then Some (u"WAV" ++ zfill 4 id1 ++ u"_" ++ zfill 3 id2)
        else None in
      Some {| speaker := speaker; date_yyyymmdd := unknown_date;
              time_hhmmss := None; descriptor := descriptor;
              source_kind := KindA; keep_id := kept |}
  | _ => None
  end.

Definition parse_audio_name (filename unknown_date : str)
    (keep_suzuki_id : bool) : option ParsedAudioName :=
  let p := Path_of_name filename in
  if negb (bool_decide (lower (suffix p) = u".mp3")) then None
  else
    let stem := _nfc (stem p) in
    match _parse_tsukamoto_style stem with
    | Some parsed_b => Some parsed_b
    | None =>
        match _parse_suzuki_style stem unknown_date keep_suzuki_id with
        | Some parsed_a => Some parsed_a
        | None => None
        end
    end.

(** The truth value of an [Optional[str]]: present and not empty. *)
Definition truthy (o : option str) : bool :=
  match o with
  | Some (_ :: _) => true
  | _ => false
  end.

Definition build_new_filename (parsed : ParsedAudioName)
    (romanize_names : bool) : str :=
  let speaker :=
    if romanize_names
    then default (speaker parsed) (NAME_ROMAJI !! speaker parsed)
    else speaker parsed in
  let parts := [speaker; date_yyyymmdd parsed] in
  let parts :=
    if truthy (time_hhmmss parsed)
    then parts ++ [default [] (time_hhmmss parsed)] else parts in
  let parts :=
    if truthy (keep_id parsed)
    then parts ++ [default [] (keep_id parsed)] else parts in
  let parts := parts ++ [descriptor parsed] in
  let joined := join (u"_") parts in
  let joined := _clean_separators joined in
  let joined :=
    if bool_decide (joined = [])
    then speaker ++ u"_" ++ date_yyyymmdd parsed ++ u"_UnknownContent"
    else joined in
  joined ++ u".mp3".

(** The first loop of [plan_renames]: one candidate item per entry that
    passes the filters. *)
Fixpoint collect_items (fs : files) (targets : gset str)
    (romanize_names : bool) (unknown_date : str) (keep_suzuki_id : bool)
    (entries : list Path) (items : list RenamePlanItem)
    : result (list RenamePlanItem) :=
  match entries with
  | [] => Ok items
  | entry :: entries' =>
      let continue :=
        collect_items fs targets romanize_names unknown_date keep_suzuki_id
          entries' in
      if negb (is_file fs entry) then continue items
      else if negb (bool_decide (lower (suffix entry) = u".mp3"))
      then continue items
      else
        let stem := _nfc (stem entry) in
        match re_match [Rep not_digit_underscore 1 None] stem with
        | Some [speaker] =>
            if negb (bool_decide (speaker ∈ targets)) then continue items
            else
              match
                parse_audio_name (name entry) unknown_date keep_suzuki_id
              with
              | None => continue items
              | Some parsed =>
                  let new_name := build_new_filename parsed romanize_names in
                  match with_name entry new_name with
                  | ValueError => ValueError
                  | Ok dst => continue (items ++ [mkItem entry dst])
                  end
              end
        | _ => continue items
        end
  end.

(** The [while] loop of [plan_renames].  [fuel] bounds the number of
    rounds; [plan_renames] supplies more than the loop can use. *)
Fixpoint dup_loop (fs : files) (used : gset Path) (base suffix : str)
    (fuel : nat) (dst : Path) (i : nat) : outcome Path :=
  if path_exists fs dst || bool_decide (dst ∈ used) then
    match fuel with
    | 0 => OutOfFuel
    | S fuel' =>
        match
          with_name dst (base ++ u"_dup" ++ str_of_nat i ++ suffix)
        with
        | ValueError => Raised
        | Ok dst' => dup_loop fs used base suffix fuel' dst' (S i)
        end
    end
  else Done dst.

(** The second loop of [plan_renames]. *)
Fixpoint resolve_items (fs : files) (items : list RenamePlanItem)
    (used : gset Path) (resolved : list RenamePlanItem)
    : outcome (list RenamePlanItem) :=
  match items with
  | [] => Done resolved
  | item :: items' =>
      let dst := dst item in
      let base := stem dst in
      let suffix := suffix dst in
      match dup_loop fs used base suffix (S (size fs + size used)) dst 1 with
      | Done dst =>
          resolve_items fs items' ({[dst]} ∪ used)
            (resolved ++ [mkItem (src item) dst])
      | Raised => Raised
      | OutOfFuel => OutOfFuel
      end
  end.

Definition plan_renames (fs : files) (audio_dir : list str)
    (targets : gset str) (romanize_names : bool) (unknown_date : str)
    (keep_suzuki_id : bool) : outcome (list RenamePlanItem) :=
  match
    collect_items fs targets romanize_names unknown_date keep_suzuki_id
      (sorted (iterdir fs audio_dir)) []
  with
  | ValueError => Raised
  | Ok items =>
      match resolve_items fs items ∅ [] with
      | Done resolved =>
          Done (filter (λ it, name (src it) ≠ name (dst it)) resolved)
      | Raised => Raised
      | OutOfFuel => OutOfFuel
      end
  end.

Fixpoint guess_spot_title_in (table : list (str * str)) (d : str)
    : option str :=
  match table with
  | [] => None
  | (keyword, spot) :: table' =>
      if contains (lower keyword) (lower d) then Some spot
      else guess_spot_title_in table' d
  end.

Definition guess_spot_title (descriptor : str) : option str :=
  let d := _nfc descriptor in
  guess_spot_title_in KEYWORD_TO_SPOT_TITLE d.

End Script.

(** ** Assignment to spots *)

(** [s.get("title", "")] *)
Definition title_of (s : Spot) : str := default [] (spot_title s).

(** [spot.get("playlist") or []] *)
Definition playlist_or_empty (s : Spot) : list Track :=
  match spot_playlist s with
  | Arr tracks => tracks
  | Absent | Null => []
  end.

(** The truth value of a spot: an object with at least one key. *)
Definition spot_truthy (s : Spot) : bool :=
  match spot_title s, spot_playlist s, spot_other s with
  | None, Absent, [] => false
  | _, _, _ => true
  end.

(** [{s.get("title", ""): s for s in spots}].  The dictionary holds
    references to the objects of [spots]: here, their positions.  A title
    that occurs again keeps its place and refers to the later object. *)
Fixpoint title_index (spots : list Spot) (i : nat) (d : dict str nat)
    : dict str nat :=
  match spots with
  | [] => d
  | s :: spots' => title_index spots' (S i) (dict_set (title_of s) i d)
  end.

Definition title_to_spot (spots : list Spot) : dict str nat :=
  title_index spots 0 [].

(** The result of a planner: the additions per title and the unmapped
    paths. *)
Abbreviation assignment := (dict str (list Track) * list Path)%type.

Section Assign.
Context `{Unicode}.

Definition _build_track_name (speaker descriptor : str)
    (romanize_names : bool) : str :=
  let speaker :=
    if romanize_names then default speaker (NAME_ROMAJI !! speaker)
    else speaker in
  speaker ++ u":" ++ descriptor.

(** The tail of the body of both planner loops, from the call of
    [guess_spot_title] on; [f] is the path whose name is recorded ([f] in
    [plan_spots_additions], [it.dst] in
    [plan_spots_additions_from_rename_plan]). *)
Definition assign_track (spots : list Spot) (title_to_spot : dict str nat)
    (romanize_names : bool) (parsed : ParsedAudioName) (f : Path)
    (st : assignment) : assignment :=
  let '(additions, unmapped) := st in
  match guess_spot_title (descriptor parsed) with
  | Some ((_ :: _) as spot_title) =>
      match dict_get spot_title title_to_spot with
      | None => (additions, unmapped ++ [f])
      | Some i =>
          let rel := u"audio/" ++ name f in
          let track :=
            {| track_name :=
                 Some (_build_track_name (speaker parsed) (descriptor parsed)
                         romanize_names);
               track_file := Some rel |} in
          let playlist := from_option playlist_or_empty [] (spots !! i) in
          if existsb (λ t, bool_decide (track_file t = Some rel)) playlist
          then (additions, unmapped)
          else (dict_alter (λ l, l ++ [track]) spot_title additions, unmapped)
      end
  | _ => (additions, unmapped ++ [f])
  end.

(** [{k: v for k, v in additions.items() if v}] *)
Definition prune (additions : dict str (list Track))
    : dict str (list Track) :=
  filter (λ kv, kv.2 ≠ []) additions.

Definition plan_spots_additions (spots : list Spot)
    (audio_files : list Path) (audio_dir : list str) (unknown_date : str)
    (keep_suzuki_id romanize_names : bool) (targets : gset str)
    : assignment :=
  let title_to_spot := title_to_spot spots in
  let additions : dict str (list Track) := (λ kv, (kv.1, [])) <$> title_to_spot in
  let unmapped : list Path := [] in
  let '(additions, unmapped) :=
    foldl
      (λ st f,
         if negb (bool_decide (lower (suffix f) = u".mp3")) then st
         else
           let stem := _nfc (stem f) in
           match re_match [Rep not_digit_underscore 1 None] stem with
           | Some [speaker] =>
               if negb (bool_decide (speaker ∈ targets)) then st
               else
                 match
                   parse_audio_name (name f) unknown_date keep_suzuki_id
                 with
                 | None => st
                 | Some parsed =>
                     assign_track spots title_to_spot romanize_names parsed
                       f st
                 end
           | _ => st
           end)
      (additions, unmapped) (sorted audio_files) in
  (prune additions, unmapped).

Definition plan_spots_additions_from_rename_plan (spots : list Spot)
    (rename_plan : list RenamePlanItem) (unknown_date : str)
    (keep_suzuki_id romanize_names : bool) (targets : gset str)
    : assignment :=
  let title_to_spot := title_to_spot spots in
  let additions : dict str (list Track) := (λ kv, (kv.1, [])) <$> title_to_spot in
  let unmapped : list Path := [] in
  let '(additions, unmapped) :=
    foldl
      (λ st it,
         match
           parse_audio_name (name (src it)) unknown_date keep_suzuki_id
         with
         | None => st
         | Some parsed =>
             if negb (bool_decide (speaker parsed ∈ targets)) then st
             else
               assign_track spots title_to_spot romanize_names parsed
                 (dst it) st
         end)
      (additions, unmapped) rename_plan in
  (prune additions, unmapped).

End Assign.

(** [apply_spots_additions] changes the objects of [spots] in place: the
    list is threaded through the loop and the object a title refers to is
    replaced at its position. *)
Definition extend_playlist (spot : Spot) (tracks : list Track) : Spot :=
  {| spot_title := spot_title spot;
     spot_playlist := Arr (playlist_or_empty spot ++ tracks);
     spot_other := spot_other spot |}.

(** One round of the loop of [apply_spots_additions]. *)
Definition apply_one (title_to_spot : dict str nat) (spots : list Spot)
    (item : str * list Track) : list Spot :=
  let '(title, tracks) := item in
  match dict_get title title_to_spot with
  | None => spots
  | Some i =>
      match spots !! i with
      | None => spots
      | Some spot =>
          if negb (spot_truthy spot) then spots
          else <[i := extend_playlist spot tracks]> spots
      end
  end.

Definition apply_spots_additions (spots : list Spot)
    (additions : dict str (list Track)) : list Spot :=
  let title_to_spot := title_to_spot spots in
  foldl (apply_one title_to_spot) spots additions.

(** ** A reading of the Unicode tables *)

(** The canonical compositions of kana with the combining voiced and
    semi-voiced sound marks (U+3099, U+309A). *)
Definition kana_compositions : list (str * str) :=
  let voiced :=
    [("か", "が"); ("き", "ぎ"); ("く", "ぐ"); ("け", "げ"); ("こ", "ご");
     ("さ", "ざ"); ("し", "じ"); ("す", "ず"); ("せ", "ぜ"); ("そ", "ぞ");
     ("た", "だ"); ("ち", "ぢ"); ("つ", "づ"); ("て", "で"); ("と", "ど");
     ("は", "ば"); ("ひ", "び"); ("ふ", "ぶ"); ("へ", "べ"); ("ほ", "ぼ");
     ("う", "ゔ"); ("ゝ", "ゞ");
     ("カ", "ガ"); ("キ", "ギ"); ("ク", "グ"); ("ケ", "ゲ"); ("コ", "ゴ");
     ("サ", "ザ"); ("シ", "ジ"); ("ス", "ズ"); ("セ", "ゼ"); ("ソ", "ゾ");
     ("タ", "ダ"); ("チ", "ヂ"); ("ツ", "ヅ"); ("テ", "デ"); ("ト", "ド");
     ("ハ", "バ"); ("ヒ", "ビ"); ("フ", "ブ"); ("ヘ", "ベ"); ("ホ", "ボ");
     ("ウ", "ヴ"); ("ワ", "ヷ"); ("ヰ", "ヸ"); ("ヱ", "ヹ"); ("ヲ", "ヺ");
     ("ヽ", "ヾ")]%string in
  let semi_voiced :=
    [("は", "ぱ"); ("ひ", "ぴ"); ("ふ", "ぷ"); ("へ", "ぺ"); ("ほ", "ぽ");
     ("ハ", "パ"); ("ヒ", "ピ"); ("フ", "プ"); ("ヘ", "ペ"); ("ホ", "ポ")]%string in
  ((λ bc, (utf8 bc.1 ++ [12441%N], utf8 bc.2)) <$> voiced)
  ++ ((λ bc, (utf8 bc.1 ++ [12442%N], utf8 bc.2)) <$> semi_voiced).

(** NFC on text of ASCII, kana, the two sound marks and unified
    ideographs: a kana directly followed by a sound mark it composes with
    becomes the composed kana, and nothing else changes. *)
Fixpoint nfc_kana (s : str) : str :=
  match s with
  | b :: ((m :: s') as t) =>
      match dict_get [b; m] kana_compositions with
      | Some (c :: _) => c :: nfc_kana s'
      | _ => b :: nfc_kana t
      end
  | _ => s
  end.

(** [str.lower] on the same text: only the letters A-Z change. *)
Definition lower_ascii (s : str) : str :=
  (λ c, if (65 <=? c)%N && (c <=? 90)%N then (c + 32)%N else c) <$> s.

(** The tables restricted to that text; there the decimal digits are 0-9. *)
Definition plain_text : Unicode :=
  {| nfc := nfc_kana; lower := lower_ascii; isdecimal := ascii_digit |}.

(** The text [plain_text] is exact on: ASCII, precomposed hiragana and
    katakana, the prolonged sound mark and the unified ideographs. *)
Definition plain_char (c : N) : bool :=
  (c <? 128)%N
  || ((12353 <=? c) && (c <=? 12438))%N
  || ((12449 <=? c) && (c <=? 12538))%N
  || bool_decide (c = 12540%N)
  || ((19968 <=? c) && (c <=? 40959))%N.

Definition plain (s : str) : Prop := Forall (λ c, plain_char c = true) s.

(** What is assumed of the interpreter's tables on such text: it is in
    normal form already, only A-Z have a lower case, and only 0-9 are
    decimal digits. *)
Definition agrees_on_plain_text (U : Unicode) : Prop :=
  (∀ s, plain s → nfc s = s)
  ∧ (∀ s, plain s → lower s = lower_ascii s)
  ∧ (∀ c, plain_char c = true → isdecimal c = ascii_digit c).

(** Two atoms that differ at most in how their classes judge characters
    that do not occur in [s]. *)
Definition atom_agree (s : str) (a1 a2 : atom) : Prop :=
  match a1, a2 with
  | Rep c1 lo1 hi1, Rep c2 lo2 hi2 =>
      lo1 = lo2 ∧ hi1 = hi2 ∧ ∀ x, x ∈ s → c1 x = c2 x
  | Lit l1, Lit l2 => l1 = l2
  | Eos, Eos => True
  | _, _ => False
  end.

(** [it] is what the first loop of [plan_renames] makes of a file: the
    file parses, and the destination is the built name in the same
    directory. *)
Definition candidate `{Unicode} (fs : files) (romanize_names : bool)
    (unknown_date : str) (keep_suzuki_id : bool) (it : RenamePlanItem)
    : Prop :=
  is_file fs (src it) = true
  ∧ ∃ parsed,
      parse_audio_name (name (src it)) unknown_date keep_suzuki_id
      = Some parsed
      ∧ dst it
        = mkPath (parent (src it)) (build_new_filename parsed romanize_names).

(** The [i]-th name the [while] loop tries after the first. *)
Definition dup_candidate (d : list str) (base suffix : str) (i : nat) : Path :=
  mkPath d (base ++ u"_dup" ++ str_of_nat i ++ suffix).

(** [out] is what the second loop makes of [item]: the same source, and
    the destination itself or one of its [_dup] variants. *)
Definition resolution_of (item out : RenamePlanItem) : Prop :=
  src out = src item
  ∧ (dst out = dst item
     ∨ ∃ i, dst out
            = dup_candidate (parent (dst item)) (stem (dst item))
                (suffix (dst item)) i).

(** A path the [while] loop will not settle on. *)
Definition blocked (fs : files) (used : gset Path) (p : Path) : Prop :=
  path_exists fs p = true ∨ p ∈ used.

(** ドングリ written with the combining voiced sound mark: ト + U+3099,
    ン, ク + U+3099, リ. *)
Definition donguri_decomposed : str :=
  u"ト" ++ [12441%N] ++ u"ンク" ++ [12441%N] ++ u"リ".

(** A directory with two recordings, one in each naming convention. *)
Definition sample_dir : list str := [u"audio"].

Definition sample_fs : files :=
  list_to_map [
    (mkPath sample_dir (u"塚本20251012_121402公園内散策_野球.mp3"), File);
    (mkPath sample_dir (u"鈴木_WAV_0018_001._滝_1.mp3"), File)
  ].

Definition sample_targets : gset str := {[ u"鈴木"; u"塚本" ]}.

Definition sample_plan : list RenamePlanItem := [
    mkItem (mkPath sample_dir (u"塚本20251012_121402公園内散策_野球.mp3"))
      (mkPath sample_dir (u"塚本_20251012_121402_公園内散策_野球.mp3"));
    mkItem (mkPath sample_dir (u"鈴木_WAV_0018_001._滝_1.mp3"))
      (mkPath sample_dir (u"鈴木_UnknownDate_WAV0018_001_滝_1.mp3"))
  ].

(** A directory with one recording whose name is already the name the
    builder gives it when the placeholder date is [WAV_0018_001] and ids
    are not kept. *)
Definition settled_fs : files :=
  {[ mkPath sample_dir (u"鈴木_WAV_0018_001_滝.mp3") := File ]}.

(** The track a planner builds for a parsed name and the path [f] whose
    name it records. *)
Definition track_for `{Unicode} (romanize_names : bool)
    (parsed : ParsedAudioName) (f : Path) : Track :=
  {| track_name :=
       Some (_build_track_name (speaker parsed) (descriptor parsed)
               romanize_names);
     track_file := Some (u"audio/" ++ name f) |}.

(** Whether the playlist of the object at position [i] has an entry whose
    file is [rel]. *)
Definition in_playlist (spots : list Spot) (i : nat) (rel : str) : bool :=
  existsb (λ t, bool_decide (track_file t = Some rel))
    (from_option playlist_or_empty [] (spots !! i)).

(** What the head of each planner loop lets through: the parsed name and
    the path to record. *)
Definition classify_item `{Unicode} (unknown_date : str)
    (keep_suzuki_id : bool) (targets : gset str) (it : RenamePlanItem)
    : option (ParsedAudioName * Path) :=
  match parse_audio_name (name (src it)) unknown_date keep_suzuki_id with
  | None => None
  | Some parsed =>
      if negb (bool_decide (speaker parsed ∈ targets)) then None
      else Some (parsed, dst it)
  end.

Definition classify_file `{Unicode} (unknown_date : str)
    (keep_suzuki_id : bool) (targets : gset str) (f : Path)
    : option (ParsedAudioName * Path) :=
  if negb (bool_decide (lower (suffix f) = u".mp3")) then None
  else
    match re_match [Rep not_digit_underscore 1 None] (_nfc (stem f)) with
    | Some [speaker] =>
        if negb (bool_decide (speaker ∈ targets)) then None
        else
          match parse_audio_name (name f) unknown_date keep_suzuki_id with
          | None => None
          | Some parsed => Some (parsed, f)
          end
    | _ => None
    end.

(** The planner loops, run on what their heads let through. *)
Definition assign_all `{Unicode} (spots : list Spot) (romanize_names : bool)
    (cands : list (ParsedAudioName * Path)) (st : assignment) : assignment :=
  foldl
    (λ st c, assign_track spots (title_to_spot spots) romanize_names
               c.1 c.2 st)
    st cands.

(** [{t: [] for t in title_to_spot.keys()}] *)
Definition no_additions (spots : list Spot) : dict str (list Track) :=
  (λ kv, (kv.1, [])) <$> title_to_spot spots.

(** Two spots of the map, one with an empty playlist and one without. *)
Definition sample_spots : list Spot := [
    {| spot_title := Some (u"水郷の滝"); spot_playlist := Arr [];
       spot_other := [u"lat"; u"lng"] |};
    {| spot_title := Some (u"多目的広場"); spot_playlist := Absent;
       spot_other := [u"lat"; u"lng"] |}
  ].

Definition sample_tracks : dict str (list Track) := [
    (u"水郷の滝",
     [ {| track_name := Some (u"鈴木:滝_1");
          track_file :=
            Some (u"audio/鈴木_UnknownDate_WAV0018_001_滝_1.mp3") |} ]);
    (u"多目的広場",
     [ {| track_name := Some (u"塚本:公園内散策_野球");
          track_file :=
            Some (u"audio/塚本_20251012_121402_公園内散策_野球.mp3") |} ])
  ].

(** ** Specification vocabulary *)

(** [track], filed under [title], has its descriptor (hence its title and
    its name) from the file name [descriptor_source] and its file from the
    file name [file_source]. *)
Definition derived_from `{Unicode} (unknown_date : str)
    (keep_suzuki_id romanize_names : bool)
    (descriptor_source file_source : str) (title : str) (track : Track)
    : Prop :=
  ∃ parsed,
    parse_audio_name descriptor_source unknown_date keep_suzuki_id
    = Some parsed
    ∧ guess_spot_title (descriptor parsed) = Some title
    ∧ track_name track
      = Some (_build_track_name (speaker parsed) (descriptor parsed)
                romanize_names)
    ∧ track_file track = Some (u"audio/" ++ file_source).

(** No track among [additions] has a file that the playlist of its spot
    in [spots] already lists. *)
Definition no_duplicate_additions (spots : list Spot)
    (additions : dict str (list Track)) : Prop :=
  ∀ title tracks track i spot t,
    (title, tracks) ∈ additions → track ∈ tracks →
    dict_get title (title_to_spot spots) = Some i → spots !! i = Some spot →
    t ∈ playlist_or_empty spot →
    track_file t ≠ track_file track.

(** Every track planned from [rename_plan] takes the descriptor from the
    name [from it] of an item and the file from its destination name. *)
Definition planned_from `{Unicode} (from : RenamePlanItem → str)
    (spots : list Spot) (rename_plan : list RenamePlanItem)
    (unknown_date : str) (keep_suzuki_id romanize_names : bool)
    (targets : gset str) : Prop :=
  ∀ title tracks track,
    (title, tracks)
      ∈ (plan_spots_additions_from_rename_plan spots rename_plan
           unknown_date keep_suzuki_id romanize_names targets).1 →
    track ∈ tracks →
    ∃ it,
      it ∈ rename_plan
      ∧ derived_from unknown_date keep_suzuki_id romanize_names
          (from it) (name (dst it)) title track.

(** [sub] occurs in [s]. *)
Definition substring (sub s : str) : Prop := ∃ a b, s = a ++ sub ++ b.

(** [r] is the outcome of a first-match lookup of [text] in [table]: the
    title of the first entry whose lower-cased keyword occurs in [text], or
    nothing when no entry has one. *)
Definition first_match `{Unicode} (table : list (str * str)) (text : str)
    (r : option str) : Prop :=
  match r with
  | Some title =>
      ∃ pre keyword post,
        table = pre ++ (keyword, title) :: post
        ∧ substring (lower keyword) text
        ∧ ∀ kw, kw ∈ pre → ¬ substring (lower kw.1) text
  | None => ∀ kw, kw ∈ table → ¬ substring (lower kw.1) text
  end.

(** [s] padded on the left with zeros to [width] characters. *)
Definition zero_padded (width : nat) (s : str) : str :=
  replicate (width - length s) chr_zero ++ s.

(** The keywords listed before 鳥. *)
Definition before_bird : list (str * str) := take 29 KEYWORD_TO_SPOT_TITLE.

Definition chr_space : N := 32.
Definition chr_fullwidth_underscore : N := 65343.

(** The entries the first loop of [plan_renames] does not skip. *)
Definition eligible `{Unicode} (fs : files) (targets : gset str)
    (unknown_date : str) (keep_suzuki_id : bool) (entry : Path) : bool :=
  is_file fs entry
  && bool_decide (lower (suffix entry) = u".mp3")
  && match re_match [Rep not_digit_underscore 1 None] (_nfc (stem entry)) with
     | Some [speaker] => bool_decide (speaker ∈ targets)
     | _ => false
     end
  && bool_decide
       (is_Some (parse_audio_name (name entry) unknown_date keep_suzuki_id)).

(** The position of the spot a candidate is filed under: its descriptor
    has a title, the title is not empty and an object has it. *)
Definition spot_for `{Unicode} (spots : list Spot)
    (c : ParsedAudioName * Path) : option nat :=
  match guess_spot_title (descriptor c.1) with
  | Some title =>
      if bool_decide (title = []) then None
      else dict_get title (title_to_spot spots)
  | None => None
  end.

(** The tracks of the candidates classified under [title] whose file the
    playlist at position [i] does not list, in the order of the
    candidates. *)
Definition new_tracks `{Unicode} (spots : list Spot) (romanize_names : bool)
    (title : str) (i : nat) (cands : list (ParsedAudioName * Path))
    : list Track :=
  (λ c, track_for romanize_names c.1 c.2)
    <$> filter (λ c, guess_spot_title (descriptor c.1) = Some title
                     ∧ in_playlist spots i (u"audio/" ++ name c.2) = false)
          cands.

(** [result] is what a planner makes of the candidates [cands]: the
    unmapped paths are those of the candidates without a spot, and the
    additions hold, for every title of a spot, its new tracks, unless
    there are none. *)
Definition files_as `{Unicode} (spots : list Spot) (romanize_names : bool)
    (cands : list (ParsedAudioName * Path)) (result : assignment) : Prop :=
  result.2 = snd <$> filter (λ c, spot_for spots c = None) cands
  ∧ ∀ title tracks,
      (title, tracks) ∈ result.1
      ↔ tracks ≠ [] ∧ title ≠ []
        ∧ ∃ i, dict_get title (title_to_spot spots) = Some i
               ∧ tracks = new_tracks spots romanize_names title i cands.

(** Additions as a planner should return them: distinct titles, each the
    non-empty title of the object it refers to, with at least one track,
    and no track whose file the playlist of its spot already lists. *)
Definition well_formed (spots : list Spot)
    (additions : dict str (list Track)) : Prop :=
  NoDup additions.*1
  ∧ (∀ title tracks,
       (title, tracks) ∈ additions →
       tracks ≠ [] ∧ title ≠ []
       ∧ ∃ i spot, dict_get title (title_to_spot spots) = Some i
                   ∧ spots !! i = Some spot ∧ title_of spot = title)
  ∧ no_duplicate_additions spots additions.

(** No two tracks of [additions], under the same title or not, have the
    same file. *)
Definition distinct_files (additions : dict str (list Track)) : Prop :=
  ∀ title1 tracks1 k1 t1 title2 tracks2 k2 t2,
    (title1, tracks1) ∈ additions → tracks1 !! k1 = Some t1 →
    (title2, tracks2) ∈ additions → tracks2 !! k2 = Some t2 →
    track_file t1 = track_file t2 →
    title1 = title2 ∧ k1 = k2.

(** ** Applying a rename plan *)

(** The file system calls of [_apply_renames], on a state of the disk:
    [p.exists()], and [p.unlink()] and [p.rename(q)], which give the next
    state or raise. *)
Class Disk := {
  disk : Type;
  disk_exists : disk → Path → bool;
  disk_unlink : disk → Path → option disk;
  disk_rename : disk → Path → Path → option disk
}.

Section ApplyRenames.
Context `{Disk}.

(** The first loop of [_apply_renames]: the temporary path of every
    source, cleared if something is there. *)
Fixpoint clear_tmps (plan : list RenamePlanItem)
    (tmp_items : list (Path * Path)) (st : disk)
    : outcome (list (Path * Path) * disk) :=
  match plan with
  | [] => Done (tmp_items, st)
  | item :: plan' =>
      match with_name (src item) (name (src item) ++ u".__renametmp__") with
      | ValueError => Raised
      | Ok tmp =>
          if disk_exists st tmp then
            match disk_unlink st tmp with
            | None => Raised
            | Some st' =>
                clear_tmps plan' (tmp_items ++ [(src item, tmp)]) st'
            end
          else clear_tmps plan' (tmp_items ++ [(src item, tmp)]) st
      end
  end.

(** The second loop: every source to its temporary path. *)
Fixpoint move_to_tmps (tmp_items : list (Path * Path)) (st : disk)
    : outcome disk :=
  match tmp_items with
  | [] => Done st
  | (src, tmp) :: tmp_items' =>
      match disk_rename st src tmp with
      | None => Raised
      | Some st' => move_to_tmps tmp_items' st'
      end
  end.

(** The third loop: every temporary path to its destination.  The
    [zip(..., strict=True)] raises when one list ends before the other. *)
Fixpoint move_to_dsts (tmp_items : list (Path * Path))
    (plan : list RenamePlanItem) (st : disk) : outcome disk :=
  match tmp_items, plan with
  | [], [] => Done st
  | (_, tmp) :: tmp_items', item :: plan' =>
      match disk_rename st tmp (dst item) with
      | None => Raised
      | Some st' => move_to_dsts tmp_items' plan' st'
      end
  | _, _ => Raised
  end.

Definition _apply_renames (plan : list RenamePlanItem) (st : disk)
    : outcome disk :=
  match clear_tmps plan [] st with
  | Done (tmp_items, st1) =>
      match move_to_tmps tmp_items st1 with
      | Done st2 => move_to_dsts tmp_items plan st2
      | Raised => Raised
      | OutOfFuel => OutOfFuel
      end
  | Raised => Raised
  | OutOfFuel => OutOfFuel
  end.

End ApplyRenames.

(** The temporary path of a source. *)
Definition tmp_path (p : Path) : Path :=
  mkPath (parent p) (name p ++ u".__renametmp__").

(** A name a directory entry can have. *)
Definition proper_name (nm : str) : Prop := nm ≠ [] ∧ chr_slash ∉ nm.

(** What is assumed of the file system calls, where [read st p] is the
    content of the regular file at [p], if there is one: a regular file
    exists; unlinking a regular file removes it and nothing else; renaming
    a regular file to a path where nothing exists moves it there and
    changes nothing else. *)
Record disk_laws `{Disk} {data : Type} (read : disk → Path → option data)
    : Prop := {
  read_exists st p : is_Some (read st p) → disk_exists st p = true;
  unlink_file st p :
    is_Some (read st p) →
    ∃ st',
      disk_unlink st p = Some st'
      ∧ disk_exists st' p = false
      ∧ ∀ q, q ≠ p →
             read st' q = read st q ∧ disk_exists st' q = disk_exists st q;
  rename_file st p q :
    is_Some (read st p) → disk_exists st q = false →
    ∃ st',
      disk_rename st p q = Some st'
      ∧ read st' q = read st p
      ∧ disk_exists st' p = false
      ∧ ∀ r, r ≠ p → r ≠ q →
             read st' r = read st r ∧ disk_exists st' r = disk_exists st r
}.

(** What a run of [_apply_renames] on [plan] makes of the disk [st]: every
    destination holds what its source held, the temporary paths are gone,
    and so is every source that is not a destination too; every other path
    is as it was. *)
Definition moved `{Disk} {data : Type} (read : disk → Path → option data)
    (plan : list RenamePlanItem) (st st' : disk) : Prop :=
  Forall (λ it, read st' (dst it) = read st (src it)
                ∧ disk_exists st' (tmp_path (src it)) = false
                ∧ (src it ∉ dst <$> plan → disk_exists st' (src it) = false))
    plan
  ∧ ∀ p, p ∉ src <$> plan → p ∉ dst <$> plan →
         p ∉ (λ it, tmp_path (src it)) <$> plan →
         read st' p = read st p ∧ disk_exists st' p = disk_exists st p.

(** A disk with regular files only, each with a number for its content. *)
Definition flat_disk : Disk := {|
  disk := gmap Path N;
  disk_exists st p := bool_decide (is_Some (st !! p));
  disk_unlink st p :=
    match st !! p with
    | Some _ => Some (delete p st)
    | None => None
    end;
  disk_rename st p q :=
    match st !! p with
    | Some c => Some (<[q := c]> (delete p st))
    | None => None
    end
|}.

(** The recordings of [sample_fs], with contents 1 and 2. *)
Definition sample_disk : gmap Path N :=
  list_to_map [
    (mkPath sample_dir (u"塚本20251012_121402公園内散策_野球.mp3"), 1%N);
    (mkPath sample_dir (u"鈴木_WAV_0018_001._滝_1.mp3"), 2%N)
  ].

(** Two files to be swapped. *)
Definition swap_plan : list RenamePlanItem := [
    mkItem (mkPath sample_dir (u"a.mp3")) (mkPath sample_dir (u"b.mp3"));
    mkItem (mkPath sample_dir (u"b.mp3")) (mkPath sample_dir (u"a.mp3"))
  ].

Definition swap_disk : gmap Path N :=
  list_to_map [
    (mkPath sample_dir (u"a.mp3"), 1%N);
    (mkPath sample_dir (u"b.mp3"), 2%N)
  ].

(** The directory holds an entry that passes the filters of the first
    loop and for which [with_name] raises: its built name contains a
    slash, or its own name is empty. *)
Definition unnameable_entry `{Unicode} (fs : files) (audio_dir : list str)
    (targets : gset str) (romanize_names : bool) (unknown_date : str)
    (keep_suzuki_id : bool) : Prop :=
  ∃ entry parsed,
    entry ∈ iterdir fs audio_dir
    ∧ eligible fs targets unknown_date keep_suzuki_id entry = true
    ∧ parse_audio_name (name entry) unknown_date keep_suzuki_id = Some parsed
    ∧ (name entry = []
       ∨ chr_slash ∈ build_new_filename parsed romanize_names).






(** ** Text lemmas *)

Lemma startswith_spec p s : startswith p s = true ↔ ∃ b, s = p ++ b.
Proof.
  revert s. induction p as [|a p IH]; intros s; simpl.
  - split; [eauto|done].
  - destruct s as [|b s]; simpl.
    + split; [done|]. intros [? ?]; discriminate.
    + rewrite andb_true_iff, bool_decide_eq_true, IH. split.
      * intros [-> [t ->]]. eauto.
      * intros [t Ht]. injection Ht as -> ->. eauto.
Qed.

Lemma contains_spec sub s : contains sub s = true ↔ substring sub s.
Proof.
  unfold substring. induction s as [|c s IH]; simpl.
  - rewrite orb_false_r, startswith_spec. split.
    + intros [b Hb]. exists [], b. done.
    + intros (a & b & Hab). destruct a; [eauto|discriminate].
  - rewrite orb_true_iff, startswith_spec, IH. split.
    + intros [[b Hb]|(a & b & ->)].
      * exists [], b. done.
      * exists (c :: a), b. done.
    + intros (a & b & Hab). destruct a as [|x a]; simpl in Hab.
      * left. eauto.
      * right. injection Hab as -> ->. eauto.
Qed.

Lemma contains_false sub s : contains sub s = false ↔ ¬ substring sub s.
Proof. rewrite <- contains_spec. destruct (contains sub s); naive_solver. Qed.

Lemma no_keyword_forallb `{Unicode} (table : list (str * str)) text :
  forallb (λ kw, negb (contains (lower kw.1) text)) table = true →
  ∀ kw, kw ∈ table → ¬ substring (lower kw.1) text.
Proof.
  rewrite forallb_forall. intros Hall kw Hin.
  apply contains_false, negb_true_iff, Hall, list_elem_of_In, Hin.
Qed.

(** ** The spot classifier *)

Lemma guess_spot_title_in_first_match `{Unicode} table d :
  first_match table (lower d) (guess_spot_title_in table d).
Proof.
  induction table as [|[keyword spot] table IH]; simpl.
  - intros kw Hin. by apply elem_of_nil in Hin.
  - destruct (contains (lower keyword) (lower d)) eqn:Hc; simpl.
    + exists [], keyword, table. split; [done|]. split.
      * by apply contains_spec.
      * intros kw Hin. by apply elem_of_nil in Hin.
    + apply contains_false in Hc.
      destruct (guess_spot_title_in table d) as [title|]; simpl in *.
      * destruct IH as (pre & kw & post & -> & Hsub & Hpre).
        exists ((keyword, spot) :: pre), kw, post. split; [done|].
        split; [done|]. intros kw' [->|Hin]%elem_of_cons; [done|eauto].
      * intros kw' [->|Hin]%elem_of_cons; [done|eauto].
Qed.

Lemma first_match_unique `{Unicode} table text r1 r2 :
  first_match table text r1 → first_match table text r2 → r1 = r2.
Proof.
  revert r1 r2.
  assert (Hno : ∀ title, first_match table text (Some title) →
                 ¬ first_match table text None).
  { intros title (pre & kw & post & -> & Hsub & _) Hnone.
    apply (Hnone (kw, title)); [|done].
    apply elem_of_app. right. by left. }
  intros [t1|] [t2|] H1 H2; [|by destruct (Hno _ H1)|by destruct (Hno _ H2)|done].
  destruct H1 as (pre1 & k1 & post1 & E1 & S1 & P1).
  destruct H2 as (pre2 & k2 & post2 & E2 & S2 & P2).
  rewrite E1 in E2. clear E1. f_equal.
  revert pre2 E2 P2. induction pre1 as [|x pre1 IH]; intros [|y pre2] E2 P2.
  - by injection E2 as _ ->.
  - injection E2 as <- _. destruct (P2 (k1, t1)); [by left|done].
  - injection E2 as -> _. destruct (P1 (k2, t2)); [by left|done].
  - injection E2 as -> E2. apply (IH (λ kw Hin, P1 kw (list_elem_of_further _ _ _ Hin)) pre2 E2).
    intros kw Hin. apply P2. by right.
Qed.

(** C5 (as amended).  For every descriptor the classifier returns the title
    paired with the first keyword of the table whose lower-case form occurs
    in the lower-case form of the NFC-normalised descriptor, and returns
    nothing exactly when no keyword of the table does. *)
Theorem guess_spot_title_first_match `{Unicode} (descriptor : str) :
  first_match KEYWORD_TO_SPOT_TITLE (lower (nfc descriptor))
    (guess_spot_title descriptor)
  ∧ (guess_spot_title descriptor = None ↔
     ∀ kw, kw ∈ KEYWORD_TO_SPOT_TITLE →
       ¬ substring (lower kw.1) (lower (nfc descriptor))).
Proof.
  pose proof (guess_spot_title_in_first_match KEYWORD_TO_SPOT_TITLE
                (nfc descriptor)) as Hfm.
  split; [exact Hfm|]. unfold guess_spot_title, _nfc. split.
  - intros Hnone. by rewrite Hnone in Hfm.
  - intros Hno. by apply (first_match_unique _ _ _ None Hfm).
Qed.

(** C5 as stated fails: no keyword occurs in the lower-cased descriptor
    [donguri_decomposed] itself, yet the classifier, which normalises
    first, files it under ジョギングコース. *)
Lemma guess_spot_title_not_on_raw_descriptor :
  @guess_spot_title plain_text donguri_decomposed = Some (u"ジョギングコース")
  ∧ ¬ @first_match plain_text KEYWORD_TO_SPOT_TITLE
        (@lower plain_text donguri_decomposed)
        (@guess_spot_title plain_text donguri_decomposed).
Proof.
  assert (Hg : @guess_spot_title plain_text donguri_decomposed
               = Some (u"ジョギングコース")) by (vm_compute; reflexivity).
  split; [exact Hg|]. rewrite Hg.
  intros (pre & kw & post & E & Hsub & _).
  assert (Hno := @no_keyword_forallb plain_text KEYWORD_TO_SPOT_TITLE
                   (@lower plain_text donguri_decomposed)).
  apply (Hno ltac:(vm_compute; reflexivity) (kw, u"ジョギングコース"));
    [|exact Hsub].
  rewrite E. apply elem_of_app. right. left.
Qed.

Lemma guess_spot_title_bird `{Unicode} (d : str) :
  substring (lower (u"鳥")) (lower (nfc d)) →
  (∀ kw, kw ∈ before_bird → ¬ substring (lower kw.1) (lower (nfc d))) →
  guess_spot_title d = Some (u"森1").
Proof.
  intros Hbird Hbefore.
  pose proof (guess_spot_title_in_first_match KEYWORD_TO_SPOT_TITLE (nfc d))
    as Hfm.
  apply (first_match_unique _ _ _ (Some (u"森1")) Hfm).
  exists before_bird, (u"鳥"), (drop 30 KEYWORD_TO_SPOT_TITLE).
  split; [reflexivity|]. done.
Qed.

(** C6 (as amended).  For every two descriptors whose normalised text
    (NFC, lower case) contains the keywords 鳥 and 水 and none of the
    keywords listed before 鳥 in the table, the classifier resolves each of
    them to 森1, the spot of 鳥, wherever in the descriptor the two keywords
    occur. *)
Theorem guess_spot_title_bird_and_water `{Unicode} (d1 d2 : str) :
  (∀ d, d ∈ [d1; d2] →
     substring (lower (u"鳥")) (lower (nfc d))
     ∧ substring (lower (u"水")) (lower (nfc d))
     ∧ ∀ kw, kw ∈ before_bird → ¬ substring (lower kw.1) (lower (nfc d))) →
  guess_spot_title d1 = Some (u"森1") ∧ guess_spot_title d2 = Some (u"森1").
Proof.
  intros Hd. split.
  - destruct (Hd d1) as (Hb & _ & Hn); [by left|].
    by apply guess_spot_title_bird.
  - destruct (Hd d2) as (Hb & _ & Hn); [by right; left|].
    by apply guess_spot_title_bird.
Qed.

Lemma guess_spot_title_bird_and_water_witness :
  @guess_spot_title plain_text (u"水辺の鳥") = Some (u"森1")
  ∧ @guess_spot_title plain_text (u"鳥と水") = Some (u"森1").
Proof.
  apply (@guess_spot_title_bird_and_water plain_text).
  intros d Hd.
  assert (Hcases : d = u"水辺の鳥" ∨ d = u"鳥と水").
  { apply elem_of_cons in Hd as [->|Hd]; [by left|].
    apply elem_of_cons in Hd as [->|Hd]; [by right|].
    by apply elem_of_nil in Hd. }
  destruct Hcases as [-> | ->].
  - split; [apply contains_spec; vm_compute; reflexivity|].
    split; [apply contains_spec; vm_compute; reflexivity|].
    apply (@no_keyword_forallb plain_text). vm_compute; reflexivity.
  - split; [apply contains_spec; vm_compute; reflexivity|].
    split; [apply contains_spec; vm_compute; reflexivity|].
    apply (@no_keyword_forallb plain_text). vm_compute; reflexivity.
Defined.

(** C6 as stated fails: 水車の鳥 and 鳥と水 both contain 鳥 and 水, and the
    first is filed under 水車, whose keyword stands earlier in the table. *)
Lemma guess_spot_title_bird_shadowed :
  (substring (u"鳥") (u"水車の鳥") ∧ substring (u"水") (u"水車の鳥"))
  ∧ (substring (u"鳥") (u"鳥と水") ∧ substring (u"水") (u"鳥と水"))
  ∧ @guess_spot_title plain_text (u"水車の鳥") = Some (u"水車")
  ∧ @guess_spot_title plain_text (u"鳥と水") = Some (u"森1")
  ∧ @guess_spot_title plain_text (u"水車の鳥") ≠ Some (u"森1").
Proof.
  repeat split; try (apply contains_spec; vm_compute; reflexivity);
    try (vm_compute; reflexivity).
  vm_compute. discriminate.
Qed.

(** ** The matcher *)

Lemma span_app cls s t :
  Forall (λ c, cls c = true) s → span cls (s ++ t) = length s + span cls t.
Proof.
  induction 1 as [|c s Hc _ IH]; simpl; [done|]. by rewrite Hc, IH.
Qed.

Lemma span_all cls s : Forall (λ c, cls c = true) s → span cls s = length s.
Proof.
  intros Hs. rewrite <- (app_nil_r s) at 1. rewrite span_app by done.
  simpl. lia.
Qed.

Lemma span_le cls s : span cls s ≤ length s.
Proof. induction s as [|c s IH]; simpl; [done|]. destruct (cls c); simpl; lia. Qed.

Lemma try_down_found {A} (f : nat → option A) lo extra k r :
  lo ≤ k ≤ lo + extra →
  (∀ j, k < j ≤ lo + extra → f j = None) →
  f k = Some r →
  try_down f lo extra = Some r.
Proof.
  revert k. induction extra as [|e IH]; intros k Hk Hnone Hf; simpl.
  - replace (lo + 0) with k by lia. by rewrite Hf.
  - destruct (decide (k = lo + S e)) as [->|Hne]; [by rewrite Hf|].
    rewrite Hnone by lia. apply (IH k); [lia| |done].
    intros j Hj. apply Hnone. lia.
Qed.

(** A greedy repetition settles on the prefix [s] when the rest of the
    pattern matches after [s] and after no longer run. *)
Lemma re_exec_rep cls lo hi pat s t gs r :
  Forall (λ c, cls c = true) s →
  lo ≤ length s →
  from_option (λ h, length s ≤ h) True hi →
  re_exec pat t = Some (gs, r) →
  (∀ k, length s < k ≤ span cls (s ++ t) →
        from_option (λ h, k ≤ h) True hi →
        re_exec pat (drop k (s ++ t)) = None) →
  re_exec (Rep cls lo hi :: pat) (s ++ t) = Some (s :: gs, r).
Proof.
  intros Hs Hlo Hhi Hpat Hlonger. simpl.
  pose proof (span_app cls s t Hs) as Hspan.
  set (avail := match hi with Some h => h `min` _ | None => _ end).
  assert (Havail : length s ≤ avail ≤ span cls (s ++ t)).
  { unfold avail. destruct hi as [h|]; simpl in *; lia. }
  rewrite bool_decide_eq_false_2 by lia.
  apply (try_down_found _ _ _ (length s)); [lia| |].
  - intros j Hj. rewrite Hlonger; [done|lia|].
    unfold avail in *. destruct hi as [h|]; simpl in *; [lia|done].
  - rewrite drop_app_length, Hpat. simpl. by rewrite take_app_length.
Qed.

Lemma re_exec_rep_short cls lo hi pat s :
  span cls s < lo → re_exec (Rep cls lo hi :: pat) s = None.
Proof.
  intros Hshort. simpl. rewrite bool_decide_eq_true_2; [done|].
  destruct hi; lia.
Qed.

Lemma re_exec_lit l pat s : re_exec (Lit l :: pat) (l ++ s) = re_exec pat s.
Proof.
  simpl. rewrite (proj2 (startswith_spec l (l ++ s))) by eauto.
  by rewrite drop_app_length.
Qed.

(** The last group, any run of characters before [$], takes everything up
    to the end, or up to a final newline. *)
Lemma re_exec_rest rest nl :
  Forall (λ c, c ≠ chr_newline) rest →
  nl = [] ∨ nl = [chr_newline] →
  re_exec [Rep dot_any 0 None; Eos] (rest ++ nl) = Some ([rest], nl).
Proof.
  intros Hrest Hnl.
  assert (Hcls : Forall (λ c, dot_any c = true) rest).
  { eapply Forall_impl; [exact Hrest|]. intros c Hc. unfold dot_any, is_char.
    by rewrite bool_decide_eq_false_2. }
  apply re_exec_rep; [done|lia|done| |].
  - by destruct Hnl as [-> | ->].
  - intros k Hk _. rewrite span_app in Hk by done.
    destruct Hnl as [-> | ->]; simpl in Hk; lia.
Qed.

(** An exact repetition [\d{n}] followed by the rest of the pattern. *)
Lemma re_exec_exact cls n pat d t gs r :
  Forall (λ c, cls c = true) d → length d = n →
  re_exec pat t = Some (gs, r) →
  re_exec (Rep cls n (Some n) :: pat) (d ++ t) = Some (d :: gs, r).
Proof.
  intros Hd Hn Hpat. apply re_exec_rep; simpl; [done|lia|lia|done|].
  intros k Hk Hh. lia.
Qed.

Lemma span_stop cls a c b : cls c = false → span cls (a ++ c :: b) ≤ length a.
Proof.
  intros Hc. induction a as [|x a IH]; simpl; [by rewrite Hc|].
  destruct (cls x); lia.
Qed.

(** ** The two grammars *)

Lemma tsukamoto_pattern_match `{Unicode} (who date time rest nl : str) :
  isdecimal chr_underscore = false →
  who ≠ [] → Forall (λ c, not_digit_underscore c = true) who →
  length date = 8 → Forall (λ c, isdecimal c = true) date →
  length time = 6 → Forall (λ c, isdecimal c = true) time →
  Forall (λ c, c ≠ chr_newline) rest → nl = [] ∨ nl = [chr_newline] →
  re_match tsukamoto_pattern (who ++ date ++ u"_" ++ time ++ rest ++ nl)
  = Some [who; date; time; rest].
Proof.
  intros Hus Hne Hwho Hd8 Hdate Ht6 Htime Hrest Hnl.
  unfold re_match, tsukamoto_pattern.
  erewrite re_exec_rep; [reflexivity|done| |done| |].
  - destruct who; [done|simpl; lia].
  - apply re_exec_exact; [done..|]. rewrite re_exec_lit.
    apply re_exec_exact; [done..|]. by apply re_exec_rest.
  - intros k Hk _. apply re_exec_rep_short.
    rewrite span_app in Hk by done.
    change (u"_" ++ ?x) with (chr_underscore :: x) in *.
    assert (Hus' : not_digit_underscore chr_underscore = false) by done.
    pose proof (span_stop not_digit_underscore date chr_underscore
                  (time ++ rest ++ nl) Hus') as Hstop.
    rewrite drop_app_ge by lia.
    rewrite drop_app_le by lia.
    pose proof (span_stop isdecimal (drop (k - length who) date)
                  chr_underscore (time ++ rest ++ nl) Hus) as Hstop'.
    rewrite length_drop in Hstop'. lia.
Qed.

(** C7.  For every stem that follows Grammar B (a speaker run free of
    ASCII digits and underscores, eight digits, an underscore, six digits
    and a remainder), the record returned has exactly the eight digits as
    its date and the six digits as its time, a time that is present and no
    kept id, whatever the remainder is.  The underscore is assumed not to
    be in the class of digits. *)
Theorem parse_tsukamoto_date_time `{Unicode} (who date time rest nl : str) :
  isdecimal chr_underscore = false →
  who ≠ [] → Forall (λ c, not_digit_underscore c = true) who →
  length date = 8 → Forall (λ c, isdecimal c = true) date →
  length time = 6 → Forall (λ c, isdecimal c = true) time →
  Forall (λ c, c ≠ chr_newline) rest → nl = [] ∨ nl = [chr_newline] →
  ∃ descriptor,
    _parse_tsukamoto_style (who ++ date ++ u"_" ++ time ++ rest ++ nl)
    = Some {| speaker := who; date_yyyymmdd := date;
              time_hhmmss := Some time; descriptor := descriptor;
              source_kind := KindB; keep_id := None |}.
Proof.
  intros. unfold _parse_tsukamoto_style.
  rewrite tsukamoto_pattern_match by done. eauto.
Qed.

Lemma parse_tsukamoto_date_time_witness :
  ∃ descriptor,
    @_parse_tsukamoto_style plain_text
      (u"塚本" ++ u"20251012" ++ u"_" ++ u"121402" ++ u"公園内散策_野球" ++ [])
    = Some {| speaker := u"塚本"; date_yyyymmdd := u"20251012";
              time_hhmmss := Some (u"121402"); descriptor := descriptor;
              source_kind := KindB; keep_id := None |}.
Proof.
  apply (@parse_tsukamoto_date_time plain_text (u"塚本") (u"20251012")
           (u"121402") (u"公園内散策_野球") []);
    first [by left | compute_done].
Defined.

Lemma zfill_full width s : length s = width → zfill width s = s.
Proof. intros <-. unfold zfill. by rewrite bool_decide_eq_true_2. Qed.

Lemma suzuki_pattern_match `{Unicode} (who id1 id2 rest nl : str) :
  who ≠ [] → Forall (λ c, not_underscore c = true) who →
  length id1 = 4 → Forall (λ c, isdecimal c = true) id1 →
  length id2 = 3 → Forall (λ c, isdecimal c = true) id2 →
  Forall (λ c, c ≠ chr_newline) rest → nl = [] ∨ nl = [chr_newline] →
  re_match suzuki_pattern (who ++ u"_WAV_" ++ id1 ++ u"_" ++ id2 ++ rest ++ nl)
  = Some [who; id1; id2; rest].
Proof.
  intros Hne Hwho H4 Hid1 H3 Hid2 Hrest Hnl.
  unfold re_match, suzuki_pattern.
  erewrite re_exec_rep; [reflexivity|done| |done| |].
  - destruct who; [done|simpl; lia].
  - rewrite re_exec_lit. apply re_exec_exact; [done..|].
    rewrite re_exec_lit. apply re_exec_exact; [done..|].
    by apply re_exec_rest.
  - intros k Hk _. rewrite span_app in Hk by done.
    change (u"_WAV_" ++ ?x) with (chr_underscore :: (u"WAV_" ++ x)) in Hk.
    simpl in Hk. lia.
Qed.

(** C8.  For every stem that follows Grammar A (an underscore-free speaker
    run, [_WAV_], four digits, an underscore, three digits and a
    remainder): with retention on, the kept id is WAV, the four digits
    zero-padded to four, an underscore and the three digits zero-padded to
    three; with retention off there is no kept id. *)
Theorem parse_suzuki_keep_id `{Unicode} (who id1 id2 rest nl : str)
    (unknown_date : str) (keep : bool) :
  who ≠ [] → Forall (λ c, not_underscore c = true) who →
  length id1 = 4 → Forall (λ c, isdecimal c = true) id1 →
  length id2 = 3 → Forall (λ c, isdecimal c = true) id2 →
  Forall (λ c, c ≠ chr_newline) rest → nl = [] ∨ nl = [chr_newline] →
  ∃ parsed,
    _parse_suzuki_style (who ++ u"_WAV_" ++ id1 ++ u"_" ++ id2 ++ rest ++ nl)
      unknown_date keep = Some parsed
    ∧ keep_id parsed =
        if keep
        then Some (u"WAV" ++ zero_padded 4 id1 ++ u"_" ++ zero_padded 3 id2)
        else None.
Proof.
  intros Hne Hwho H4 Hid1 H3 Hid2 Hrest Hnl. unfold _parse_suzuki_style.
  rewrite suzuki_pattern_match by done. eexists. split; [reflexivity|].
  simpl. destruct keep; [|done].
  rewrite !zfill_full by done. unfold zero_padded.
  by rewrite H4, H3.
Qed.

Lemma parse_suzuki_keep_id_witness :
  ∃ parsed,
    @_parse_suzuki_style plain_text
      (u"鈴木" ++ u"_WAV_" ++ u"0018" ++ u"_" ++ u"001" ++ u"._滝_1" ++ [])
      (u"UnknownDate") true = Some parsed
    ∧ keep_id parsed =
        Some (u"WAV" ++ zero_padded 4 (u"0018") ++ u"_"
              ++ zero_padded 3 (u"001")).
Proof.
  apply (@parse_suzuki_keep_id plain_text (u"鈴木") (u"0018") (u"001")
           (u"._滝_1") [] (u"UnknownDate") true);
    first [by left | compute_done].
Defined.

(** ** Plain text *)

Lemma Forall_by_forallb {A} (f : A → bool) (l : list A) :
  forallb f l = true → Forall (λ x, f x = true) l.
Proof. intros Hall. apply Forall_forall. intros x Hx. rewrite forallb_forall in Hall. apply Hall, list_elem_of_In, Hx. Qed.

Lemma plain_by_forallb s : forallb plain_char s = true → plain s.
Proof. apply Forall_by_forallb. Qed.

Lemma kana_compositions_marks b m c :
  dict_get [b; m] kana_compositions = Some c → plain_char m = false.
Proof.
  assert (Hkeys : Forall (λ kv, ∃ b' m', kv.1 = [b'; m'] ∧ plain_char m' = false)
                    kana_compositions).
  { apply Forall_forall. intros kv Hin.
    assert (Hb : forallb (λ kv : str * str,
                   match kv.1 with
                   | [_; m'] => negb (plain_char m')
                   | _ => false
                   end) kana_compositions = true) by (vm_compute; reflexivity).
    rewrite forallb_forall in Hb. apply list_elem_of_In, Hb in Hin.
    destruct kv as [[|b' [|m' [|? ?]]] v]; try done. simpl in Hin.
    exists b', m'. split; [done|]. by apply negb_true_iff. }
  induction Hkeys as [|[k v] d (b' & m' & Hk & Hm) _ IH]; simpl; [done|].
  simpl in Hk. subst k. case_decide as Heq; [|exact IH].
  intros _. by injection Heq as _ ->.
Qed.

Lemma nfc_kana_cons b m s :
  nfc_kana (b :: m :: s) =
    match dict_get [b; m] kana_compositions with
    | Some (c :: _) => c :: nfc_kana s
    | _ => b :: nfc_kana (m :: s)
    end.
Proof. reflexivity. Qed.

Lemma nfc_kana_plain s : plain s → nfc_kana s = s.
Proof.
  induction 1 as [|b s Hb Hs IH]; [done|].
  destruct s as [|m s']; [done|]. rewrite nfc_kana_cons.
  destruct (dict_get [b; m] kana_compositions) as [c|] eqn:Hget.
  - apply kana_compositions_marks in Hget.
    apply Forall_cons_1 in Hs as [Hm _]. congruence.
  - f_equal. exact IH.
Qed.

Lemma plain_text_agrees : agrees_on_plain_text plain_text.
Proof. split; [exact nfc_kana_plain|]. split; done. Qed.

Lemma plain_app s t : plain s → plain t → plain (s ++ t).
Proof. apply Forall_app_2. Qed.

Lemma plain_take n s : plain s → plain (take n s).
Proof. apply Forall_take. Qed.

Lemma plain_drop n s : plain s → plain (drop n s).
Proof. apply Forall_drop. Qed.

Lemma plain_sub_scan m repl skip s :
  plain repl → plain s → plain (sub_scan m repl skip s).
Proof.
  intros Hrepl Hs. revert skip.
  induction Hs as [|c s Hc Hs IH]; intros skip; simpl; [constructor|].
  destruct skip as [|k]; [|apply IH].
  destruct (m (c :: s)) as [[|k]|].
  - constructor; [done|apply IH].
  - apply plain_app; [done|apply IH].
  - constructor; [done|apply IH].
Qed.

Lemma plain_strip c s : plain s → plain (strip c s).
Proof.
  intros Hs. unfold strip, lstrip.
  apply Forall_reverse, plain_drop, Forall_reverse, plain_drop, Hs.
Qed.

Lemma span_ext c1 c2 s :
  (∀ x, x ∈ s → c1 x = c2 x) → span c1 s = span c2 s.
Proof.
  induction s as [|x s IH]; intros Hagree; simpl; [done|].
  rewrite <- (Hagree x) by left. rewrite IH; [done|].
  intros y Hy. apply Hagree. by right.
Qed.

Lemma try_down_ext {A} (f g : nat → option A) lo extra :
  (∀ k, f k = g k) → try_down f lo extra = try_down g lo extra.
Proof.
  intros Hfg. induction extra as [|e IH]; simpl; rewrite Hfg; [done|].
  by rewrite IH.
Qed.

Lemma try_down_Some {A} (f : nat → option A) lo extra r :
  try_down f lo extra = Some r → ∃ k, f k = Some r.
Proof.
  induction extra as [|e IH]; simpl.
  - destruct (f (lo + 0)) eqn:Hf; [|done]. intros [= ->]. eauto.
  - destruct (f (lo + S e)) eqn:Hf; [intros [= ->]; eauto|exact IH].
Qed.

Lemma atom_agree_drop k s a1 a2 :
  atom_agree s a1 a2 → atom_agree (drop k s) a1 a2.
Proof.
  destruct a1, a2; simpl; try done.
  intros (-> & -> & Hc). repeat split. intros x Hx. apply Hc.
  rewrite <- (take_drop k s). apply elem_of_app. by right.
Qed.

Lemma re_exec_ext pat1 pat2 s :
  Forall2 (atom_agree s) pat1 pat2 → re_exec pat1 s = re_exec pat2 s.
Proof.
  revert pat2 s. induction pat1 as [|a1 pat1 IH]; intros pat2 s Hagree.
  - by apply Forall2_nil_inv_l in Hagree as ->.
  - apply Forall2_cons_inv_l in Hagree as (a2 & pat2' & Ha & Hpat & ->).
    assert (Hdrop : ∀ k, re_exec pat1 (drop k s) = re_exec pat2' (drop k s)).
    { intros k. apply IH. eapply Forall2_impl; [exact Hpat|].
      intros. by apply atom_agree_drop. }
    destruct a1 as [c1 lo1 hi1|l1|], a2 as [c2 lo2 hi2|l2|]; simpl in Ha;
      try done.
    + destruct Ha as (-> & -> & Hc). simpl.
      rewrite (span_ext c1 c2 s Hc). case_bool_decide; [done|].
      apply try_down_ext. intros k. by rewrite Hdrop.
    + subst l2. simpl. destruct (startswith l1 s); [apply Hdrop|done].
    + simpl. destruct (at_end s); [|done]. apply (Hdrop 0).
Qed.

(** The groups of a match are pieces of the subject. *)
Lemma re_exec_plain pat s gs r :
  re_exec pat s = Some (gs, r) → plain s → Forall plain gs ∧ plain r.
Proof.
  revert s gs r. induction pat as [|a pat IH]; intros s gs r; simpl.
  - intros [= <- <-]. by split.
  - destruct a as [cls lo hi|l|].
    + case_bool_decide; [done|]. intros Hex Hs.
      apply try_down_Some in Hex as [k Hk].
      destruct (re_exec pat (drop k s)) as [[gs' r']|] eqn:Hrec; [|done].
      simpl in Hk. injection Hk as <- <-.
      destruct (IH _ _ _ Hrec (plain_drop k s Hs)) as [Hgs Hr].
      split; [|done]. constructor; [by apply plain_take|done].
    + destruct (startswith l s); [|done]. intros Hex Hs.
      by apply (IH _ _ _ Hex), plain_drop.
    + destruct (at_end s); [|done]. apply IH.
Qed.

Ltac solve_plain :=
  repeat first
    [ assumption
    | apply plain_strip
    | apply plain_sub_scan
    | apply plain_app
    | apply plain_take
    | apply plain_drop
    | apply plain_by_forallb; vm_compute; reflexivity ].

Lemma plain_replace old new s : plain new → plain s → plain (replace old new s).
Proof. intros. unfold replace. solve_plain. Qed.

Lemma plain_re_sub pat repl s : plain repl → plain s → plain (re_sub pat repl s).
Proof. intros. unfold re_sub. solve_plain. Qed.

Lemma plain_strip_mp3_token s : plain s → plain (_strip_mp3_token s).
Proof. intros. unfold _strip_mp3_token. apply plain_re_sub; solve_plain. Qed.

Section Transfer.
Context (U : Unicode) (HU : agrees_on_plain_text U).

Lemma nfc_on_plain s : plain s → @nfc U s = s.
Proof. apply HU. Qed.

Lemma lower_on_plain s : plain s → @lower U s = lower_ascii s.
Proof. apply HU. Qed.

Lemma clean_separators_on_plain text :
  plain text →
  @_clean_separators U text = @_clean_separators plain_text text
  ∧ plain (@_clean_separators U text).
Proof.
  intros Htext. unfold _clean_separators, _nfc. simpl nfc.
  rewrite nfc_on_plain, nfc_kana_plain by done. split; [done|].
  apply plain_strip, plain_re_sub; [solve_plain|].
  repeat first [apply plain_replace | apply plain_re_sub]; solve_plain.
Qed.

Lemma pattern_on_plain (pat1 pat2 : list atom) s :
  plain s →
  Forall2 (λ a1 a2, ∀ t, plain t → atom_agree t a1 a2) pat1 pat2 →
  re_match pat1 s = re_match pat2 s.
Proof.
  intros Hs Hpat. unfold re_match. f_equal. apply re_exec_ext.
  eapply Forall2_impl; [exact Hpat|]. intros a1 a2 Ha. by apply Ha.
Qed.

Lemma isdecimal_on_plain lo hi t :
  plain t → atom_agree t (Rep (@isdecimal U) lo hi) (Rep ascii_digit lo hi).
Proof.
  intros Ht. repeat split. intros x Hx. apply HU.
  by apply (proj1 (Forall_forall _ _) Ht).
Qed.

Lemma atom_agree_refl t a : atom_agree t a a.
Proof. by destruct a. Qed.

Lemma parse_tsukamoto_on_plain stem :
  plain stem →
  @_parse_tsukamoto_style U stem = @_parse_tsukamoto_style plain_text stem.
Proof.
  intros Hstem. unfold _parse_tsukamoto_style.
  rewrite (pattern_on_plain (@tsukamoto_pattern U)
             (@tsukamoto_pattern plain_text) stem Hstem).
  2:{ unfold tsukamoto_pattern.
      repeat (apply List.Forall2_cons;
                [intros t Ht;
                 first [by apply isdecimal_on_plain | apply atom_agree_refl]|]).
      apply List.Forall2_nil. }
  unfold re_match.
  destruct (re_exec tsukamoto_pattern stem) as [[gs r]|] eqn:Hex;
    [|reflexivity].
  destruct (re_exec_plain _ _ _ _ Hex Hstem) as [Hgs _].
  cbn [fmap option_fmap option_map fst].
  destruct gs as [|who [|date [|time [|rest [|]]]]]; try reflexivity.
  apply Forall_cons_1 in Hgs as [_ Hgs].
  apply Forall_cons_1 in Hgs as [_ Hgs].
  apply Forall_cons_1 in Hgs as [_ Hgs].
  apply Forall_cons_1 in Hgs as [Hrest _].
  destruct (clean_separators_on_plain (_strip_mp3_token rest)) as [E1 P1];
    [by apply plain_strip_mp3_token|].
  rewrite E1 in P1 |- *.
  match goal with
  | |- context [@_clean_separators U ?x] =>
      destruct (clean_separators_on_plain x) as [E2 _];
        [repeat apply plain_replace; solve_plain|]
  end.
  by rewrite E2.
Qed.

Lemma parse_suzuki_on_plain stem unknown_date keep :
  plain stem →
  @_parse_suzuki_style U stem unknown_date keep
  = @_parse_suzuki_style plain_text stem unknown_date keep.
Proof.
  intros Hstem. unfold _parse_suzuki_style.
  rewrite (pattern_on_plain (@suzuki_pattern U)
             (@suzuki_pattern plain_text) stem Hstem).
  2:{ unfold suzuki_pattern.
      repeat (apply List.Forall2_cons;
                [intros t Ht;
                 first [by apply isdecimal_on_plain | apply atom_agree_refl]|]).
      apply List.Forall2_nil. }
  unfold re_match.
  destruct (re_exec suzuki_pattern stem) as [[gs r]|] eqn:Hex;
    [|reflexivity].
  destruct (re_exec_plain _ _ _ _ Hex Hstem) as [Hgs _].
  cbn [fmap option_fmap option_map fst].
  destruct gs as [|who [|id1 [|id2 [|rest [|]]]]]; try reflexivity.
  apply Forall_cons_1 in Hgs as [_ Hgs].
  apply Forall_cons_1 in Hgs as [_ Hgs].
  apply Forall_cons_1 in Hgs as [_ Hgs].
  apply Forall_cons_1 in Hgs as [Hrest _].
  destruct (clean_separators_on_plain (_strip_mp3_token rest)) as [E1 P1];
    [by apply plain_strip_mp3_token|].
  by rewrite E1.
Qed.

Lemma plain_suffix p : plain (name p) → plain (suffix p).
Proof.
  intros Hp. unfold suffix. destruct (rfind chr_dot (name p)); [|constructor].
  destruct (_ && _); [by apply plain_drop|constructor].
Qed.

Lemma plain_stem p : plain (name p) → plain (stem p).
Proof.
  intros Hp. unfold stem. destruct (rfind chr_dot (name p)); [|done].
  destruct (_ && _); [by apply plain_take|done].
Qed.

(** On a plain file name the parser does not depend on which tables it
    runs with. *)
Lemma parse_audio_name_on_plain filename unknown_date keep :
  plain filename →
  @parse_audio_name U filename unknown_date keep
  = @parse_audio_name plain_text filename unknown_date keep.
Proof.
  intros Hname. unfold parse_audio_name, _nfc. simpl nfc. simpl lower.
  assert (Hsuf : plain (suffix (Path_of_name filename))) by by apply plain_suffix.
  assert (Hstem : plain (stem (Path_of_name filename))) by by apply plain_stem.
  rewrite lower_on_plain, nfc_on_plain, nfc_kana_plain by done.
  destruct (negb _); [done|].
  by rewrite parse_tsukamoto_on_plain, parse_suzuki_on_plain.
Qed.

Lemma guess_spot_title_in_on_plain table d :
  Forall (λ kw, plain kw.1) table → plain d →
  @guess_spot_title_in U table d = @guess_spot_title_in plain_text table d.
Proof.
  intros Htable Hd. induction Htable as [|[kw spot] table Hkw _ IH]; [done|].
  simpl in *. rewrite !lower_on_plain by done. by rewrite IH.
Qed.

Lemma guess_spot_title_on_plain d :
  plain d → @guess_spot_title U d = @guess_spot_title plain_text d.
Proof.
  intros Hd. unfold guess_spot_title, _nfc. simpl nfc.
  rewrite nfc_on_plain, nfc_kana_plain by done.
  apply guess_spot_title_in_on_plain; [|done].
  apply Forall_forall. intros kw Hin. apply plain_by_forallb.
  assert (Hall : forallb (λ kw : str * str, forallb plain_char kw.1)
                   KEYWORD_TO_SPOT_TITLE = true) by (vm_compute; reflexivity).
  rewrite forallb_forall in Hall. by apply Hall, list_elem_of_In.
Qed.

End Transfer.

(** C9.  With tables that behave on plain text as Python's do, parsing
    鈴木_WAV_0018_001._滝_1.mp3 with identifier retention on and the
    placeholder date UnknownDate gives speaker 鈴木, date UnknownDate, kept
    id WAV0018_001 and a descriptor that contains 滝, and the classifier
    files that descriptor under 水郷の滝. *)
Theorem scenario_suzuki_waterfall `{U : Unicode} :
  agrees_on_plain_text U →
  ∃ parsed,
    parse_audio_name (u"鈴木_WAV_0018_001._滝_1.mp3") (u"UnknownDate") true
    = Some parsed
    ∧ speaker parsed = u"鈴木"
    ∧ date_yyyymmdd parsed = u"UnknownDate"
    ∧ keep_id parsed = Some (u"WAV0018_001")
    ∧ substring (u"滝") (descriptor parsed)
    ∧ guess_spot_title (descriptor parsed) = Some (u"水郷の滝").
Proof.
  intros HU.
  exists {| speaker := u"鈴木"; date_yyyymmdd := u"UnknownDate";
            time_hhmmss := None; descriptor := u"滝_1";
            source_kind := KindA; keep_id := Some (u"WAV0018_001") |}.
  split.
  { rewrite (parse_audio_name_on_plain U HU) by solve_plain.
    vm_compute; reflexivity. }
  repeat split.
  - apply contains_spec. vm_compute; reflexivity.
  - simpl descriptor. rewrite (guess_spot_title_on_plain U HU) by solve_plain.
    vm_compute; reflexivity.
Qed.

Lemma scenario_suzuki_waterfall_witness :
  ∃ parsed,
    @parse_audio_name plain_text (u"鈴木_WAV_0018_001._滝_1.mp3")
      (u"UnknownDate") true = Some parsed
    ∧ speaker parsed = u"鈴木"
    ∧ date_yyyymmdd parsed = u"UnknownDate"
    ∧ keep_id parsed = Some (u"WAV0018_001")
    ∧ substring (u"滝") (descriptor parsed)
    ∧ @guess_spot_title plain_text (descriptor parsed) = Some (u"水郷の滝").
Proof. exact (@scenario_suzuki_waterfall plain_text plain_text_agrees). Defined.

(** ** File names *)

Lemma rfind_app c a b :
  rfind c (a ++ b) =
    match rfind c b with
    | Some i => Some (length a + i)
    | None => rfind c a
    end.
Proof.
  induction a as [|x a IH]; simpl.
  - by destruct (rfind c b).
  - rewrite IH. by destruct (rfind c b).
Qed.

Lemma suffix_stem_mp3 d joined :
  joined ≠ [] →
  suffix (mkPath d (joined ++ u".mp3")) = u".mp3"
  ∧ stem (mkPath d (joined ++ u".mp3")) = joined.
Proof.
  intros Hne. unfold suffix, stem. simpl name.
  assert (Hr : rfind chr_dot (joined ++ u".mp3") = Some (length joined)).
  { rewrite rfind_app. change (rfind chr_dot (u".mp3")) with (Some 0).
    cbv beta iota. f_equal. lia. }
  rewrite Hr, length_app.
  change (length (u".mp3")) with 4.
  assert (0 < length joined) by (destruct joined; [done|simpl; lia]).
  rewrite !bool_decide_eq_true_2 by lia. simpl andb.
  by rewrite drop_app_length, take_app_length.
Qed.

Lemma build_new_filename_mp3 `{Unicode} parsed romanize_names :
  ∃ joined,
    joined ≠ [] ∧ build_new_filename parsed romanize_names = joined ++ u".mp3".
Proof.
  unfold build_new_filename. eexists. split; [|reflexivity].
  case_bool_decide as Hj; [|done].
  intros Happ. apply (f_equal length) in Happ.
  rewrite !length_app in Happ. change (length (u"_")) with 1 in Happ.
  simpl in Happ. lia.
Qed.

Lemma with_name_Ok p nm q :
  with_name p nm = Ok q →
  q = mkPath (parent p) nm ∧ valid_name nm = true.
Proof.
  unfold with_name. destruct (negb _ && valid_name nm) eqn:Hv; [|done].
  intros [= <-]. by apply andb_true_iff in Hv as [_ ->].
Qed.

Lemma utf8_string_of_uint d :
  utf8 (NilEmpty.string_of_uint d) = uint_codes d.
Proof. induction d; simpl; [done|..]; by rewrite <- IHd. Qed.

Lemma uint_codes_inj d d' : uint_codes d = uint_codes d' → d = d'.
Proof.
  revert d'. induction d; intros []; simpl; intros [=]; f_equal; auto.
Qed.

Lemma str_of_nat_inj i j : str_of_nat i = str_of_nat j → i = j.
Proof.
  unfold str_of_nat. rewrite !utf8_string_of_uint.
  intros Heq%uint_codes_inj. by apply Unsigned.to_uint_inj.
Qed.

(** ** The rename planner *)

Lemma dup_candidate_inj d base suffix i j :
  dup_candidate d base suffix i = dup_candidate d base suffix j → i = j.
Proof.
  unfold dup_candidate. intros Heq%(f_equal name). cbn [name] in Heq.
  apply app_inv_head, app_inv_head, app_inv_tail in Heq.
  by apply str_of_nat_inj.
Qed.

Lemma blocked_iff fs used p :
  path_exists fs p || bool_decide (p ∈ used) = true ↔ blocked fs used p.
Proof. unfold blocked. by rewrite orb_true_iff, bool_decide_eq_true. Qed.

Lemma dup_loop_Done fs used base suffix fuel dst i dst' :
  dup_loop fs used base suffix fuel dst i = Done dst' →
  ¬ blocked fs used dst'
  ∧ (dst' = dst
     ∨ ∃ j, i ≤ j ∧ dst' = dup_candidate (parent dst) base suffix j).
Proof.
  revert dst i. induction fuel as [|fuel IH]; intros dst i; simpl.
  - destruct (path_exists fs dst || bool_decide (dst ∈ used)) eqn:Hb; [done|].
    intros [= <-]. split; [|by left].
    rewrite <- blocked_iff. by rewrite Hb.
  - destruct (path_exists fs dst || bool_decide (dst ∈ used)) eqn:Hb.
    + destruct (with_name dst _) as [q|] eqn:Hq; [|done].
      apply with_name_Ok in Hq as [-> _]. intros Hloop.
      apply IH in Hloop as [Hfree Hwhich]. split; [done|]. right.
      destruct Hwhich as [->|(j & Hj & ->)]; [exists i|exists j];
        (split; [lia|done]).
    + intros [= <-]. split; [|by left].
      rewrite <- blocked_iff. by rewrite Hb.
Qed.

Lemma dup_loop_OutOfFuel_blocked fs used base suffix fuel dst i :
  dup_loop fs used base suffix fuel dst i = OutOfFuel → blocked fs used dst.
Proof.
  intros Hloop. apply blocked_iff.
  destruct fuel; simpl in Hloop;
    by destruct (path_exists fs dst || bool_decide (dst ∈ used)).
Qed.

Lemma dup_loop_OutOfFuel fs used base suffix fuel dst i :
  dup_loop fs used base suffix fuel dst i = OutOfFuel →
  ∀ j, i ≤ j < i + fuel →
       blocked fs used (dup_candidate (parent dst) base suffix j).
Proof.
  revert dst i. induction fuel as [|fuel IH]; intros dst i; simpl.
  - intros _ j Hj. lia.
  - destruct (path_exists fs dst || bool_decide (dst ∈ used)) eqn:Hb; [|done].
    destruct (with_name dst _) as [q|] eqn:Hq; [|done].
    apply with_name_Ok in Hq as [-> _]. intros Hloop j Hj.
    destruct (decide (j = i)) as [->|Hne].
    + by apply dup_loop_OutOfFuel_blocked in Hloop.
    + apply (IH _ _ Hloop j). lia.
Qed.

(** More candidates than there are blocked paths cannot all be blocked. *)
Lemma blocked_bound fs used d base suffix n :
  (∀ j, 1 ≤ j < 1 + n → blocked fs used (dup_candidate d base suffix j)) →
  n ≤ size fs + size used.
Proof.
  intros Hall.
  set (cands := dup_candidate d base suffix <$> seq 1 n).
  assert (Hnodup : NoDup cands).
  { apply NoDup_fmap_2; [|apply NoDup_seq].
    intros i j. apply dup_candidate_inj. }
  assert (Hsub : (list_to_set cands : gset Path) ⊆ dom fs ∪ used).
  { intros p Hp. apply elem_of_list_to_set in Hp.
    apply list_elem_of_fmap in Hp as (j & -> & Hj). apply elem_of_seq in Hj as [Hj1 Hj2].
    destruct (Hall j (conj Hj1 Hj2)) as [Hex|Hused];
      [|by apply elem_of_union_r].
    apply elem_of_union_l, elem_of_dom. unfold path_exists in Hex.
    destruct (fs !! _); [eauto|done]. }
  apply subseteq_size in Hsub.
  rewrite size_list_to_set in Hsub; [|done].
  unfold cands in Hsub. rewrite length_fmap, length_seq in Hsub.
  pose proof (size_union_alt (dom fs) used) as Hu.
  pose proof (subseteq_size (used ∖ dom fs) used) as Hd.
  rewrite size_dom in Hu. etrans; [exact Hsub|]. rewrite Hu.
  apply Nat.add_le_mono_l. apply Hd. by apply subseteq_difference_l.
Qed.

Lemma dup_loop_enough_fuel fs used base suffix dst :
  dup_loop fs used base suffix (S (size fs + size used)) dst 1 ≠ OutOfFuel.
Proof.
  intros Hout.
  pose proof (dup_loop_OutOfFuel _ _ _ _ _ _ _ Hout) as Hall.
  apply blocked_bound in Hall. lia.
Qed.

Lemma blocked_mono fs used used' p :
  used ⊆ used' → blocked fs used p → blocked fs used' p.
Proof. intros Hsub [Hex|Hin]; [by left|right; by apply Hsub]. Qed.

Lemma resolve_items_Done fs items used resolved out :
  resolve_items fs items used resolved = Done out →
  ∃ new,
    out = resolved ++ new
    ∧ Forall2 resolution_of items new
    ∧ Forall (λ it, ¬ blocked fs used (dst it)) new
    ∧ NoDup (dst <$> new).
Proof.
  revert used resolved.
  induction items as [|item items IH]; intros used resolved;
    cbn [resolve_items].
  - intros [= <-]. exists []. rewrite app_nil_r.
    repeat split; constructor.
  - destruct (dup_loop fs used _ _ _ _ _) as [d| |] eqn:Hloop; [|done..].
    apply dup_loop_Done in Hloop as [Hfree Hwhich]. intros Hres.
    apply IH in Hres as (new & -> & Hnew & Hfree' & Hnodup).
    exists (mkItem (src item) d :: new). split; [by rewrite <- app_assoc|].
    split; [|split].
    + constructor; [|done]. split; [done|]. simpl.
      destruct Hwhich as [->|(j & _ & ->)]; eauto.
    + constructor; [done|]. eapply Forall_impl; [exact Hfree'|].
      intros it Hit Hb. apply Hit. eapply blocked_mono; [|exact Hb].
      apply union_subseteq_r.
    + simpl. apply NoDup_cons. split; [|done].
      intros (it & Hd & Hin)%list_elem_of_fmap.
      apply (proj1 (Forall_forall _ _) Hfree' it Hin).
      right. rewrite <- Hd. by apply elem_of_union_l, elem_of_singleton.
Qed.

Lemma resolve_items_enough_fuel fs items used resolved :
  resolve_items fs items used resolved ≠ OutOfFuel.
Proof.
  revert used resolved.
  induction items as [|item items IH]; intros used resolved;
    cbn [resolve_items]; [done|].
  destruct (dup_loop fs used _ _ _ _ _) as [d| |] eqn:Hloop;
    [apply IH|done|].
  by apply dup_loop_enough_fuel in Hloop.
Qed.

Section Planner.
Context `{Unicode}.
Context (fs : files) (targets : gset str) (romanize_names : bool)
  (unknown_date : str) (keep_suzuki_id : bool).

Lemma collect_items_Ok entries items0 items :
  collect_items fs targets romanize_names unknown_date keep_suzuki_id
    entries items0 = Ok items →
  ∃ new,
    items = items0 ++ new
    ∧ Forall (λ it, src it ∈ entries
                    ∧ candidate fs romanize_names unknown_date
                        keep_suzuki_id it) new.
Proof.
  revert items0. induction entries as [|entry entries IH]; intros items0.
  - intros [= <-]. exists []. by rewrite app_nil_r.
  - assert (Hskip : ∀ items1,
      collect_items fs targets romanize_names unknown_date keep_suzuki_id
        entries items1 = Ok items →
      ∃ new,
        items = items1 ++ new
        ∧ Forall (λ it, src it ∈ entry :: entries
                        ∧ candidate fs romanize_names unknown_date
                            keep_suzuki_id it) new).
    { intros items1 (new & -> & Hnew)%IH. exists new. split; [done|].
      eapply Forall_impl; [exact Hnew|]. intros it [Hin Hc].
      split; [by right|done]. }
    cbn [collect_items].
    destruct (is_file fs entry) eqn:Hfile; cbn [negb]; [|apply Hskip].
    destruct (bool_decide (lower (suffix entry) = u".mp3")); cbn [negb];
      [|apply Hskip].
    destruct (re_match _ _) as [[|who [|? ?]]|]; try apply Hskip.
    destruct (bool_decide (who ∈ targets)); cbn [negb]; [|apply Hskip].
    destruct (parse_audio_name _ _ _) as [parsed|] eqn:Hparse; [|apply Hskip].
    destruct (with_name _ _) as [d|] eqn:Hwith; [|done].
    apply with_name_Ok in Hwith as [-> _].
    intros (new & -> & Hnew)%Hskip.
    exists (mkItem entry (mkPath (parent entry)
                            (build_new_filename parsed romanize_names))
            :: new).
    split; [by rewrite <- app_assoc|]. constructor; [|done].
    split; [by left|]. split; [done|]. by exists parsed.
Qed.

End Planner.

Section PlanRenames.
Context `{Unicode}.
Context (fs : files) (audio_dir : list str) (targets : gset str)
  (romanize_names : bool) (unknown_date : str) (keep_suzuki_id : bool).

Lemma plan_renames_Done plan :
  plan_renames fs audio_dir targets romanize_names unknown_date
    keep_suzuki_id = Done plan →
  ∃ items resolved,
    Forall (λ it, src it ∈ iterdir fs audio_dir
                  ∧ candidate fs romanize_names unknown_date
                      keep_suzuki_id it) items
    ∧ Forall2 resolution_of items resolved
    ∧ Forall (λ it, path_exists fs (dst it) = false) resolved
    ∧ NoDup (dst <$> resolved)
    ∧ plan = filter (λ it, name (src it) ≠ name (dst it)) resolved.
Proof.
  unfold plan_renames.
  destruct (collect_items _ _ _ _ _ _ _) as [items|] eqn:Hcollect; [|done].
  destruct (resolve_items _ _ _ _) as [resolved| |] eqn:Hresolve; [|done..].
  intros [= <-].
  apply collect_items_Ok in Hcollect as (items' & -> & Hitems).
  apply resolve_items_Done in Hresolve as (new & -> & Hnew & Hfree & Hnodup).
  exists items', new. simpl. split_and!; try done.
  - eapply Forall_impl; [exact Hitems|]. intros it [Hin Hc]. split; [|done].
    unfold sorted in Hin. by rewrite merge_sort_Permutation in Hin.
  - eapply Forall_impl; [exact Hfree|]. intros it Hit.
    destruct (path_exists fs (dst it)) eqn:Hex; [|done].
    destruct Hit. by left.
Qed.

Lemma plan_renames_enough_fuel :
  plan_renames fs audio_dir targets romanize_names unknown_date
    keep_suzuki_id ≠ OutOfFuel.
Proof.
  unfold plan_renames.
  destruct (collect_items _ _ _ _ _ _ _) as [items|]; [|done].
  pose proof (resolve_items_enough_fuel fs items ∅ []) as Hfuel.
  by destruct (resolve_items _ _ _ _).
Qed.

Lemma iterdir_parent p : p ∈ iterdir fs audio_dir → parent p = audio_dir.
Proof. unfold iterdir. by intros [? _]%list_elem_of_filter. Qed.

(** Where the destination of a resolved item lies and how it is named. *)
Lemma resolved_destination item out :
  candidate fs romanize_names unknown_date keep_suzuki_id item →
  resolution_of item out →
  parent (dst out) = parent (src out)
  ∧ ∃ b, b ≠ [] ∧ name (dst out) = b ++ u".mp3".
Proof.
  intros (_ & parsed & _ & Hdst) [Hsrc Hout]. rewrite Hsrc.
  destruct (build_new_filename_mp3 parsed romanize_names)
    as (joined & Hne & Hname).
  rewrite Hname in Hdst.
  destruct (suffix_stem_mp3 (parent (src item)) joined Hne) as [Hsuf Hstem].
  destruct Hout as [-> | [i ->]]; rewrite Hdst; simpl.
  - split; [done|]. by exists joined.
  - rewrite Hsuf, Hstem. split; [done|].
    exists (joined ++ u"_dup" ++ str_of_nat i).
    rewrite <- !app_assoc. split; [|done].
    intros Happ. by destruct joined.
Qed.

(** C10.  Every item of a plan made by the rename planner has its
    destination in the directory of its source, which is the input
    directory, and a destination name that ends in the extension [.mp3]. *)
Theorem plan_renames_stays_in_directory plan it :
  plan_renames fs audio_dir targets romanize_names unknown_date
    keep_suzuki_id = Done plan →
  it ∈ plan →
  parent (src it) = audio_dir
  ∧ parent (dst it) = parent (src it)
  ∧ (∃ b, name (dst it) = b ++ u".mp3")
  ∧ suffix (dst it) = u".mp3".
Proof.
  intros (items & resolved & Hitems & Hres & _ & _ & ->)%plan_renames_Done.
  intros [_ Hin]%list_elem_of_filter.
  apply list_elem_of_lookup in Hin as [k Hk].
  destruct (Forall2_lookup_r _ _ _ _ _ Hres Hk) as (item & Hitem & Hrel).
  destruct (proj1 (Forall_forall _ _) Hitems item) as [Hdir Hcand].
  { apply list_elem_of_lookup. eauto. }
  destruct (resolved_destination item it Hcand Hrel) as (Hpar & b & Hb & Hname).
  destruct Hrel as [Hsrc _]. rewrite Hsrc. split; [by apply iterdir_parent|].
  rewrite <- Hsrc. split; [done|]. split; [eauto|].
  destruct (dst it) as [d nm]. simpl in Hname. subst nm.
  by apply suffix_stem_mp3.
Qed.

(** C3.  In every plan made by the rename planner no two items have the
    same destination, and no destination is the path of a file that
    exists when the plan is made and is not the source of an item of the
    plan; in fact no destination exists at all at that time. *)
Theorem plan_renames_collision_free plan :
  plan_renames fs audio_dir targets romanize_names unknown_date
    keep_suzuki_id = Done plan →
  NoDup (dst <$> plan)
  ∧ (∀ it p, it ∈ plan → path_exists fs p = true → p ∉ src <$> plan →
             dst it ≠ p)
  ∧ (∀ it, it ∈ plan → path_exists fs (dst it) = false).
Proof.
  intros (items & resolved & _ & _ & Hfree & Hnodup & ->)%plan_renames_Done.
  assert (Hall : ∀ it, it ∈ filter (λ it, name (src it) ≠ name (dst it))
                          resolved → path_exists fs (dst it) = false).
  { intros it [_ Hin]%list_elem_of_filter.
    by apply (proj1 (Forall_forall _ _) Hfree). }
  split; [|split; [|done]].
  - eapply sublist_NoDup; [exact Hnodup|].
    apply fmap_sublist, sublist_filter.
  - intros it p Hin Hex _ <-. apply Hall in Hin. congruence.
Qed.

Lemma filter_all {A} (P : A → Prop) `{∀ x, Decision (P x)} (l : list A) :
  Forall P l → filter P l = l.
Proof.
  induction 1 as [|x l Hx _ IH]; [done|].
  rewrite filter_cons, decide_True by done. by rewrite IH.
Qed.

Lemma is_file_exists p : is_file fs p = true → path_exists fs p = true.
Proof. unfold is_file, path_exists. by destruct (fs !! p) as [[]|]. Qed.

(** The filter at the end of [plan_renames] never drops an item: a source
    exists, so the loop has moved the destination away from it. *)
Lemma plan_renames_keeps_every_candidate plan :
  plan_renames fs audio_dir targets romanize_names unknown_date
    keep_suzuki_id = Done plan →
  ∃ items,
    Forall (λ it, src it ∈ iterdir fs audio_dir
                  ∧ candidate fs romanize_names unknown_date
                      keep_suzuki_id it) items
    ∧ Forall2 resolution_of items plan.
Proof.
  intros (items & resolved & Hitems & Hres & Hfree & _ & ->)%plan_renames_Done.
  exists items. split; [done|].
  rewrite filter_all; [done|].
  apply Forall_forall. intros out Hout.
  apply list_elem_of_lookup in Hout as [k Hk].
  destruct (Forall2_lookup_r _ _ _ _ _ Hres Hk) as (item & Hitem & Hrel).
  destruct (proj1 (Forall_forall _ _) Hitems item) as [_ Hcand].
  { apply list_elem_of_lookup. eauto. }
  destruct (resolved_destination item out Hcand Hrel) as (Hpar & _).
  pose proof (proj1 (Forall_forall _ _) Hfree out) as Hgone.
  rewrite list_elem_of_lookup in Hgone. specialize (Hgone (ex_intro _ k Hk)).
  destruct Hcand as [Hfile _]. destruct Hrel as [Hsrc _].
  rewrite <- Hsrc in Hfile. apply is_file_exists in Hfile.
  intros Hname. destruct (src out) as [d1 n1], (dst out) as [d2 n2].
  simpl in *. subst. congruence.
Qed.

End PlanRenames.

Lemma plan_renames_stays_in_directory_witness :
  parent (src (mkItem (mkPath sample_dir (u"鈴木_WAV_0018_001._滝_1.mp3"))
                 (mkPath sample_dir (u"鈴木_UnknownDate_WAV0018_001_滝_1.mp3"))))
  = sample_dir
  ∧ parent (dst (mkItem (mkPath sample_dir (u"鈴木_WAV_0018_001._滝_1.mp3"))
                   (mkPath sample_dir (u"鈴木_UnknownDate_WAV0018_001_滝_1.mp3"))))
    = parent (src (mkItem (mkPath sample_dir (u"鈴木_WAV_0018_001._滝_1.mp3"))
                     (mkPath sample_dir (u"鈴木_UnknownDate_WAV0018_001_滝_1.mp3"))))
  ∧ (∃ b, name (dst (mkItem (mkPath sample_dir (u"鈴木_WAV_0018_001._滝_1.mp3"))
                     (mkPath sample_dir (u"鈴木_UnknownDate_WAV0018_001_滝_1.mp3"))))
          = b ++ u".mp3")
  ∧ suffix (dst (mkItem (mkPath sample_dir (u"鈴木_WAV_0018_001._滝_1.mp3"))
                   (mkPath sample_dir (u"鈴木_UnknownDate_WAV0018_001_滝_1.mp3"))))
    = u".mp3".
Proof.
  apply (@plan_renames_stays_in_directory plain_text sample_fs sample_dir
           sample_targets false (u"UnknownDate") true sample_plan).
  - vm_compute; reflexivity.
  - unfold sample_plan. apply list_elem_of_further, list_elem_of_here.
Defined.

Lemma plan_renames_collision_free_witness :
  NoDup (dst <$> sample_plan)
  ∧ (∀ it p, it ∈ sample_plan → path_exists sample_fs p = true →
             p ∉ src <$> sample_plan → dst it ≠ p)
  ∧ (∀ it, it ∈ sample_plan → path_exists sample_fs (dst it) = false).
Proof.
  apply (@plan_renames_collision_free plain_text sample_fs sample_dir
           sample_targets false (u"UnknownDate") true sample_plan).
  vm_compute; reflexivity.
Defined.

(** C2 fails on the code.  With the placeholder date [WAV_0018_001] and ids
    not kept, the builder gives 鈴木_WAV_0018_001_滝.mp3 the name it already
    has; the file is in the plan all the same, to be renamed to
    鈴木_WAV_0018_001_滝_dup1.mp3, because the loop that resolves
    collisions finds the file itself at the destination. *)
Lemma plan_renames_renames_settled_file :
  (∃ parsed,
     @parse_audio_name plain_text (u"鈴木_WAV_0018_001_滝.mp3")
       (u"WAV_0018_001") false = Some parsed
     ∧ @build_new_filename plain_text parsed false
       = u"鈴木_WAV_0018_001_滝.mp3")
  ∧ @plan_renames plain_text settled_fs sample_dir {[ u"鈴木" ]} false
      (u"WAV_0018_001") false
    = Done [mkItem (mkPath sample_dir (u"鈴木_WAV_0018_001_滝.mp3"))
              (mkPath sample_dir (u"鈴木_WAV_0018_001_滝_dup1.mp3"))].
Proof.
  split; [|vm_compute; reflexivity].
  exists {| speaker := u"鈴木"; date_yyyymmdd := u"WAV_0018_001";
            time_hhmmss := None; descriptor := u"滝";
            source_kind := KindA; keep_id := None |}.
  split; vm_compute; reflexivity.
Qed.

(** ** Dictionaries *)

Section Dict.
Context {K V : Type} `{EqDecision K}.
Implicit Types (d : dict K V) (k : K) (v : V).

Lemma dict_get_elem k v d : dict_get k d = Some v → (k, v) ∈ d.
Proof.
  induction d as [|[k' v'] d IH]; simpl; [done|].
  case_decide as Hk; [intros [= ->]; subst; left|right; auto].
Qed.

Lemma dict_get_None k d : dict_get k d = None ↔ k ∉ d.*1.
Proof.
  induction d as [|[k' v'] d IH]; cbn [dict_get].
  - split; [intros _ Hin; by apply elem_of_nil in Hin|done].
  - rewrite fmap_cons, not_elem_of_cons. cbn [fst]. case_decide as Hk.
    + split; [done|]. intros [Hne _]. by destruct Hne.
    + rewrite IH. split; [|by intros [_ ?]].
      intros Hin. split; [|done]. by intros ->.
Qed.

Lemma dict_elem_get k v d : NoDup d.*1 → (k, v) ∈ d → dict_get k d = Some v.
Proof.
  induction d as [|[k' v'] d IH]; cbn [dict_get];
    [by intros _ ?%elem_of_nil|].
  rewrite fmap_cons. cbn [fst].
  intros [Hk' Hd]%NoDup_cons [[= -> ->]|Hin]%elem_of_cons.
  - by rewrite decide_True.
  - rewrite decide_False; [auto|]. intros ->. apply Hk'.
    apply list_elem_of_fmap. by exists (k, v).
Qed.

Lemma dict_alter_keys (f : V → V) k d : (dict_alter f k d).*1 = d.*1.
Proof.
  induction d as [|[k' v'] d IH]; cbn [dict_alter]; [done|].
  case_decide; rewrite !fmap_cons; [done|]. by rewrite IH.
Qed.

Lemma dict_get_alter (f : V → V) k k' d :
  dict_get k' (dict_alter f k d) =
    if decide (k = k') then f <$> dict_get k' d else dict_get k' d.
Proof.
  induction d as [|[k0 v0] d IH]; cbn [dict_get dict_alter];
    [by case_decide|].
  destruct (decide (k0 = k)) as [->|Hk0]; cbn [dict_get].
  - destruct (decide (k = k')) as [->|Hk]; [done|done].
  - rewrite IH. destruct (decide (k0 = k')) as [->|Hk']; [|done].
    by rewrite decide_False.
Qed.

Lemma dict_get_set k k' v d :
  dict_get k' (dict_set k v d) =
    if decide (k = k') then Some v else dict_get k' d.
Proof.
  induction d as [|[k0 v0] d IH]; cbn [dict_get dict_set].
  - by destruct (decide (k = k')).
  - destruct (decide (k0 = k)) as [->|Hk0]; cbn [dict_get].
    + by destruct (decide (k = k')).
    + rewrite IH. destruct (decide (k0 = k')) as [->|Hk']; [|done].
      by rewrite decide_False.
Qed.

Lemma dict_set_keys k v d :
  (dict_set k v d).*1 = if decide (k ∈ d.*1) then d.*1 else d.*1 ++ [k].
Proof.
  induction d as [|[k0 v0] d IH]; cbn [dict_set].
  - rewrite decide_False; [done|]. by intros ?%elem_of_nil.
  - destruct (decide (k0 = k)) as [->|Hk0]; rewrite !fmap_cons; cbn [fst].
    + rewrite decide_True; [done|]. by left.
    + rewrite IH. destruct (decide (k ∈ d.*1)) as [Hin|Hin].
      * rewrite decide_True; [done|]. by right.
      * rewrite decide_False; [done|]. rewrite not_elem_of_cons.
        split; [|done]. by intros ->.
Qed.

Lemma dict_set_NoDup k v d : NoDup d.*1 → NoDup (dict_set k v d).*1.
Proof.
  intros Hd. rewrite dict_set_keys. case_decide as Hin; [done|].
  apply NoDup_app. split; [done|]. split; [|apply NoDup_singleton].
  intros x Hx ->%list_elem_of_singleton. done.
Qed.

End Dict.

(** ** The title dictionary *)

Lemma title_index_NoDup spots i d :
  NoDup d.*1 → NoDup (title_index spots i d).*1.
Proof.
  revert i d. induction spots as [|s spots IH]; intros i d Hd; simpl; [done|].
  by apply IH, dict_set_NoDup.
Qed.

Lemma title_index_lookup spots i d t j :
  dict_get t (title_index spots i d) = Some j →
  (∃ s, spots !! (j - i) = Some s ∧ title_of s = t ∧ i ≤ j)
  ∨ dict_get t d = Some j.
Proof.
  revert i d. induction spots as [|s spots IH]; intros i d; simpl; [auto|].
  intros [(s' & Hs' & Ht & Hle)|Hd]%IH.
  - left. exists s'. replace (j - i) with (S (j - S i)) by lia.
    split; [done|]. split; [done|lia].
  - rewrite dict_get_set in Hd. case_decide as Ht; [|auto].
    injection Hd as <-. left. exists s. rewrite Nat.sub_diag. done.
Qed.

Lemma title_to_spot_lookup spots t j :
  dict_get t (title_to_spot spots) = Some j →
  ∃ s, spots !! j = Some s ∧ title_of s = t.
Proof.
  intros [(s & Hs & Ht & _)|Hd]%title_index_lookup; [|done].
  rewrite Nat.sub_0_r in Hs. eauto.
Qed.

Lemma title_to_spot_NoDup spots : NoDup (title_to_spot spots).*1.
Proof. apply title_index_NoDup. constructor. Qed.


(** ** The assignment planners *)

Lemma foldl_omap {A B C} (g : B → option C) (step : A → C → A) st l :
  foldl (λ st x, match g x with Some c => step st c | None => st end) st l
  = foldl step st (omap g l).
Proof.
  revert st. induction l as [|x l IH]; intros st; simpl; [done|].
  rewrite IH. by destruct (g x).
Qed.

Lemma foldl_ext_eq {A B} (f g : A → B → A) st l :
  (∀ st x, f st x = g st x) → foldl f st l = foldl g st l.
Proof.
  intros Hfg. revert st. induction l as [|x l IH]; intros st; simpl; [done|].
  by rewrite Hfg, IH.
Qed.

Section Planners.
Context `{Unicode}.
Context (spots : list Spot) (unknown_date : str)
  (keep_suzuki_id romanize_names : bool) (targets : gset str).

Lemma plan_from_rename_plan_assign_all rename_plan :
  plan_spots_additions_from_rename_plan spots rename_plan unknown_date
    keep_suzuki_id romanize_names targets
  = let st := assign_all spots romanize_names
                (omap (classify_item unknown_date keep_suzuki_id targets)
                   rename_plan)
                (no_additions spots, []) in
    (prune st.1, st.2).
Proof.
  unfold plan_spots_additions_from_rename_plan, assign_all.
  rewrite <- foldl_omap.
  lazymatch goal with
  | |- (let '(_, _) := foldl ?f0 ?st0 ?l0 in _) = _ =>
      rewrite (foldl_ext_eq f0
                 (λ st x,
                    match classify_item unknown_date keep_suzuki_id targets x
                    with
                    | Some c =>
                        assign_track spots (title_to_spot spots)
                          romanize_names c.1 c.2 st
                    | None => st
                    end) st0 l0)
  end.
  - by destruct (foldl _ _ _).
  - intros st it. unfold classify_item.
    destruct (parse_audio_name _ _ _); [|done]. by destruct (negb _).
Qed.

Lemma plan_spots_additions_assign_all audio_files audio_dir :
  plan_spots_additions spots audio_files audio_dir unknown_date
    keep_suzuki_id romanize_names targets
  = let st := assign_all spots romanize_names
                (omap (classify_file unknown_date keep_suzuki_id targets)
                   (sorted audio_files))
                (no_additions spots, []) in
    (prune st.1, st.2).
Proof.
  unfold plan_spots_additions, assign_all.
  rewrite <- foldl_omap.
  lazymatch goal with
  | |- (let '(_, _) := foldl ?f0 ?st0 ?l0 in _) = _ =>
      rewrite (foldl_ext_eq f0
                 (λ st x,
                    match classify_file unknown_date keep_suzuki_id targets x
                    with
                    | Some c =>
                        assign_track spots (title_to_spot spots)
                          romanize_names c.1 c.2 st
                    | None => st
                    end) st0 l0)
  end.
  - by destruct (foldl _ _ _).
  - intros st f. unfold classify_file.
    destruct (negb (bool_decide (lower _ = _))); [done|].
    destruct (re_match _ _) as [[|who [|? ?]]|]; try done.
    destruct (negb _); [done|]. by destruct (parse_audio_name _ _ _).
Qed.

End Planners.

Section AssignAll.
Context `{Unicode}.
Context (spots : list Spot) (romanize_names : bool).

Local Abbreviation t2s := (title_to_spot spots).
Local Abbreviation rel f := (u"audio/" ++ name f).

(** One round of a planner loop, by cases. *)
Lemma assign_track_cases parsed f a um :
  assign_track spots t2s romanize_names parsed f (a, um) =
    match guess_spot_title (descriptor parsed) with
    | Some title =>
        if bool_decide (title = []) then (a, um ++ [f])
        else
          match dict_get title t2s with
          | None => (a, um ++ [f])
          | Some i =>
              if in_playlist spots i (rel f) then (a, um)
              else
                (dict_alter (λ l, l ++ [track_for romanize_names parsed f])
                   title a, um)
          end
    | None => (a, um ++ [f])
    end.
Proof.
  unfold assign_track, in_playlist, track_for.
  by destruct (guess_spot_title (descriptor parsed)) as [[|x title]|].
Qed.


Lemma assign_all_snoc cands c st :
  assign_all spots romanize_names (cands ++ [c]) st
  = assign_track spots t2s romanize_names c.1 c.2
      (assign_all spots romanize_names cands st).
Proof. unfold assign_all. by rewrite foldl_app. Qed.

Lemma assign_track_keys parsed f st :
  (assign_track spots t2s romanize_names parsed f st).1.*1 = st.1.*1.
Proof.
  destruct st as [a um]. rewrite assign_track_cases.
  destruct (guess_spot_title _) as [title|]; [|done].
  case_bool_decide; [done|]. destruct (dict_get title t2s) as [i|]; [|done].
  destruct (in_playlist _ _ _); [done|]. apply dict_alter_keys.
Qed.

Lemma assign_all_keys cands st :
  (assign_all spots romanize_names cands st).1.*1 = st.1.*1.
Proof.
  induction cands as [|c cands IH] using rev_ind; [done|].
  by rewrite assign_all_snoc, assign_track_keys.
Qed.


Lemma no_additions_keys : (no_additions spots).*1 = t2s.*1.
Proof.
  unfold no_additions. rewrite <- list_fmap_compose.
  by apply list_fmap_ext.
Qed.

Lemma dict_get_no_additions title tracks :
  dict_get title (no_additions spots) = Some tracks → tracks = [].
Proof.
  unfold no_additions. induction t2s as [|[k v] d IH]; simpl; [done|].
  case_decide; [by intros [= <-]|done].
Qed.

(** Every planned track comes from a candidate that was classified under
    the track's title and whose file the playlist of that spot did not
    contain. *)
Lemma assign_all_sound cands um title tracks track :
  dict_get title
    (assign_all spots romanize_names cands (no_additions spots, um)).1
  = Some tracks →
  track ∈ tracks →
  ∃ c i,
    c ∈ cands
    ∧ guess_spot_title (descriptor c.1) = Some title
    ∧ title ≠ []
    ∧ dict_get title t2s = Some i
    ∧ in_playlist spots i (rel c.2) = false
    ∧ track = track_for romanize_names c.1 c.2.
Proof.
  revert tracks. induction cands as [|c cands IH] using rev_ind;
    intros tracks Hget Hin.
  - apply dict_get_no_additions in Hget as ->. by apply elem_of_nil in Hin.
  - assert (Hold : ∀ tracks', dict_get title
        (assign_all spots romanize_names cands (no_additions spots, um)).1
        = Some tracks' → track ∈ tracks' →
      ∃ c0 i, c0 ∈ cands ++ [c]
        ∧ guess_spot_title (descriptor c0.1) = Some title ∧ title ≠ []
        ∧ dict_get title t2s = Some i
        ∧ in_playlist spots i (rel c0.2) = false
        ∧ track = track_for romanize_names c0.1 c0.2).
    { intros tracks' Hget' Hin'.
      destruct (IH tracks' Hget' Hin') as (c0 & i & Hc0 & Hrest).
      exists c0, i. split; [|done]. apply elem_of_app. by left. }
    rewrite assign_all_snoc in Hget.
    destruct (assign_all spots romanize_names cands _) as [a um'].
    rewrite assign_track_cases in Hget. cbn [fst] in Hold.
    destruct (guess_spot_title (descriptor c.1)) as [title'|] eqn:Hguess;
      [|eauto].
    case_bool_decide as Hne; [eauto|].
    destruct (dict_get title' t2s) as [i|] eqn:Hi; [|eauto].
    destruct (in_playlist spots i (rel c.2)) eqn:Hpl; [eauto|].
    cbn [fst] in Hget. rewrite dict_get_alter in Hget.
    case_decide as Ht; [subst title'|eauto].
    destruct (dict_get title a) as [old|] eqn:Hold'; [|done].
    injection Hget as <-.
    apply elem_of_app in Hin as [Hin|Hin%list_elem_of_singleton]; [eauto|].
    exists c, i. split; [apply elem_of_app; right; by left|done].
Qed.

Lemma assign_all_unmapped cands a p :
  p ∈ (assign_all spots romanize_names cands (a, [])).2 →
  ∃ c, c ∈ cands ∧ p = c.2.
Proof.
  induction cands as [|c cands IH] using rev_ind.
  - by intros ?%elem_of_nil.
  - assert (Hold : p ∈ (assign_all spots romanize_names cands (a, [])).2 →
                   ∃ c0, c0 ∈ cands ++ [c] ∧ p = c0.2).
    { intros (c0 & Hc0 & ->)%IH. exists c0. split; [|done].
      apply elem_of_app. by left. }
    assert (Hnew : p ∈ (assign_all spots romanize_names cands (a, [])).2
                       ++ [c.2] →
                   ∃ c0, c0 ∈ cands ++ [c] ∧ p = c0.2).
    { intros [Hin|Hin%list_elem_of_singleton]%elem_of_app; [auto|].
      exists c. split; [|done]. apply elem_of_app. right. by left. }
    rewrite assign_all_snoc.
    destruct (assign_all spots romanize_names cands _) as [a' um'].
    rewrite assign_track_cases. cbn [snd] in *.
    destruct (guess_spot_title _) as [title|]; [|done].
    case_bool_decide; [done|]. destruct (dict_get title t2s); [|done].
    by destruct (in_playlist _ _ _).
Qed.


End AssignAll.

Lemma prune_elem (additions : dict str (list Track)) title tracks :
  (title, tracks) ∈ prune additions ↔ (title, tracks) ∈ additions ∧ tracks ≠ [].
Proof.
  unfold prune. rewrite list_elem_of_filter. cbn [snd].
  split; intros [? ?]; by split.
Qed.

Lemma assign_all_NoDup `{Unicode} spots romanize_names cands um :
  NoDup (assign_all spots romanize_names cands (no_additions spots, um)).1.*1.
Proof.
  rewrite assign_all_keys. cbn [fst]. rewrite no_additions_keys.
  apply title_to_spot_NoDup.
Qed.

(** C1 (as amended).  For every rename plan, every track the assignment
    planner plans from it has its playlist file path from the destination
    name of an item of the plan, and the descriptor it was classified and
    named by from the source name of that item. *)
Theorem rename_plan_tracks `{Unicode} (spots : list Spot)
    (rename_plan : list RenamePlanItem) (unknown_date : str)
    (keep_suzuki_id romanize_names : bool) (targets : gset str) :
  planned_from (λ it, name (src it)) spots rename_plan unknown_date
    keep_suzuki_id romanize_names targets.
Proof.
  intros title tracks track Hin Htrack.
  rewrite plan_from_rename_plan_assign_all in Hin. cbn [fst] in Hin.
  apply prune_elem in Hin as [Hin _].
  apply dict_elem_get in Hin; [|apply assign_all_NoDup].
  destruct (assign_all_sound _ _ _ _ _ _ _ Hin Htrack)
    as (c & i & Hc & Hguess & _ & _ & _ & ->).
  apply list_elem_of_omap in Hc as (it & Hit & Hclass).
  exists it. split; [done|]. unfold classify_item in Hclass.
  destruct (parse_audio_name _ _ _) as [parsed|] eqn:Hparse; [|done].
  destruct (negb _); [done|]. injection Hclass as <-.
  by exists parsed.
Qed.

(** C1 as stated fails.  For the plan of [sample_fs] the planner files one
    track under each spot, from descriptors that the destination names do
    not yield: these names follow neither grammar. *)
Lemma rename_plan_tracks_not_from_destination :
  @plan_renames plain_text sample_fs sample_dir sample_targets false
    (u"UnknownDate") true = Done sample_plan
  ∧ (@plan_spots_additions_from_rename_plan plain_text sample_spots
       sample_plan (u"UnknownDate") true false sample_targets).1
    = sample_tracks
  ∧ ¬ @planned_from plain_text (λ it, name (dst it)) sample_spots sample_plan
        (u"UnknownDate") true false sample_targets.
Proof.
  assert (Hplan : (@plan_spots_additions_from_rename_plan plain_text
                     sample_spots sample_plan (u"UnknownDate") true false
                     sample_targets).1 = sample_tracks)
    by (vm_compute; reflexivity).
  split; [vm_compute; reflexivity|]. split; [exact Hplan|].
  intros Hfrom. unfold planned_from in Hfrom. rewrite Hplan in Hfrom.
  edestruct Hfrom as (it & Hit & parsed & Hparse & _);
    [apply list_elem_of_here|apply list_elem_of_here|].
  assert (Hnone : Forall (λ it, @parse_audio_name plain_text (name (dst it))
                                  (u"UnknownDate") true = None) sample_plan).
  { repeat constructor; vm_compute; reflexivity. }
  rewrite (proj1 (Forall_forall _ _) Hnone it Hit) in Hparse. done.
Qed.

Lemma rename_plan_tracks_witness :
  ∃ it,
    it ∈ sample_plan
    ∧ @derived_from plain_text (u"UnknownDate") true false
        (name (src it)) (name (dst it)) (u"水郷の滝")
        {| track_name := Some (u"鈴木:滝_1");
           track_file :=
             Some (u"audio/鈴木_UnknownDate_WAV0018_001_滝_1.mp3") |}.
Proof.
  apply (@rename_plan_tracks plain_text sample_spots sample_plan
           (u"UnknownDate") true false sample_targets (u"水郷の滝")
           [ {| track_name := Some (u"鈴木:滝_1");
                track_file :=
                  Some (u"audio/鈴木_UnknownDate_WAV0018_001_滝_1.mp3") |} ]).
  - replace (@plan_spots_additions_from_rename_plan plain_text sample_spots
               sample_plan (u"UnknownDate") true false sample_targets).1
      with sample_tracks by (vm_compute; reflexivity).
    apply list_elem_of_here.
  - apply list_elem_of_here.
Defined.

(** ** Merging the additions *)

Lemma extend_playlist_title spot tracks :
  title_of (extend_playlist spot tracks) = title_of spot.
Proof. done. Qed.



Section Apply.
Context (t2s : dict str nat).




Lemma apply_all_length adds cur :
  length (foldl (apply_one t2s) cur adds) = length cur.
Proof.
  revert cur. induction adds as [|[title tracks] adds IH]; intros cur; simpl;
    [done|].
  rewrite IH. unfold apply_one. destruct (dict_get title t2s) as [i|]; [|done].
  destruct (cur !! i); [|done]. destruct (negb _); [done|].
  apply length_insert.
Qed.



End Apply.

(** ** Running the planner again *)

Lemma in_playlist_true spots i rel :
  in_playlist spots i rel = true ↔
  ∃ spot t, spots !! i = Some spot ∧ t ∈ playlist_or_empty spot
            ∧ track_file t = Some rel.
Proof.
  unfold in_playlist. rewrite existsb_exists. split.
  - intros (t & Hin & Ht). apply bool_decide_eq_true in Ht.
    destruct (spots !! i) as [spot|]; [|done].
    exists spot, t. by rewrite list_elem_of_In.
  - intros (spot & t & -> & Hin & Ht). exists t.
    rewrite bool_decide_eq_true. by rewrite <- list_elem_of_In.
Qed.


Section SecondRun.
Context `{Unicode}.
Context (spots : list Spot) (romanize_names : bool).
Context (cands : list (ParsedAudioName * Path)).

Local Abbreviation first :=
  (assign_all spots romanize_names cands (no_additions spots, [])).
Local Abbreviation merged := (apply_spots_additions spots (prune first.1)).





End SecondRun.

(** On any records, a planned track is never one whose file the playlist
    of its spot already lists. *)
Lemma assign_all_no_duplicates `{Unicode} spots romanize_names cands :
  no_duplicate_additions spots
    (prune (assign_all spots romanize_names cands (no_additions spots, [])).1).
Proof.
  intros title tracks track i spot t [Hin _]%prune_elem Htrack Hi Hspot Ht.
  apply dict_elem_get in Hin; [|apply assign_all_NoDup].
  destruct (assign_all_sound _ _ _ _ _ _ _ Hin Htrack)
    as (c & i' & _ & _ & _ & Hi' & Hpl & ->).
  rewrite Hi in Hi'. injection Hi' as <-. cbn [track_for track_file].
  intros Hfile. apply not_true_iff_false in Hpl. apply Hpl.
  apply in_playlist_true. eauto.
Qed.

(** The two runs on the sample: the first plans [sample_tracks], the second,
    on the merged records, plans nothing. *)
Example second_run_on_sample :
  let planner records :=
    @plan_spots_additions_from_rename_plan plain_text records sample_plan
      (u"UnknownDate") true false sample_targets in
  (planner sample_spots).1 = sample_tracks
  ∧ playlist_or_empty
      <$> apply_spots_additions sample_spots (planner sample_spots).1
    = snd <$> sample_tracks
  ∧ planner (apply_spots_additions sample_spots (planner sample_spots).1)
    = ([], []).
Proof. cbv zeta. split; [|split]; vm_compute; reflexivity. Qed.

(** * Further properties of the script *)

(** ** The normaliser *)

Lemma Forall_sub_scan (P : N → Prop) m repl skip s :
  Forall P repl → Forall P s → Forall P (sub_scan m repl skip s).
Proof.
  intros Hrepl Hs. revert skip.
  induction Hs as [|c s Hc Hs IH]; intros skip; simpl; [constructor|].
  destruct skip as [|k]; [|apply IH].
  destruct (m (c :: s)) as [[|k]|].
  - constructor; [done|apply IH].
  - apply Forall_app_2; [done|apply IH].
  - constructor; [done|apply IH].
Qed.

Lemma notin_Forall (c : N) l : c ∉ l ↔ Forall (λ x, x ≠ c) l.
Proof.
  rewrite Forall_forall. split.
  - intros Hc x Hx ->. done.
  - intros Hall Hc. by apply (Hall c).
Qed.

Lemma notin_replace c old new s : c ∉ new → c ∉ s → c ∉ replace old new s.
Proof.
  rewrite !notin_Forall. intros. unfold replace. by apply Forall_sub_scan.
Qed.

Lemma notin_re_sub c pat repl s : c ∉ repl → c ∉ s → c ∉ re_sub pat repl s.
Proof.
  rewrite !notin_Forall. intros. unfold re_sub. by apply Forall_sub_scan.
Qed.

Lemma notin_strip c x s : c ∉ s → c ∉ strip x s.
Proof.
  rewrite !notin_Forall. intros Hs. unfold strip, lstrip.
  apply Forall_reverse, Forall_drop, Forall_reverse, Forall_drop, Hs.
Qed.

(** Replacing a character by text without it leaves none. *)
Lemma replace_removes c old new s :
  old = [c] → c ∉ new → c ∉ replace old new s.
Proof.
  intros -> Hnew. unfold replace.
  induction s as [|x s IH]; [by intros ?%elem_of_nil|].
  cbn [sub_scan startswith length]. rewrite andb_true_r.
  case_bool_decide as Hx.
  - rewrite not_elem_of_app. by split.
  - rewrite not_elem_of_cons. split; [congruence|done].
Qed.

Lemma clean_separators_chars `{Unicode} (text : str) :
  (chr_dot ∉ _clean_separators text)
  ∧ (chr_space ∉ _clean_separators text)
  ∧ (chr_fullwidth_underscore ∉ _clean_separators text).
Proof.
  unfold _clean_separators. split; [|split].
  - apply notin_strip, notin_re_sub; [compute_done|].
    apply replace_removes; [done|compute_done].
  - apply notin_strip, notin_re_sub; [compute_done|].
    apply notin_replace; [compute_done|].
    apply notin_replace; [compute_done|].
    apply notin_re_sub; [compute_done|].
    apply replace_removes; [done|compute_done].
  - apply notin_strip, notin_re_sub; [compute_done|].
    apply notin_replace; [compute_done|].
    apply notin_replace; [compute_done|].
    apply notin_re_sub; [compute_done|].
    apply notin_replace; [compute_done|].
    apply replace_removes; [done|compute_done].
Qed.

(** X1.  Whatever the text, the normaliser returns text without periods,
    spaces and full-width underscores. *)
Theorem clean_separators_removes `{Unicode} (text : str) :
  (chr_dot ∉ _clean_separators text)
  ∧ (chr_space ∉ _clean_separators text)
  ∧ (chr_fullwidth_underscore ∉ _clean_separators text).
Proof. apply clean_separators_chars. Qed.


(** A pattern that is one greedy run matches the whole run. *)
Lemma re_exec_run cls t :
  re_exec [Rep cls 1 None] t =
    if bool_decide (span cls t < 1) then None
    else Some ([take (span cls t) t], drop (span cls t) t).
Proof.
  cbn [re_exec]. case_bool_decide as Hlt; [done|].
  apply (try_down_found _ _ _ (span cls t)); [lia|intros j Hj; lia|done].
Qed.

Lemma sub_scan_skip m repl k s :
  k ≤ length s → sub_scan m repl k s = sub_scan m repl 0 (drop k s).
Proof.
  revert s. induction k as [|k IH]; intros s Hk; [done|].
  destruct s as [|x s]; simpl in *; [lia|]. apply IH. lia.
Qed.

(** [re.sub(c+, c, s)], one character at a time. *)
Lemma re_sub_run_cons c x s :
  re_sub [Rep (is_char c) 1 None] [c] (x :: s) =
    if bool_decide (x = c)
    then c :: re_sub [Rep (is_char c) 1 None] [c] (drop (span (is_char c) s) s)
    else x :: re_sub [Rep (is_char c) 1 None] [c] s.
Proof.
  unfold re_sub at 1. cbn [sub_scan]. rewrite re_exec_run.
  cbn [span]. change (is_char c x) with (bool_decide (x = c)).
  pose proof (span_le (is_char c) s) as Hle.
  destruct (bool_decide (x = c)) eqn:Hx.
  - rewrite bool_decide_eq_false_2 by lia. cbn [mbind option_bind].
    rewrite length_drop.
    replace (length (x :: s) - (length (x :: s) - S (span (is_char c) s)))
      with (S (span (is_char c) s)) by (simpl; lia).
    by rewrite sub_scan_skip.
  - by rewrite bool_decide_eq_true_2 by lia.
Qed.

Lemma span_drop_stop cls s : span cls (drop (span cls s) s) = 0.
Proof.
  induction s as [|x s IH]; [done|]. cbn [span].
  destruct (cls x) eqn:Hx; [done|]. cbn [drop span]. by rewrite Hx.
Qed.

Lemma span_0_head c s : span (is_char c) s = 0 ↔ head s ≠ Some c.
Proof.
  destruct s as [|x s]; cbn [span head]; [done|]. unfold is_char.
  case_bool_decide as Hx; [subst|]; split; try done; congruence.
Qed.

Lemma lstrip_head c s : head (lstrip c s) ≠ Some c.
Proof. apply span_0_head, span_drop_stop. Qed.

Lemma substring_pair_cons (c x : N) r :
  substring [c; c] (x :: r) → (x = c ∧ head r = Some c) ∨ substring [c; c] r.
Proof.
  intros ([|y a] & b & Heq); simpl in Heq.
  - injection Heq as -> ->. by left.
  - injection Heq as -> ->. right. by exists a, b.
Qed.

Lemma substring_drop sub k s : substring sub (drop k s) → substring sub s.
Proof.
  intros (a & b & Heq). exists (take k s ++ a), b.
  by rewrite <- (take_drop k s) at 1; rewrite Heq, <- app_assoc.
Qed.

Lemma substring_reverse sub s :
  substring sub (reverse s) → substring (reverse sub) s.
Proof.
  intros (a & b & Heq). exists (reverse b), (reverse a).
  apply (inj reverse).
  by rewrite Heq, !reverse_app, !reverse_involutive, <- app_assoc.
Qed.

Lemma substring_strip c sub s :
  reverse sub = sub → substring sub (strip c s) → substring sub s.
Proof.
  intros Hsub Hin. unfold strip, lstrip in Hin.
  apply substring_reverse, substring_drop, substring_reverse in Hin.
  rewrite Hsub in Hin. rewrite Hsub in Hin. by apply substring_drop in Hin.
Qed.

Lemma strip_edges c s :
  head (strip c s) ≠ Some c ∧ last (strip c s) ≠ Some c.
Proof.
  unfold strip. rewrite last_reverse. split; [|apply lstrip_head].
  rewrite head_reverse. unfold lstrip at 1.
  set (t := reverse (lstrip c s)).
  destruct (drop (span (λ x, bool_decide (x = c)) t) t) as [|y l] eqn:Hd;
    [done|].
  assert (Hlast : last (y :: l) = last t).
  { rewrite <- (take_drop (span (λ x, bool_decide (x = c)) t) t).
    rewrite Hd. by rewrite last_app_cons. }
  rewrite Hlast. unfold t. rewrite last_reverse. apply lstrip_head.
Qed.

Section Squeeze.
Context (c : N).
Local Abbreviation squeeze := (re_sub [Rep (is_char c) 1 None] [c]).

Lemma squeeze_head s : head s ≠ Some c → head (squeeze s) ≠ Some c.
Proof.
  destruct s as [|x s]; [done|]. rewrite re_sub_run_cons. cbn [head].
  intros Hx. rewrite bool_decide_eq_false_2 by congruence. done.
Qed.

(** No run of [c] is left longer than one. *)
Lemma squeeze_no_double s : ¬ substring [c; c] (squeeze s).
Proof.
  remember (length s) as n eqn:Hn. revert s Hn.
  induction n as [n IH] using lt_wf_ind. intros s ->.
  destruct s as [|x s].
  { intros (a & b & Heq). by destruct a as [|? [|? ?]]. }
  rewrite re_sub_run_cons. case_bool_decide as Hx.
  - intros [[_ Hhead]|Hsub]%substring_pair_cons.
    + revert Hhead. apply squeeze_head, span_0_head, span_drop_stop.
    + revert Hsub. eapply IH; [|reflexivity]. rewrite length_drop. simpl. lia.
  - intros [[Hx' _]|Hsub]%substring_pair_cons; [done|].
    revert Hsub. eapply IH; [|reflexivity]. simpl. lia.
Qed.

(** Text without a run longer than one is left as it is. *)
Lemma squeeze_id s : ¬ substring [c; c] s → squeeze s = s.
Proof.
  induction s as [|x s IH]; [done|]. intros Hno.
  assert (Hs : ¬ substring [c; c] s).
  { intros (a & b & ->). apply Hno. by exists (x :: a), b. }
  rewrite re_sub_run_cons. case_bool_decide as Hx; [|f_equal; by apply IH].
  subst x. assert (Hspan : span (is_char c) s = 0).
  { apply span_0_head. intros Hhead. apply Hno.
    destruct s as [|y s]; [done|]. injection Hhead as ->. by exists [], s. }
  rewrite Hspan. cbn [drop]. f_equal. by apply IH.
Qed.

End Squeeze.

Lemma clean_separators_edges `{Unicode} (text : str) :
  ¬ substring (u"__") (_clean_separators text)
  ∧ head (_clean_separators text) ≠ Some chr_underscore
  ∧ last (_clean_separators text) ≠ Some chr_underscore.
Proof.
  unfold _clean_separators. split; [|apply strip_edges].
  intros Hsub%substring_strip; [|done]. revert Hsub.
  apply (squeeze_no_double chr_underscore).
Qed.

(** X2.  Whatever the text, what the normaliser returns neither starts
    nor ends with an underscore and has no two underscores in a row. *)
Theorem clean_separators_underscores `{Unicode} (text : str) :
  ¬ substring (u"__") (_clean_separators text)
  ∧ head (_clean_separators text) ≠ Some chr_underscore
  ∧ last (_clean_separators text) ≠ Some chr_underscore.
Proof. apply clean_separators_edges. Qed.

Lemma replace_absent c old new s :
  head old = Some c → c ∉ s → replace old new s = s.
Proof.
  destruct old as [|c' old]; [done|]. intros [= ->]. unfold replace.
  induction s as [|x s IH]; [done|].
  intros [Hx Hs]%not_elem_of_cons. cbn [sub_scan startswith].
  rewrite bool_decide_eq_false_2 by done. cbn [andb]. f_equal. by apply IH.
Qed.

Lemma notin_no_double (c : N) s : c ∉ s → ¬ substring [c; c] s.
Proof.
  intros Hc (a & b & ->). apply Hc. rewrite elem_of_app. right. by left.
Qed.

Lemma lstrip_id c s : head s ≠ Some c → lstrip c s = s.
Proof.
  intros Hhead. unfold lstrip.
  change (span (λ x, bool_decide (x = c)) s) with (span (is_char c) s).
  by rewrite (proj2 (span_0_head c s) Hhead).
Qed.

Lemma strip_id c s :
  head s ≠ Some c → last s ≠ Some c → strip c s = s.
Proof.
  intros Hhead Hlast. unfold strip. rewrite (lstrip_id c s Hhead).
  rewrite lstrip_id by (by rewrite head_reverse).
  apply reverse_involutive.
Qed.

(** X3.  Normalising a second time changes nothing, provided NFC leaves
    the normalised text as it is. *)
Theorem clean_separators_idempotent `{Unicode} (text : str) :
  nfc (_clean_separators text) = _clean_separators text →
  _clean_separators (_clean_separators text) = _clean_separators text.
Proof.
  intros Hnfc.
  destruct (clean_separators_chars text) as (Hdot & Hspace & Hwide).
  destruct (clean_separators_edges text) as (Hpair & Hhead & Hlast).
  remember (_clean_separators text) as r eqn:Hr. clear Hr.
  unfold _clean_separators, _nfc. rewrite Hnfc.
  rewrite (replace_absent chr_fullwidth_underscore (u"＿") _ r eq_refl Hwide).
  rewrite (replace_absent chr_space (u" ") _ r eq_refl Hspace).
  change (re_sub ?p (u".") r) with (re_sub p [chr_dot] r).
  rewrite (squeeze_id chr_dot r (notin_no_double _ _ Hdot)).
  rewrite (replace_absent chr_dot (u"..") _ r eq_refl Hdot).
  rewrite (replace_absent chr_dot (u".") _ r eq_refl Hdot).
  change (re_sub ?p (u"_") r) with (re_sub p [chr_underscore] r).
  rewrite (squeeze_id chr_underscore r Hpair).
  by apply strip_id.
Qed.

Lemma clean_separators_idempotent_witness :
  @_clean_separators plain_text
    (@_clean_separators plain_text (u"._滝__1 (2)＿"))
  = @_clean_separators plain_text (u"._滝__1 (2)＿").
Proof.
  apply (@clean_separators_idempotent plain_text (u"._滝__1 (2)＿")).
  vm_compute; reflexivity.
Defined.

(** ** What the grammars accept *)

Lemma try_down_Some_range {A} (f : nat → option A) lo extra r :
  try_down f lo extra = Some r → ∃ k, lo ≤ k ≤ lo + extra ∧ f k = Some r.
Proof.
  induction extra as [|e IH]; simpl.
  - destruct (f (lo + 0)) eqn:Hf; [|done]. intros [= ->].
    exists (lo + 0). split; [lia|done].
  - destruct (f (lo + S e)) eqn:Hf.
    + intros [= ->]. exists (lo + S e). split; [lia|done].
    + intros (k & Hk & Hfk)%IH. exists k. split; [lia|done].
Qed.

Lemma span_take cls k s :
  k ≤ span cls s → Forall (λ c, cls c = true) (take k s).
Proof.
  revert k. induction s as [|x s IH]; intros k Hk; [by rewrite take_nil|].
  destruct k as [|k]; [constructor|]. cbn [span] in Hk.
  destruct (cls x) eqn:Hx; [|lia]. cbn [take]. constructor; [done|].
  apply IH. lia.
Qed.

Lemma re_exec_rep_inv cls lo hi pat s gs r :
  re_exec (Rep cls lo hi :: pat) s = Some (gs, r) →
  ∃ g gs' t,
    gs = g :: gs' ∧ s = g ++ t ∧ re_exec pat t = Some (gs', r)
    ∧ lo ≤ length g ∧ Forall (λ c, cls c = true) g
    ∧ from_option (λ h, length g ≤ h) True hi.
Proof.
  cbn [re_exec]. case_bool_decide as Hlo; [done|].
  intros (k & Hk & Hf)%try_down_Some_range.
  destruct (re_exec pat (drop k s)) as [[gs' r']|] eqn:Hrec; [|done].
  cbn [mbind option_bind] in Hf. injection Hf as <- <-.
  pose proof (span_le cls s) as Hle.
  assert (Hspan : k ≤ span cls s) by (destruct hi; lia).
  exists (take k s), gs', (drop k s). rewrite take_drop, length_take.
  split_and!; try done; [lia|by apply span_take|].
  destruct hi as [h|]; simpl; [lia|done].
Qed.

Lemma re_exec_lit_inv l pat s x :
  re_exec (Lit l :: pat) s = Some x →
  ∃ t, s = l ++ t ∧ re_exec pat t = Some x.
Proof.
  cbn [re_exec]. destruct (startswith l s) eqn:Hl; [|done].
  apply startswith_spec in Hl as [t ->]. rewrite drop_app_length. eauto.
Qed.

Lemma re_exec_eos_inv s gs r :
  re_exec [Eos] s = Some (gs, r) →
  gs = [] ∧ r = s ∧ (s = [] ∨ s = [chr_newline]).
Proof.
  cbn [re_exec]. destruct (at_end s) eqn:Hend; [|done]. intros [= <- <-].
  split; [done|]. split; [done|]. destruct s as [|c [|? ?]]; try done; [by left|].
  right. apply bool_decide_eq_true in Hend. by subst.
Qed.

Lemma dot_any_not_newline rest :
  Forall (λ c, dot_any c = true) rest → Forall (λ c, c ≠ chr_newline) rest.
Proof.
  intros Hrest. eapply Forall_impl; [exact Hrest|]. by intros c Hc ->.
Qed.

Lemma tsukamoto_pattern_inv `{Unicode} stem gs :
  re_match tsukamoto_pattern stem = Some gs →
  ∃ who date time rest nl,
    gs = [who; date; time; rest]
    ∧ stem = who ++ date ++ u"_" ++ time ++ rest ++ nl
    ∧ who ≠ [] ∧ Forall (λ c, not_digit_underscore c = true) who
    ∧ length date = 8 ∧ Forall (λ c, isdecimal c = true) date
    ∧ length time = 6 ∧ Forall (λ c, isdecimal c = true) time
    ∧ Forall (λ c, c ≠ chr_newline) rest
    ∧ (nl = [] ∨ nl = [chr_newline]).
Proof.
  unfold re_match, tsukamoto_pattern.
  destruct (re_exec _ stem) as [[gs0 r]|] eqn:Hex; [|done].
  cbn [fmap option_fmap option_map fst]. intros [= <-].
  apply re_exec_rep_inv in Hex
    as (who & gs1 & t1 & -> & -> & Hex & Hwho1 & Hwho & _).
  apply re_exec_rep_inv in Hex
    as (date & gs2 & t2 & -> & -> & Hex & Hd1 & Hdate & Hd2).
  apply re_exec_lit_inv in Hex as (t3 & -> & Hex).
  apply re_exec_rep_inv in Hex
    as (time & gs4 & t4 & -> & -> & Hex & Ht1 & Htime & Ht2).
  apply re_exec_rep_inv in Hex
    as (rest & gs5 & nl & -> & -> & Hex & _ & Hrest & _).
  apply re_exec_eos_inv in Hex as (-> & _ & Hnl).
  exists who, date, time, rest, nl. simpl in Hd2, Ht2.
  split_and!; try done; try lia.
  - intros ->. simpl in Hwho1. lia.
  - by apply dot_any_not_newline.
Qed.

Lemma suzuki_pattern_inv `{Unicode} stem gs :
  re_match suzuki_pattern stem = Some gs →
  ∃ who id1 id2 rest nl,
    gs = [who; id1; id2; rest]
    ∧ stem = who ++ u"_WAV_" ++ id1 ++ u"_" ++ id2 ++ rest ++ nl
    ∧ who ≠ [] ∧ Forall (λ c, not_underscore c = true) who
    ∧ length id1 = 4 ∧ Forall (λ c, isdecimal c = true) id1
    ∧ length id2 = 3 ∧ Forall (λ c, isdecimal c = true) id2
    ∧ Forall (λ c, c ≠ chr_newline) rest
    ∧ (nl = [] ∨ nl = [chr_newline]).
Proof.
  unfold re_match, suzuki_pattern.
  destruct (re_exec _ stem) as [[gs0 r]|] eqn:Hex; [|done].
  cbn [fmap option_fmap option_map fst]. intros [= <-].
  apply re_exec_rep_inv in Hex
    as (who & gs1 & t1 & -> & -> & Hex & Hwho1 & Hwho & _).
  apply re_exec_lit_inv in Hex as (t2 & -> & Hex).
  apply re_exec_rep_inv in Hex
    as (id1 & gs2 & t3 & -> & -> & Hex & Ha1 & Hid1 & Ha2).
  apply re_exec_lit_inv in Hex as (t4 & -> & Hex).
  apply re_exec_rep_inv in Hex
    as (id2 & gs4 & t5 & -> & -> & Hex & Hb1 & Hid2 & Hb2).
  apply re_exec_rep_inv in Hex
    as (rest & gs5 & nl & -> & -> & Hex & _ & Hrest & _).
  apply re_exec_eos_inv in Hex as (-> & _ & Hnl).
  exists who, id1, id2, rest, nl. simpl in Ha2, Hb2.
  split_and!; try done; try lia.
  - intros ->. simpl in Hwho1. lia.
  - by apply dot_any_not_newline.
Qed.

(** X4.  Whatever [_parse_tsukamoto_style] accepts is a stem of Grammar B:
    the speaker of the record (not empty, free of ASCII digits and
    underscores), its date (eight digits), an underscore, its time (six
    digits) and a remainder without newline, optionally followed by one
    final newline; the record is of kind B and has no kept id. *)
Theorem parse_tsukamoto_sound `{Unicode} (stem : str)
    (parsed : ParsedAudioName) :
  _parse_tsukamoto_style stem = Some parsed →
  ∃ time rest nl,
    stem
    = speaker parsed ++ date_yyyymmdd parsed ++ u"_" ++ time ++ rest ++ nl
    ∧ time_hhmmss parsed = Some time
    ∧ speaker parsed ≠ []
    ∧ Forall (λ c, not_digit_underscore c = true) (speaker parsed)
    ∧ length (date_yyyymmdd parsed) = 8
    ∧ Forall (λ c, isdecimal c = true) (date_yyyymmdd parsed)
    ∧ length time = 6 ∧ Forall (λ c, isdecimal c = true) time
    ∧ Forall (λ c, c ≠ chr_newline) rest
    ∧ (nl = [] ∨ nl = [chr_newline])
    ∧ keep_id parsed = None ∧ source_kind parsed = KindB.
Proof.
  unfold _parse_tsukamoto_style.
  destruct (re_match tsukamoto_pattern stem) as [gs|] eqn:Hm; [|done].
  apply tsukamoto_pattern_inv in Hm
    as (who & date & time & rest & nl & -> & -> & Hrest).
  intros [= <-]. exists time, rest, nl. cbn [speaker date_yyyymmdd
    time_hhmmss keep_id source_kind]. by destruct_and!.
Qed.

Lemma parse_tsukamoto_sound_witness :
  ∃ time rest nl,
    u"塚本20251012_121402公園内散策_野球"
    = u"塚本" ++ u"20251012" ++ u"_" ++ time ++ rest ++ nl
    ∧ Some (u"121402") = Some time
    ∧ u"塚本" ≠ []
    ∧ Forall (λ c, not_digit_underscore c = true) (u"塚本")
    ∧ length (u"20251012") = 8
    ∧ Forall (λ c, @isdecimal plain_text c = true) (u"20251012")
    ∧ length time = 6 ∧ Forall (λ c, @isdecimal plain_text c = true) time
    ∧ Forall (λ c, c ≠ chr_newline) rest
    ∧ (nl = [] ∨ nl = [chr_newline])
    ∧ @None str = None ∧ KindB = KindB.
Proof.
  apply (@parse_tsukamoto_sound plain_text
           (u"塚本20251012_121402公園内散策_野球")
           {| speaker := u"塚本"; date_yyyymmdd := u"20251012";
              time_hhmmss := Some (u"121402");
              descriptor := u"公園内散策_野球";
              source_kind := KindB; keep_id := None |}).
  vm_compute; reflexivity.
Defined.

(** X5.  Whatever [_parse_suzuki_style] accepts is a stem of Grammar A:
    the speaker of the record (not empty, free of underscores), [_WAV_],
    four digits, an underscore, three digits and a remainder; the record
    is of kind A, has the placeholder as its date, no time, and as kept id
    WAV, the four digits, an underscore and the three digits when ids are
    kept, none otherwise. *)
Theorem parse_suzuki_sound `{Unicode} (stem unknown_date : str)
    (keep : bool) (parsed : ParsedAudioName) :
  _parse_suzuki_style stem unknown_date keep = Some parsed →
  ∃ id1 id2 rest nl,
    stem = speaker parsed ++ u"_WAV_" ++ id1 ++ u"_" ++ id2 ++ rest ++ nl
    ∧ speaker parsed ≠ []
    ∧ Forall (λ c, not_underscore c = true) (speaker parsed)
    ∧ length id1 = 4 ∧ Forall (λ c, isdecimal c = true) id1
    ∧ length id2 = 3 ∧ Forall (λ c, isdecimal c = true) id2
    ∧ Forall (λ c, c ≠ chr_newline) rest
    ∧ (nl = [] ∨ nl = [chr_newline])
    ∧ date_yyyymmdd parsed = unknown_date
    ∧ time_hhmmss parsed = None
    ∧ keep_id parsed
      = (if keep then Some (u"WAV" ++ id1 ++ u"_" ++ id2) else None)
    ∧ source_kind parsed = KindA.
Proof.
  unfold _parse_suzuki_style.
  destruct (re_match suzuki_pattern stem) as [gs|] eqn:Hm; [|done].
  apply suzuki_pattern_inv in Hm
    as (who & id1 & id2 & rest & nl & -> & -> & Hrest).
  intros [= <-]. exists id1, id2, rest, nl. cbn [speaker date_yyyymmdd
    time_hhmmss keep_id source_kind].
  destruct Hrest as (? & ? & H4 & ? & H3 & ?).
  rewrite !zfill_full by done. by destruct_and!.
Qed.

Lemma parse_suzuki_sound_witness :
  ∃ id1 id2 rest nl,
    u"鈴木_WAV_0018_001._滝_1"
    = u"鈴木" ++ u"_WAV_" ++ id1 ++ u"_" ++ id2 ++ rest ++ nl
    ∧ u"鈴木" ≠ []
    ∧ Forall (λ c, not_underscore c = true) (u"鈴木")
    ∧ length id1 = 4 ∧ Forall (λ c, @isdecimal plain_text c = true) id1
    ∧ length id2 = 3 ∧ Forall (λ c, @isdecimal plain_text c = true) id2
    ∧ Forall (λ c, c ≠ chr_newline) rest
    ∧ (nl = [] ∨ nl = [chr_newline])
    ∧ u"UnknownDate" = u"UnknownDate"
    ∧ @None str = None
    ∧ Some (u"WAV0018_001") = Some (u"WAV" ++ id1 ++ u"_" ++ id2)
    ∧ KindA = KindA.
Proof.
  apply (@parse_suzuki_sound plain_text (u"鈴木_WAV_0018_001._滝_1")
           (u"UnknownDate") true
           {| speaker := u"鈴木"; date_yyyymmdd := u"UnknownDate";
              time_hhmmss := None; descriptor := u"滝_1";
              source_kind := KindA; keep_id := Some (u"WAV0018_001") |}).
  vm_compute; reflexivity.
Defined.

Lemma app_cons_unique (c : N) a a' x x' :
  c ∉ a → c ∉ a' → a ++ c :: x = a' ++ c :: x' → a = a' ∧ x = x'.
Proof.
  revert a'. induction a as [|y a IH]; intros [|y' a'] Ha Ha'; simpl.
  - by intros [= ->].
  - intros [= <- _]. by apply not_elem_of_cons in Ha' as [? _].
  - intros [= -> _]. by apply not_elem_of_cons in Ha as [? _].
  - apply not_elem_of_cons in Ha as [_ Ha].
    apply not_elem_of_cons in Ha' as [_ Ha'].
    intros [= -> Heq]. destruct (IH a' Ha Ha' Heq) as [-> ->]. done.
Qed.

Lemma patterns_exclusive `{Unicode} stem gs1 gs2 :
  isdecimal chr_underscore = false → isdecimal 87%N = false →
  re_match tsukamoto_pattern stem = Some gs1 →
  re_match suzuki_pattern stem = Some gs2 → False.
Proof.
  intros Hus HW
    (who & date & time & rest & nl & _ & -> & _ & Hwho & _ & Hdate & Ht6
       & Htime & _)%tsukamoto_pattern_inv
    (who' & id1 & id2 & rest' & nl' & _ & Heq & _ & Hwho' & _)%suzuki_pattern_inv.
  change (u"_" ++ ?x) with (chr_underscore :: x) in Heq.
  change (u"_WAV_" ++ ?x) with (chr_underscore :: 87%N :: (u"AV_" ++ x)) in Heq.
  rewrite (app_assoc who date) in Heq.
  apply app_cons_unique in Heq as [_ Heq].
  - destruct time as [|t0 time]; [done|]. injection Heq as -> _.
    apply Forall_cons_1 in Htime as [Ht0 _]. congruence.
  - rewrite not_elem_of_app. split; apply notin_Forall.
    + eapply Forall_impl; [exact Hwho|]. intros c Hc ->. done.
    + eapply Forall_impl; [exact Hdate|]. intros c Hc ->. congruence.
  - apply notin_Forall. eapply Forall_impl; [exact Hwho'|].
    intros c Hc ->. done.
Qed.

(** X6.  The two grammars exclude each other: given that neither the
    underscore nor the letter W counts as a digit, no stem is accepted
    both by [_parse_tsukamoto_style] and by [_parse_suzuki_style]. *)
Theorem grammars_exclusive `{Unicode} (stem unknown_date : str)
    (keep : bool) :
  isdecimal chr_underscore = false → isdecimal 87%N = false →
  is_Some (_parse_tsukamoto_style stem) →
  _parse_suzuki_style stem unknown_date keep = None.
Proof.
  intros Hus HW. unfold _parse_tsukamoto_style, _parse_suzuki_style.
  destruct (re_match tsukamoto_pattern stem) as [gs1|] eqn:H1;
    [|by intros [? ?]].
  destruct (re_match suzuki_pattern stem) as [gs2|] eqn:H2; [|done].
  destruct (patterns_exclusive stem gs1 gs2 Hus HW H1 H2).
Qed.

Lemma grammars_exclusive_witness :
  @_parse_suzuki_style plain_text (u"塚本20251012_121402公園内散策_野球")
    (u"UnknownDate") true = None.
Proof.
  apply (@grammars_exclusive plain_text
           (u"塚本20251012_121402公園内散策_野球") (u"UnknownDate") true).
  - vm_compute; reflexivity.
  - vm_compute; reflexivity.
  - vm_compute. eauto.
Defined.

Lemma parse_tsukamoto_record `{Unicode} stem parsed :
  _parse_tsukamoto_style stem = Some parsed →
  speaker parsed ≠ [] ∧ (chr_underscore ∉ speaker parsed)
  ∧ descriptor parsed ≠ []
  ∧ source_kind parsed = KindB
  ∧ is_Some (time_hhmmss parsed) ∧ keep_id parsed = None.
Proof.
  unfold _parse_tsukamoto_style.
  destruct (re_match tsukamoto_pattern stem) as [gs|] eqn:Hm; [|done].
  apply tsukamoto_pattern_inv in Hm
    as (who & date & time & rest & nl & -> & _ & Hne & Hwho & _).
  intros [= <-]. cbn [speaker descriptor source_kind time_hhmmss keep_id].
  split_and!; try done.
  - apply notin_Forall. eapply Forall_impl; [exact Hwho|]. by intros c Hc ->.
  - by case_bool_decide.
Qed.

Lemma parse_suzuki_record `{Unicode} stem unknown_date keep parsed :
  _parse_suzuki_style stem unknown_date keep = Some parsed →
  speaker parsed ≠ [] ∧ (chr_underscore ∉ speaker parsed)
  ∧ descriptor parsed ≠ []
  ∧ source_kind parsed = KindA
  ∧ time_hhmmss parsed = None ∧ date_yyyymmdd parsed = unknown_date
  ∧ (is_Some (keep_id parsed) ↔ keep = true).
Proof.
  unfold _parse_suzuki_style.
  destruct (re_match suzuki_pattern stem) as [gs|] eqn:Hm; [|done].
  apply suzuki_pattern_inv in Hm
    as (who & id1 & id2 & rest & nl & -> & _ & Hne & Hwho & _).
  intros [= <-].
  cbn [speaker descriptor source_kind time_hhmmss keep_id date_yyyymmdd].
  split_and!; try done.
  - apply notin_Forall. eapply Forall_impl; [exact Hwho|]. by intros c Hc ->.
  - by case_bool_decide.
  - destruct keep; split; first [done | eauto | by intros [? ?]].
Qed.

(** X7.  A record returned by [parse_audio_name] comes from a name whose
    lower-cased extension is [.mp3]; its speaker is not empty and has no
    underscore, its descriptor is not empty; it is of kind B with a time
    and no kept id, or of kind A with no time, the placeholder as date and
    a kept id exactly when ids are kept. *)
Theorem parse_audio_name_record `{Unicode} (filename unknown_date : str)
    (keep_suzuki_id : bool) (parsed : ParsedAudioName) :
  parse_audio_name filename unknown_date keep_suzuki_id = Some parsed →
  lower (suffix (Path_of_name filename)) = u".mp3"
  ∧ speaker parsed ≠ [] ∧ (chr_underscore ∉ speaker parsed)
  ∧ descriptor parsed ≠ []
  ∧ match source_kind parsed with
    | KindB => is_Some (time_hhmmss parsed) ∧ keep_id parsed = None
    | KindA =>
        time_hhmmss parsed = None ∧ date_yyyymmdd parsed = unknown_date
        ∧ (is_Some (keep_id parsed) ↔ keep_suzuki_id = true)
    | KindOther => False
    end.
Proof.
  unfold parse_audio_name. case_bool_decide as Hsuf; cbn [negb]; [|done].
  destruct (_parse_tsukamoto_style _) as [pb|] eqn:Hb.
  - intros [= <-].
    apply parse_tsukamoto_record in Hb as (? & ? & ? & -> & ? & ?). done.
  - destruct (_parse_suzuki_style _ _ _) as [pa|] eqn:Ha; [|done].
    intros [= <-].
    apply parse_suzuki_record in Ha as (? & ? & ? & -> & ? & ? & ?). done.
Qed.

Lemma parse_audio_name_record_witness :
  @lower plain_text (suffix (Path_of_name (u"鈴木_WAV_0018_001._滝_1.MP3")))
  = u".mp3"
  ∧ u"鈴木" ≠ [] ∧ (chr_underscore ∉ u"鈴木")
  ∧ u"滝_1" ≠ []
  ∧ (@None str = None ∧ u"UnknownDate" = u"UnknownDate"
     ∧ (is_Some (@None str) ↔ false = true)).
Proof.
  apply (@parse_audio_name_record plain_text
           (u"鈴木_WAV_0018_001._滝_1.MP3") (u"UnknownDate") false
           {| speaker := u"鈴木"; date_yyyymmdd := u"UnknownDate";
              time_hhmmss := None; descriptor := u"滝_1";
              source_kind := KindA; keep_id := None |}).
  vm_compute; reflexivity.
Defined.

(** ** More on the rename planner *)

Lemma blocked_bound_from fs used d base suffix i n :
  (∀ j, i ≤ j < i + n → blocked fs used (dup_candidate d base suffix j)) →
  n ≤ size fs + size used.
Proof.
  intros Hall.
  set (cands := dup_candidate d base suffix <$> seq i n).
  assert (Hnodup : NoDup cands).
  { apply NoDup_fmap_2; [|apply NoDup_seq].
    intros j j'. apply dup_candidate_inj. }
  assert (Hsub : (list_to_set cands : gset Path) ⊆ dom fs ∪ used).
  { intros p Hp. apply elem_of_list_to_set in Hp.
    apply list_elem_of_fmap in Hp as (j & -> & Hj).
    apply elem_of_seq in Hj as [Hj1 Hj2].
    destruct (Hall j (conj Hj1 Hj2)) as [Hex|Hused];
      [|by apply elem_of_union_r].
    apply elem_of_union_l, elem_of_dom. unfold path_exists in Hex.
    destruct (fs !! _); [eauto|done]. }
  apply subseteq_size in Hsub.
  rewrite size_list_to_set in Hsub; [|done].
  unfold cands in Hsub. rewrite length_fmap, length_seq in Hsub.
  pose proof (size_union_alt (dom fs) used) as Hu.
  pose proof (subseteq_size (used ∖ dom fs) used) as Hd.
  rewrite size_dom in Hu. etrans; [exact Hsub|]. rewrite Hu.
  apply Nat.add_le_mono_l. apply Hd. by apply subseteq_difference_l.
Qed.

Lemma dup_loop_more_fuel fs used base suffix fuel k dst i :
  dup_loop fs used base suffix fuel dst i ≠ OutOfFuel →
  dup_loop fs used base suffix (fuel + k) dst i
  = dup_loop fs used base suffix fuel dst i.
Proof.
  revert dst i. induction fuel as [|fuel IH]; intros dst i; simpl.
  - destruct (path_exists fs dst || bool_decide (dst ∈ used)) eqn:Hb; [done|].
    intros _. destruct k; simpl; by rewrite Hb.
  - destruct (path_exists fs dst || bool_decide (dst ∈ used)); [|done].
    destruct (with_name dst _) as [q|]; [|done]. apply IH.
Qed.

(** X8.  The collision loop of [plan_renames] terminates: with as many
    rounds as there are directory entries and used destinations, plus
    one, it has found a free name or raised, and further rounds change
    nothing. *)
Theorem dup_loop_terminates (fs : files) (used : gset Path)
    (base suffix : str) (dst : Path) (i fuel : nat) :
  S (size fs + size used) ≤ fuel →
  dup_loop fs used base suffix fuel dst i ≠ OutOfFuel
  ∧ dup_loop fs used base suffix fuel dst i
    = dup_loop fs used base suffix (S (size fs + size used)) dst i.
Proof.
  intros Hfuel.
  assert (Hbound : dup_loop fs used base suffix (S (size fs + size used))
                     dst i ≠ OutOfFuel).
  { intros Hout.
    pose proof (dup_loop_OutOfFuel _ _ _ _ _ _ _ Hout) as Hall.
    apply blocked_bound_from in Hall. lia. }
  replace fuel
    with (S (size fs + size used) + (fuel - S (size fs + size used))) by lia.
  rewrite dup_loop_more_fuel by done. done.
Qed.

Lemma dup_loop_terminates_witness :
  dup_loop settled_fs ∅ (u"鈴木_WAV_0018_001_滝") (u".mp3") 7
    (mkPath sample_dir (u"鈴木_WAV_0018_001_滝.mp3")) 1 ≠ OutOfFuel
  ∧ dup_loop settled_fs ∅ (u"鈴木_WAV_0018_001_滝") (u".mp3") 7
      (mkPath sample_dir (u"鈴木_WAV_0018_001_滝.mp3")) 1
    = dup_loop settled_fs ∅ (u"鈴木_WAV_0018_001_滝") (u".mp3")
        (S (size settled_fs + size (∅ : gset Path)))
        (mkPath sample_dir (u"鈴木_WAV_0018_001_滝.mp3")) 1.
Proof.
  apply (dup_loop_terminates settled_fs ∅ (u"鈴木_WAV_0018_001_滝")
           (u".mp3") (mkPath sample_dir (u"鈴木_WAV_0018_001_滝.mp3")) 1 7).
  vm_compute. lia.
Defined.

Section Sources.
Context `{Unicode}.
Context (fs : files) (audio_dir : list str) (targets : gset str)
  (romanize_names : bool) (unknown_date : str) (keep_suzuki_id : bool).

Local Abbreviation ok entry :=
  (eligible fs targets unknown_date keep_suzuki_id entry = true).
Local Abbreviation collect :=
  (collect_items fs targets romanize_names unknown_date keep_suzuki_id).

Lemma collect_items_skip entry entries items :
  eligible fs targets unknown_date keep_suzuki_id entry = false →
  collect (entry :: entries) items = collect entries items.
Proof.
  cbn [collect_items]. unfold eligible.
  destruct (is_file fs entry); cbn [negb andb]; [|done].
  destruct (bool_decide (lower (suffix entry) = u".mp3")); cbn [negb andb];
    [|done].
  destruct (re_match _ _) as [[|who [|? ?]]|]; cbn [andb]; try done.
  destruct (bool_decide (who ∈ targets)); cbn [negb andb]; [|done].
  destruct (parse_audio_name _ _ _) as [parsed|]; [|done].
  rewrite bool_decide_eq_true_2 by eauto. done.
Qed.

Lemma collect_items_take entry entries items :
  ok entry →
  ∃ parsed,
    parse_audio_name (name entry) unknown_date keep_suzuki_id = Some parsed
    ∧ is_file fs entry = true
    ∧ collect (entry :: entries) items
      = match
          with_name entry (build_new_filename parsed romanize_names)
        with
        | ValueError => ValueError
        | Ok d => collect entries (items ++ [mkItem entry d])
        end.
Proof.
  cbn [collect_items]. unfold eligible.
  destruct (is_file fs entry); cbn [negb andb]; [|done].
  destruct (bool_decide (lower (suffix entry) = u".mp3")); cbn [negb andb];
    [|done].
  destruct (re_match _ _) as [[|who [|? ?]]|]; cbn [andb]; try done.
  destruct (bool_decide (who ∈ targets)); cbn [negb andb]; [|done].
  destruct (parse_audio_name _ _ _) as [parsed|]; [|done].
  intros _. by exists parsed.
Qed.

Lemma collect_items_sources entries items0 items :
  collect entries items0 = Ok items →
  src <$> items = (src <$> items0) ++ filter (λ e, ok e) entries.
Proof.
  revert items0. induction entries as [|entry entries IH]; intros items0.
  - intros [= <-]. by rewrite app_nil_r.
  - rewrite filter_cons.
    destruct (eligible fs targets unknown_date keep_suzuki_id entry) eqn:Hok.
    + destruct (collect_items_take entry entries items0 Hok)
        as (parsed & _ & _ & ->).
      rewrite decide_True by done.
      destruct (with_name _ _) as [d|]; [|done].
      intros Hc%IH. rewrite Hc, fmap_app. cbn [fmap list_fmap src].
      by rewrite <- app_assoc.
    + rewrite collect_items_skip by done. rewrite decide_False by done.
      apply IH.
Qed.

Lemma resolution_of_sources items resolved :
  Forall2 resolution_of items resolved → src <$> resolved = src <$> items.
Proof.
  induction 1 as [|item out items resolved [Hsrc _] _ IH]; [done|].
  cbn [fmap list_fmap]. by rewrite Hsrc, IH.
Qed.

(** No resolved item names its own source as destination. *)
Lemma resolved_no_noop items resolved :
  Forall (candidate fs romanize_names unknown_date keep_suzuki_id) items →
  Forall2 resolution_of items resolved →
  Forall (λ it, path_exists fs (dst it) = false) resolved →
  Forall (λ it, src it ≠ dst it) resolved.
Proof.
  intros Hitems Hres. revert Hitems.
  induction Hres as [|item out items resolved [Hsrc _] _ IH];
    intros Hitems Hfree; [constructor|].
  apply Forall_cons_1 in Hitems as [[Hfile _] Hitems].
  apply Forall_cons_1 in Hfree as [Hgone Hfree].
  constructor; [|by apply IH].
  intros Heq. rewrite <- Hsrc in Hfile.
  apply (is_file_exists fs) in Hfile. congruence.
Qed.

Lemma plan_renames_parts plan :
  plan_renames fs audio_dir targets romanize_names unknown_date
    keep_suzuki_id = Done plan →
  ∃ items,
    collect (sorted (iterdir fs audio_dir)) [] = Ok items
    ∧ resolve_items fs items ∅ [] = Done plan.
Proof.
  intros Hplan. unfold plan_renames in Hplan.
  destruct (collect_items _ _ _ _ _ _ _) as [items|] eqn:Hcollect; [|done].
  destruct (resolve_items _ _ _ _) as [resolved| |] eqn:Hresolve; [|done..].
  exists items. split; [done|]. rewrite Hresolve.
  injection Hplan as <-. f_equal. symmetry. apply filter_all.
  pose proof Hcollect as (new & -> & Hnew)%collect_items_Ok.
  pose proof Hresolve as (out & -> & Hout & Hfree & _)%resolve_items_Done.
  cbn [app] in *.
  assert (Hcand : Forall (candidate fs romanize_names unknown_date
                            keep_suzuki_id) new).
  { eapply Forall_impl; [exact Hnew|]. by intros it [_ ?]. }
  assert (Hgone : Forall (λ it, path_exists fs (dst it) = false) out).
  { eapply Forall_impl; [exact Hfree|]. intros it Hit.
    destruct (path_exists fs (dst it)) eqn:Hex; [|done].
    destruct Hit. by left. }
  pose proof (resolved_no_noop new out Hcand Hout Hgone) as Hneq.
  apply Forall_forall. intros it Hit.
  pose proof (proj1 (Forall_forall _ _) Hneq it Hit) as Hne.
  apply list_elem_of_lookup in Hit as [k Hk].
  destruct (Forall2_lookup_r _ _ _ _ _ Hout Hk) as (item & Hitem & Hrel).
  assert (Hc : candidate fs romanize_names unknown_date keep_suzuki_id item).
  { apply (proj1 (Forall_forall _ _) Hcand). apply list_elem_of_lookup. eauto. }
  destruct (resolved_destination fs romanize_names unknown_date keep_suzuki_id
              item it Hc Hrel) as (Hpar & _).
  intros Hname. apply Hne. destruct (src it), (dst it). simpl in *. congruence.
Qed.

End Sources.

Lemma iterdir_NoDup fs audio_dir : NoDup (sorted (iterdir fs audio_dir)).
Proof.
  unfold sorted. rewrite merge_sort_Permutation. unfold iterdir.
  apply NoDup_filter, NoDup_fst_map_to_list.
Qed.

(** X9.  A plan of the rename planner has exactly one item for every
    entry of the directory that passes the filters of the first loop (a
    regular file with suffix .mp3 in any case, whose speaker prefix is a
    target and whose name follows one of the two grammars), in the order
    of the sorted listing; in particular no file is the source of two
    items and no eligible file is left out. *)
Theorem plan_renames_sources `{Unicode} (fs : files) (audio_dir : list str)
    (targets : gset str) (romanize_names : bool) (unknown_date : str)
    (keep_suzuki_id : bool) (plan : list RenamePlanItem) :
  plan_renames fs audio_dir targets romanize_names unknown_date
    keep_suzuki_id = Done plan →
  src <$> plan
  = filter (λ entry, eligible fs targets unknown_date keep_suzuki_id entry
                     = true)
      (sorted (iterdir fs audio_dir))
  ∧ NoDup (src <$> plan).
Proof.
  intros (items & Hcollect & Hresolve)%plan_renames_parts.
  apply collect_items_sources in Hcollect.
  apply resolve_items_Done in Hresolve as (new & -> & Hnew & _).
  cbn [app fmap list_fmap] in *.
  apply resolution_of_sources in Hnew.
  assert (Heq : src <$> new
                = filter (λ entry, eligible fs targets unknown_date
                                     keep_suzuki_id entry = true)
                    (sorted (iterdir fs audio_dir))) by congruence.
  split; [done|]. rewrite Heq. apply NoDup_filter, iterdir_NoDup.
Qed.

Lemma plan_renames_sources_witness :
  src <$> sample_plan
  = filter (λ entry, @eligible plain_text sample_fs sample_targets
                       (u"UnknownDate") true entry = true)
      (sorted (iterdir sample_fs sample_dir))
  ∧ NoDup (src <$> sample_plan).
Proof.
  apply (@plan_renames_sources plain_text sample_fs sample_dir
           sample_targets false (u"UnknownDate") true sample_plan).
  vm_compute; reflexivity.
Defined.

(** *** The first free name *)

Lemma dup_loop_first_free fs used base suffix fuel dst i dst' :
  dup_loop fs used base suffix fuel dst i = Done dst' →
  dst' = dst
  ∨ ∃ j, i ≤ j
         ∧ dst' = dup_candidate (parent dst) base suffix j
         ∧ blocked fs used dst
         ∧ ∀ k, i ≤ k < j →
                blocked fs used (dup_candidate (parent dst) base suffix k).
Proof.
  revert dst i. induction fuel as [|fuel IH]; intros dst i; simpl.
  - destruct (path_exists fs dst || bool_decide (dst ∈ used)); [done|].
    intros [= <-]. by left.
  - destruct (path_exists fs dst || bool_decide (dst ∈ used)) eqn:Hb.
    + apply blocked_iff in Hb.
      destruct (with_name dst _) as [q|] eqn:Hq; [|done].
      apply with_name_Ok in Hq as [-> _]. intros Hloop. right.
      apply IH in Hloop as [->|(j & Hj & -> & Hq & Hbelow)].
      * exists i. split; [lia|]. split; [done|]. split; [done|].
        intros k Hk. lia.
      * exists j. split; [lia|]. split; [done|]. split; [done|].
        intros k Hk. destruct (decide (k = i)) as [->|Hne]; [done|].
        apply Hbelow. lia.
    + intros [= <-]. by left.
Qed.

Lemma resolve_items_first_free fs items used resolved out :
  resolve_items fs items used resolved = Done out →
  ∃ new,
    out = resolved ++ new
    ∧ ∀ k item it,
        items !! k = Some item → new !! k = Some it →
        dst it = dst item
        ∨ ∃ j, 1 ≤ j
               ∧ dst it = dup_candidate (parent (dst item)) (stem (dst item))
                            (suffix (dst item)) j
               ∧ (blocked fs used (dst item)
                  ∨ dst item ∈ dst <$> take k new)
               ∧ ∀ m, 1 ≤ m < j →
                      blocked fs used
                        (dup_candidate (parent (dst item)) (stem (dst item))
                           (suffix (dst item)) m)
                      ∨ dup_candidate (parent (dst item)) (stem (dst item))
                          (suffix (dst item)) m ∈ dst <$> take k new.
Proof.
  revert used resolved.
  induction items as [|item items IH]; intros used resolved;
    cbn [resolve_items].
  - intros [= <-]. exists []. rewrite app_nil_r. split; [done|].
    by intros k item it ?.
  - destruct (dup_loop fs used _ _ _ _ _) as [d| |] eqn:Hloop; [|done..].
    apply dup_loop_first_free in Hloop. intros Hres.
    apply IH in Hres as (new & -> & Hnew).
    exists (mkItem (src item) d :: new). split; [by rewrite <- app_assoc|].
    intros [|k] item' it Hitem Hit.
    + injection Hitem as <-. injection Hit as <-. cbn [dst].
      destruct Hloop as [->|(j & Hj & -> & Hb & Hbelow)]; [by left|].
      right. exists j. split; [done|]. split; [done|].
      split; [by left|]. intros m Hm. left. by apply Hbelow.
    + cbn [lookup list_lookup] in Hitem, Hit.
      assert (Hshift : ∀ p,
                blocked fs ({[d]} ∪ used) p ∨ p ∈ dst <$> take k new →
                blocked fs used p
                ∨ p ∈ dst <$> take (S k) (mkItem (src item) d :: new)).
      { intros p [[Hex|Hin]|Hin].
        - left. by left.
        - apply elem_of_union in Hin as [->%elem_of_singleton|Hin].
          + right. cbn [take fmap list_fmap dst]. by left.
          + left. by right.
        - right. cbn [take fmap list_fmap dst]. by right. }
      destruct (Hnew k item' it Hitem Hit)
        as [Heq|(j & Hj & Heq & Htaken & Hbelow)]; [by left|].
      right. exists j. split; [done|]. split; [done|].
      split; [by apply Hshift|]. intros m Hm. by apply Hshift, Hbelow.
Qed.

(** X10.  The destination of a plan item is never taken: it does not
    exist in the directory and is not the destination of an earlier item.
    It is the name the builder gives the source, unless that name is
    taken; then it is the first of the names [base_dup1.mp3],
    [base_dup2.mp3], ... that is not taken: the built name and every
    variant with a smaller number are taken. *)
Theorem plan_renames_first_free `{Unicode} (fs : files)
    (audio_dir : list str) (targets : gset str) (romanize_names : bool)
    (unknown_date : str) (keep_suzuki_id : bool)
    (plan : list RenamePlanItem) (k : nat) (it : RenamePlanItem) :
  plan_renames fs audio_dir targets romanize_names unknown_date
    keep_suzuki_id = Done plan →
  plan !! k = Some it →
  ∃ parsed,
    parse_audio_name (name (src it)) unknown_date keep_suzuki_id
    = Some parsed
    ∧ let wanted :=
        mkPath (parent (src it)) (build_new_filename parsed romanize_names) in
      let taken p := path_exists fs p = true ∨ p ∈ dst <$> take k plan in
      ¬ taken (dst it)
      ∧ (dst it = wanted
         ∨ ∃ j, 1 ≤ j
                ∧ dst it = dup_candidate (parent wanted) (stem wanted)
                             (suffix wanted) j
                ∧ taken wanted
                ∧ ∀ m, 1 ≤ m < j →
                       taken (dup_candidate (parent wanted) (stem wanted)
                                (suffix wanted) m)).
Proof.
  intros (items & Hcollect & Hresolve)%plan_renames_parts Hit.
  apply collect_items_Ok in Hcollect as (new & -> & Hnew).
  pose proof Hresolve as (out & -> & Hout & Hfree & Hnodup)%resolve_items_Done.
  apply resolve_items_first_free in Hresolve as (out' & Heq & Hfirst).
  cbn [app] in *. subst out'.
  destruct (Forall2_lookup_r _ _ _ _ _ Hout Hit) as (item & Hitem & Hsrc & _).
  assert (Hcand : candidate fs romanize_names unknown_date keep_suzuki_id
                    item).
  { apply (proj1 (Forall_forall _ _) Hnew). apply list_elem_of_lookup. eauto. }
  destruct Hcand as (_ & parsed & Hparse & Hdst).
  exists parsed. rewrite Hsrc. split; [done|]. cbv zeta. rewrite <- Hdst.
  assert (Htaken : ∀ p, blocked fs ∅ p ∨ p ∈ dst <$> take k out →
                        path_exists fs p = true ∨ p ∈ dst <$> take k out).
  { intros p [[Hex|Hin]|Hin]; [by left| |by right].
    by apply elem_of_empty in Hin. }
  split.
  - intros [Hex|Hin].
    + apply (proj1 (Forall_forall _ _) Hfree it).
      * apply list_elem_of_lookup. eauto.
      * by left.
    + apply list_elem_of_fmap in Hin as (it' & Heq & Hin).
      apply list_elem_of_lookup in Hin as [k' Hk'].
      pose proof (lookup_lt_Some _ _ _ Hk') as Hlt.
      rewrite length_take in Hlt.
      rewrite lookup_take_lt in Hk' by lia.
      assert (k' = k); [|lia].
      apply (NoDup_lookup (dst <$> out) k' k (dst it)); [done|..].
      * by rewrite list_lookup_fmap, Hk', Heq.
      * by rewrite list_lookup_fmap, Hit.
  - destruct (Hfirst k item it Hitem Hit)
      as [Heq|(j & Hj & Heq & Hw & Hbelow)]; [by left|].
    right. exists j. split; [done|]. split; [done|].
    split; [by apply Htaken|]. intros m Hm. by apply Htaken, Hbelow.
Qed.

Lemma plan_renames_first_free_witness :
  ∃ parsed,
    @parse_audio_name plain_text
      (name (src (mkItem (mkPath sample_dir (u"鈴木_WAV_0018_001_滝.mp3"))
                    (mkPath sample_dir (u"鈴木_WAV_0018_001_滝_dup1.mp3")))))
      (u"WAV_0018_001") false
    = Some parsed
    ∧ let wanted :=
        mkPath
          (parent
             (src (mkItem (mkPath sample_dir (u"鈴木_WAV_0018_001_滝.mp3"))
                     (mkPath sample_dir (u"鈴木_WAV_0018_001_滝_dup1.mp3")))))
          (@build_new_filename plain_text parsed false) in
      let taken p :=
        path_exists settled_fs p = true
        ∨ p ∈ dst
              <$> take 0
                    [mkItem (mkPath sample_dir (u"鈴木_WAV_0018_001_滝.mp3"))
                       (mkPath sample_dir
                          (u"鈴木_WAV_0018_001_滝_dup1.mp3"))] in
      ¬ taken
          (dst (mkItem (mkPath sample_dir (u"鈴木_WAV_0018_001_滝.mp3"))
                  (mkPath sample_dir (u"鈴木_WAV_0018_001_滝_dup1.mp3"))))
      ∧ (dst (mkItem (mkPath sample_dir (u"鈴木_WAV_0018_001_滝.mp3"))
                (mkPath sample_dir (u"鈴木_WAV_0018_001_滝_dup1.mp3")))
         = wanted
         ∨ ∃ j, 1 ≤ j
                ∧ dst (mkItem
                         (mkPath sample_dir (u"鈴木_WAV_0018_001_滝.mp3"))
                         (mkPath sample_dir
                            (u"鈴木_WAV_0018_001_滝_dup1.mp3")))
                  = dup_candidate (parent wanted) (stem wanted)
                      (suffix wanted) j
                ∧ taken wanted
                ∧ ∀ m, 1 ≤ m < j →
                       taken (dup_candidate (parent wanted) (stem wanted)
                                (suffix wanted) m)).
Proof.
  apply (@plan_renames_first_free plain_text settled_fs sample_dir
           {[ u"鈴木" ]} false (u"WAV_0018_001") false
           [mkItem (mkPath sample_dir (u"鈴木_WAV_0018_001_滝.mp3"))
              (mkPath sample_dir (u"鈴木_WAV_0018_001_滝_dup1.mp3"))]
           0
           (mkItem (mkPath sample_dir (u"鈴木_WAV_0018_001_滝.mp3"))
              (mkPath sample_dir (u"鈴木_WAV_0018_001_滝_dup1.mp3")))).
  - vm_compute; reflexivity.
  - reflexivity.
Defined.

(** *** When the planner raises *)

Lemma uint_codes_no_slash d : chr_slash ∉ uint_codes d.
Proof.
  unfold chr_slash.
  induction d; simpl; [apply not_elem_of_nil|..];
    (apply not_elem_of_cons; split; [done|exact IHd]).
Qed.

Lemma str_of_nat_no_slash i : chr_slash ∉ str_of_nat i.
Proof. unfold str_of_nat. rewrite utf8_string_of_uint. apply uint_codes_no_slash. Qed.

Lemma valid_name_iff nm :
  valid_name nm = true ↔ nm ≠ [] ∧ nm ≠ [chr_dot] ∧ chr_slash ∉ nm.
Proof.
  unfold valid_name.
  rewrite !andb_true_iff, !negb_true_iff, !bool_decide_eq_false. tauto.
Qed.

Lemma with_name_ValueError p nm :
  with_name p nm = ValueError ↔ name p = [] ∨ valid_name nm = false.
Proof.
  unfold with_name. destruct (valid_name nm).
  - rewrite andb_true_r. case_bool_decide as Hp; cbn [negb].
    + split; [by left|done].
    + split; [done|]. by intros [?|?].
  - rewrite andb_false_r. split; [by right|done].
Qed.

Lemma stem_suffix_no_slash p :
  chr_slash ∉ name p → (chr_slash ∉ stem p) ∧ (chr_slash ∉ suffix p).
Proof.
  intros Hno. unfold stem, suffix.
  destruct (rfind chr_dot (name p)) as [i|];
    [|split; [done|apply not_elem_of_nil]].
  destruct (bool_decide (0 < i) && bool_decide (i + 1 < length (name p)));
    [|split; [done|apply not_elem_of_nil]].
  rewrite <- (take_drop i (name p)), elem_of_app in Hno. tauto.
Qed.

Lemma dup_name_valid base suffix i :
  chr_slash ∉ base → chr_slash ∉ suffix →
  valid_name (base ++ u"_dup" ++ str_of_nat i ++ suffix) = true.
Proof.
  intros Hbase Hsuffix. apply valid_name_iff.
  assert (Hlen : 4 ≤ length (base ++ u"_dup" ++ str_of_nat i ++ suffix)).
  { rewrite !length_app. change (length (u"_dup")) with 4. lia. }
  split; [|split].
  - intros Heq. rewrite Heq in Hlen. simpl in Hlen. lia.
  - intros Heq. rewrite Heq in Hlen. simpl in Hlen. lia.
  - rewrite !elem_of_app.
    pose proof (str_of_nat_no_slash i).
    assert (chr_slash ∉ u"_dup") by compute_done. tauto.
Qed.

Lemma dup_loop_not_Raised fs used base suffix fuel dst i :
  name dst ≠ [] → chr_slash ∉ base → chr_slash ∉ suffix →
  dup_loop fs used base suffix fuel dst i ≠ Raised.
Proof.
  intros Hname Hbase Hsuffix. revert dst i Hname.
  induction fuel as [|fuel IH]; intros dst i Hname; cbn [dup_loop].
  - by destruct (path_exists fs dst || bool_decide (dst ∈ used)).
  - destruct (path_exists fs dst || bool_decide (dst ∈ used)); [|done].
    pose proof (dup_name_valid base suffix i Hbase Hsuffix) as Hvalid.
    destruct (with_name dst _) as [q|] eqn:Hq.
    + apply with_name_Ok in Hq as [-> _]. apply IH. cbn [name].
      intros Heq. rewrite Heq in Hvalid. done.
    + apply with_name_ValueError in Hq as [?|Hq]; [done|]. congruence.
Qed.

Lemma resolve_items_not_Raised fs items used resolved :
  Forall (λ it, valid_name (name (dst it)) = true) items →
  resolve_items fs items used resolved ≠ Raised.
Proof.
  intros Hvalid. revert used resolved.
  induction Hvalid as [|item items Hv _ IH]; intros used resolved;
    cbn [resolve_items]; [done|].
  apply valid_name_iff in Hv as (Hne & _ & Hno).
  apply stem_suffix_no_slash in Hno as [Hstem Hsuffix].
  pose proof (dup_loop_not_Raised fs used (stem (dst item))
                (suffix (dst item)) (S (size fs + size used)) (dst item) 1
                Hne Hstem Hsuffix) as Hloop.
  destruct (dup_loop fs used _ _ _ _ _) as [d| |]; [apply IH|done|done].
Qed.

Section Raises.
Context `{Unicode}.
Context (fs : files) (audio_dir : list str) (targets : gset str)
  (romanize_names : bool) (unknown_date : str) (keep_suzuki_id : bool).

Local Abbreviation collect :=
  (collect_items fs targets romanize_names unknown_date keep_suzuki_id).
Local Abbreviation refused entry :=
  (eligible fs targets unknown_date keep_suzuki_id entry = true
   ∧ ∃ parsed,
       parse_audio_name (name entry) unknown_date keep_suzuki_id
       = Some parsed
       ∧ with_name entry (build_new_filename parsed romanize_names)
         = ValueError).

Lemma collect_items_valid entries items0 items :
  collect entries items0 = Ok items →
  Forall (λ it, valid_name (name (dst it)) = true) items0 →
  Forall (λ it, valid_name (name (dst it)) = true) items.
Proof.
  revert items0. induction entries as [|entry entries IH]; intros items0.
  - by intros [= <-].
  - destruct (eligible fs targets unknown_date keep_suzuki_id entry) eqn:Hok.
    + destruct (collect_items_take fs targets romanize_names unknown_date
                  keep_suzuki_id entry entries items0 Hok)
        as (parsed & _ & _ & ->).
      destruct (with_name _ _) as [d|] eqn:Hd; [|done].
      apply with_name_Ok in Hd as [-> Hv]. intros Hc Hitems0.
      apply (IH _ Hc). apply Forall_app. split; [done|]. by constructor.
    + rewrite collect_items_skip by done. apply IH.
Qed.

Lemma collect_items_ValueError entries items0 :
  collect entries items0 = ValueError ↔ ∃ entry, entry ∈ entries ∧ refused entry.
Proof.
  revert items0. induction entries as [|entry entries IH]; intros items0.
  - split; [done|]. by intros (entry & ?%elem_of_nil & _).
  - destruct (eligible fs targets unknown_date keep_suzuki_id entry) eqn:Hok.
    + destruct (collect_items_take fs targets romanize_names unknown_date
                  keep_suzuki_id entry entries items0 Hok)
        as (parsed & Hparse & _ & ->).
      destruct (with_name _ _) as [d|] eqn:Hd.
      * rewrite IH. split.
        -- intros (e & He & Hr). exists e. split; [by right|done].
        -- intros (e & [->|He]%elem_of_cons & Hr); [|by exists e].
           destruct Hr as (_ & parsed' & Hparse' & Hraise). congruence.
      * split; [|done]. intros _. exists entry. split; [by left|].
        split; [done|]. by exists parsed.
    + rewrite collect_items_skip by done. rewrite IH. split.
      * intros (e & He & Hr). exists e. split; [by right|done].
      * intros (e & [->|He]%elem_of_cons & Hr); [|by exists e].
        destruct Hr as (Hok' & _). congruence.
Qed.

Lemma plan_renames_Raised :
  plan_renames fs audio_dir targets romanize_names unknown_date
    keep_suzuki_id = Raised
  ↔ ∃ entry, entry ∈ iterdir fs audio_dir ∧ refused entry.
Proof.
  assert (Hperm : ∀ entry, entry ∈ sorted (iterdir fs audio_dir)
                           ↔ entry ∈ iterdir fs audio_dir).
  { intros entry. unfold sorted. by rewrite merge_sort_Permutation. }
  pose proof (collect_items_ValueError (sorted (iterdir fs audio_dir)) [])
    as Hraise.
  unfold plan_renames.
  destruct (collect_items _ _ _ _ _ _ _) as [items|] eqn:Hcollect.
  - apply collect_items_valid in Hcollect; [|constructor].
    pose proof (resolve_items_not_Raised fs items ∅ [] Hcollect) as Hres.
    destruct (resolve_items fs items ∅ []); split; try done.
    all: intros (entry & Hin%Hperm & Hr).
    all: assert (@Ok (list RenamePlanItem) items = ValueError); [|done].
    all: apply Hraise; eauto.
  - split; [|done]. intros _.
    destruct (proj1 Hraise eq_refl) as (entry & Hin%Hperm & Hr). eauto.
Qed.

End Raises.

(** X11.  The rename planner raises [ValueError] only when the directory
    holds an eligible entry whose built name contains a slash (or whose
    own name is empty, which no directory listing yields): the
    [with_name] of the first loop is the only call that raises it, and the
    [with_name] of the collision loop never does, since the stem and
    suffix of a valid name and the decimal numeral of the counter contain
    no slash.  Conversely, when the directory holds such an entry the
    planner returns no plan. *)
Theorem plan_renames_value_error `{Unicode} (fs : files)
    (audio_dir : list str) (targets : gset str) (romanize_names : bool)
    (unknown_date : str) (keep_suzuki_id : bool) :
  (plan_renames fs audio_dir targets romanize_names unknown_date
     keep_suzuki_id = Raised
   → unnameable_entry fs audio_dir targets romanize_names unknown_date
       keep_suzuki_id)
  ∧ (unnameable_entry fs audio_dir targets romanize_names unknown_date
       keep_suzuki_id
     → ∀ plan, plan_renames fs audio_dir targets romanize_names unknown_date
                 keep_suzuki_id ≠ Done plan).
Proof.
  assert (Hbuilt : ∀ parsed,
            valid_name (build_new_filename parsed romanize_names) = false
            ↔ chr_slash ∈ build_new_filename parsed romanize_names).
  { intros parsed.
    destruct (build_new_filename_mp3 parsed romanize_names)
      as (joined & Hne & Hname).
    destruct (valid_name _) eqn:Hv.
    - apply valid_name_iff in Hv as (_ & _ & Hno). split; [done|].
      intros Hin. by destruct Hno.
    - split; [|done]. intros _.
      destruct (decide (chr_slash ∈ build_new_filename parsed romanize_names))
        as [Hin|Hno]; [done|].
      assert (Hv' : valid_name (build_new_filename parsed romanize_names)
                    = true); [|congruence].
      apply valid_name_iff. rewrite Hname. split; [|split].
      + by intros [? _]%app_eq_nil.
      + intros Heq%(f_equal length). rewrite length_app in Heq.
        change (length (u".mp3")) with 4 in Heq. simpl in Heq. lia.
      + by rewrite <- Hname. }
  split.
  - intros (entry & Hin & Hok & parsed & Hparse & Hraise)%plan_renames_Raised.
    exists entry, parsed. repeat (split; [done|]).
    apply with_name_ValueError in Hraise as [?|Hv]; [by left|].
    right. by apply Hbuilt.
  - intros (entry & parsed & Hin & Hok & Hparse & Hwhy) plan Hplan.
    assert (Hraised : plan_renames fs audio_dir targets romanize_names
                        unknown_date keep_suzuki_id = Raised);
      [|congruence].
    apply plan_renames_Raised.
    exists entry. split; [done|]. split; [done|]. exists parsed.
    split; [done|]. apply with_name_ValueError.
    destruct Hwhy as [?|Hslash]; [by left|]. right. by apply Hbuilt.
Qed.

(** A placeholder date with a slash makes the planner raise on the sample
    directory: the name built for the recording of 鈴木 would contain
    it. *)
Example plan_renames_raises_on_slash :
  @plan_renames plain_text sample_fs sample_dir sample_targets false
    (u"2025/10") true = Raised.
Proof. vm_compute; reflexivity. Qed.

(** ** More on the assignment planners *)

Section Exact.
Context `{Unicode}.
Context (spots : list Spot) (romanize_names : bool).

Local Abbreviation t2s := (title_to_spot spots).

Lemma assign_all_unmapped_eq cands a um :
  (assign_all spots romanize_names cands (a, um)).2
  = um ++ (snd <$> filter (λ c, spot_for spots c = None) cands).
Proof.
  induction cands as [|c cands IH] using rev_ind.
  - by rewrite app_nil_r.
  - rewrite assign_all_snoc, filter_app, fmap_app, app_assoc, <- IH.
    destruct (assign_all spots romanize_names cands _) as [a' um'].
    rewrite assign_track_cases, filter_cons, filter_nil. cbn [snd].
    unfold spot_for.
    destruct (guess_spot_title _) as [title|]; [|by rewrite decide_True].
    case_bool_decide; [by rewrite decide_True|].
    destruct (dict_get title t2s) as [i|]; [|by rewrite decide_True].
    rewrite decide_False by done. rewrite app_nil_r.
    by destruct (in_playlist _ _ _).
Qed.

Lemma dict_get_no_additions_Some title i :
  dict_get title t2s = Some i → dict_get title (no_additions spots) = Some [].
Proof.
  intros Hi.
  destruct (dict_get title (no_additions spots)) as [tracks|] eqn:Hget.
  - by apply dict_get_no_additions in Hget as ->.
  - apply dict_get_None in Hget. rewrite no_additions_keys in Hget.
    destruct Hget. apply list_elem_of_fmap. exists (title, i).
    split; [done|]. by apply dict_get_elem.
Qed.

Lemma assign_all_tracks_eq cands um title i :
  title ≠ [] → dict_get title t2s = Some i →
  dict_get title
    (assign_all spots romanize_names cands (no_additions spots, um)).1
  = Some (new_tracks spots romanize_names title i cands).
Proof.
  intros Hne Hi. unfold new_tracks.
  induction cands as [|c cands IH] using rev_ind.
  - by apply dict_get_no_additions_Some with i.
  - rewrite assign_all_snoc, filter_app, fmap_app.
    destruct (assign_all spots romanize_names cands _) as [a um'].
    cbn [fst] in IH. rewrite assign_track_cases, filter_cons, filter_nil.
    destruct (guess_spot_title (descriptor c.1)) as [title'|] eqn:Hguess.
    2:{ rewrite decide_False by (by intros [? _]).
        by rewrite app_nil_r. }
    case_bool_decide as Hempty.
    { rewrite decide_False by (intros [[= ->] _]; done).
      by rewrite app_nil_r. }
    destruct (dict_get title' t2s) as [i'|] eqn:Hi'.
    2:{ rewrite decide_False by (intros [[= ->] _]; congruence).
        by rewrite app_nil_r. }
    destruct (in_playlist spots i' _) eqn:Hpl.
    { rewrite decide_False; [by rewrite app_nil_r|].
      intros [[= ->] Hpl']. congruence. }
    cbn [fst]. rewrite dict_get_alter.
    destruct (decide (title' = title)) as [->|Hother].
    + rewrite IH. assert (i' = i) as -> by congruence.
      by rewrite decide_True.
    + rewrite decide_False by (intros [[= ->] _]; done).
      by rewrite app_nil_r.
Qed.

Lemma assign_all_files_as cands :
  files_as spots romanize_names cands
    (let st := assign_all spots romanize_names cands (no_additions spots, [])
     in (prune st.1, st.2)).
Proof.
  cbv zeta. split; cbn [fst snd].
  - by rewrite assign_all_unmapped_eq.
  - intros title tracks. rewrite prune_elem. split.
    + intros [Hin Htracks].
      apply dict_elem_get in Hin; [|apply assign_all_NoDup].
      assert (Hkey : title ∈ t2s.*1).
      { pose proof (assign_all_keys spots romanize_names cands
                      (no_additions spots, [])) as Hkeys.
        cbn [fst] in Hkeys. rewrite no_additions_keys in Hkeys.
        rewrite <- Hkeys. apply list_elem_of_fmap. exists (title, tracks). split; [done|].
        by apply dict_get_elem. }
      destruct (dict_get title t2s) as [i|] eqn:Hi;
        [|by apply dict_get_None in Hi].
      destruct (decide (title = [])) as [->|Hne].
      * destruct tracks as [|track tracks]; [done|].
        destruct (assign_all_sound spots romanize_names cands [] []
                    (track :: tracks) track Hin) as (c & j & _ & _ & Hne & _);
          [by left|done].
      * split; [done|]. split; [done|]. exists i. split; [done|].
        rewrite assign_all_tracks_eq with (i := i) in Hin by done.
        congruence.
    + intros (Htracks & Hne & i & Hi & ->). split; [|done].
      apply dict_get_elem. by apply assign_all_tracks_eq.
Qed.

End Exact.

(** X12.  Every track [plan_spots_additions] plans comes from one of the
    audio files it was given: the descriptor it was classified and named
    by is parsed from the name of that file, and its playlist file path
    is audio/ followed by that same name. *)
Theorem plan_spots_additions_tracks `{Unicode} (spots : list Spot)
    (audio_files : list Path) (audio_dir : list str) (unknown_date : str)
    (keep_suzuki_id romanize_names : bool) (targets : gset str)
    (title : str) (tracks : list Track) (track : Track) :
  (title, tracks)
    ∈ (plan_spots_additions spots audio_files audio_dir unknown_date
         keep_suzuki_id romanize_names targets).1 →
  track ∈ tracks →
  ∃ f,
    f ∈ audio_files
    ∧ lower (suffix f) = u".mp3"
    ∧ derived_from unknown_date keep_suzuki_id romanize_names
        (name f) (name f) title track.
Proof.
  intros Hin Htrack.
  rewrite plan_spots_additions_assign_all in Hin. cbn [fst] in Hin.
  apply prune_elem in Hin as [Hin _].
  apply dict_elem_get in Hin; [|apply assign_all_NoDup].
  destruct (assign_all_sound _ _ _ _ _ _ _ Hin Htrack)
    as (c & i & Hc & Hguess & _ & _ & _ & ->).
  apply list_elem_of_omap in Hc as (f & Hf & Hclass).
  exists f. split.
  { unfold sorted in Hf. by rewrite merge_sort_Permutation in Hf. }
  unfold classify_file in Hclass.
  destruct (bool_decide (lower (suffix f) = u".mp3")) eqn:Hmp3; [|done].
  apply bool_decide_eq_true in Hmp3. split; [done|]. cbn [negb] in Hclass.
  destruct (re_match _ _) as [[|who [|? ?]]|]; try done.
  destruct (negb _); [done|].
  destruct (parse_audio_name _ _ _) as [parsed|] eqn:Hparse; [|done].
  injection Hclass as <-. by exists parsed.
Qed.

Lemma plan_spots_additions_tracks_witness :
  ∃ f,
    f ∈ [mkPath sample_dir (u"塚本20251012_121402公園内散策_野球.mp3")]
    ∧ @lower plain_text (suffix f) = u".mp3"
    ∧ @derived_from plain_text (u"UnknownDate") true false
        (name f) (name f) (u"多目的広場")
        {| track_name := Some (u"塚本:公園内散策_野球");
           track_file :=
             Some (u"audio/塚本20251012_121402公園内散策_野球.mp3") |}.
Proof.
  apply (@plan_spots_additions_tracks plain_text sample_spots
           [mkPath sample_dir (u"塚本20251012_121402公園内散策_野球.mp3")]
           sample_dir (u"UnknownDate") true false sample_targets
           (u"多目的広場")
           [ {| track_name := Some (u"塚本:公園内散策_野球");
                track_file :=
                  Some (u"audio/塚本20251012_121402公園内散策_野球.mp3") |} ]).
  - replace (@plan_spots_additions plain_text sample_spots
               [mkPath sample_dir (u"塚本20251012_121402公園内散策_野球.mp3")]
               sample_dir (u"UnknownDate") true false sample_targets).1
      with [ (u"多目的広場",
              [ {| track_name := Some (u"塚本:公園内散策_野球");
                   track_file :=
                     Some (u"audio/塚本20251012_121402公園内散策_野球.mp3") |} ]) ]
      by (vm_compute; reflexivity).
    apply list_elem_of_here.
  - apply list_elem_of_here.
Defined.

(** X13.  The additions either planner returns are well formed, whatever
    the records: the titles are pairwise distinct, none is empty, each is
    the title of the object its dictionary entry refers to, no list of
    tracks is empty, and no planned track has a file that the playlist of
    its spot already lists. *)
Theorem additions_well_formed `{Unicode} (spots : list Spot)
    (rename_plan : list RenamePlanItem) (audio_files : list Path)
    (audio_dir : list str) (unknown_date : str)
    (keep_suzuki_id romanize_names : bool) (targets : gset str) :
  well_formed spots
    (plan_spots_additions_from_rename_plan spots rename_plan unknown_date
       keep_suzuki_id romanize_names targets).1
  ∧ well_formed spots
      (plan_spots_additions spots audio_files audio_dir unknown_date
         keep_suzuki_id romanize_names targets).1.
Proof.
  assert (Hall : ∀ cands,
    well_formed spots
      (prune (assign_all spots romanize_names cands
                (no_additions spots, [])).1)).
  { intros cands. split; [|split].
    - unfold prune. eapply sublist_NoDup; [|apply fmap_sublist, sublist_filter].
      apply assign_all_NoDup.
    - intros title tracks Hin.
      pose proof (assign_all_files_as spots romanize_names cands)
        as [_ Hchar].
      cbv zeta in Hchar. cbn [fst] in Hchar.
      apply Hchar in Hin as (Htracks & Hne & i & Hi & _).
      split; [done|]. split; [done|].
      destruct (title_to_spot_lookup _ _ _ Hi) as (spot & Hspot & Htitle).
      by exists i, spot.
    - apply assign_all_no_duplicates. }
  rewrite plan_from_rename_plan_assign_all.
  rewrite plan_spots_additions_assign_all. cbn [fst]. split; apply Hall.
Qed.

(** X14.  What the planners return, exactly.  Of the candidates a planner
    loop lets through, in order, the unmapped paths are those of the
    candidates that have no spot (no keyword matches, or no object has
    the title), and the additions hold for each title of an object the
    tracks of the candidates classified under it whose file its playlist
    does not list yet, in the order of the candidates; titles without
    such a track are left out. *)
Theorem planners_exact `{Unicode} (spots : list Spot)
    (rename_plan : list RenamePlanItem) (audio_files : list Path)
    (audio_dir : list str) (unknown_date : str)
    (keep_suzuki_id romanize_names : bool) (targets : gset str) :
  files_as spots romanize_names
    (omap (classify_item unknown_date keep_suzuki_id targets) rename_plan)
    (plan_spots_additions_from_rename_plan spots rename_plan unknown_date
       keep_suzuki_id romanize_names targets)
  ∧ files_as spots romanize_names
      (omap (classify_file unknown_date keep_suzuki_id targets)
         (sorted audio_files))
      (plan_spots_additions spots audio_files audio_dir unknown_date
         keep_suzuki_id romanize_names targets).
Proof.
  rewrite plan_from_rename_plan_assign_all.
  rewrite plan_spots_additions_assign_all.
  split; apply assign_all_files_as.
Qed.

(** *** No file is planned twice *)

Lemma Path_eq (p q : Path) : parent p = parent q → name p = name q → p = q.
Proof. destruct p, q; simpl; congruence. Qed.

Lemma NoDup_fmap_elem {A B} (f : A → B) (l : list A) x y :
  NoDup (f <$> l) → x ∈ l → y ∈ l → f x = f y → x = y.
Proof.
  intros Hnd [a Ha]%list_elem_of_lookup [b Hb]%list_elem_of_lookup Hf.
  assert (a = b) as ->; [|congruence].
  apply (NoDup_lookup (f <$> l) a b (f x)); [done|..].
  - by rewrite list_lookup_fmap, Ha.
  - by rewrite list_lookup_fmap, Hb, Hf.
Qed.

Lemma omap_names_NoDup {A} (g : A → option (ParsedAudioName * Path))
    (nm : A → str) (l : list A) :
  (∀ x c, g x = Some c → name c.2 = nm x) →
  NoDup (nm <$> l) → NoDup ((λ c, name c.2) <$> omap g l).
Proof.
  intros Hg. induction l as [|x l IH]; [done|].
  rewrite fmap_cons. intros [Hx Hl]%NoDup_cons. cbn [omap list_omap].
  destruct (g x) as [c|] eqn:Hc; [|by apply IH].
  rewrite fmap_cons. apply NoDup_cons. split; [|by apply IH].
  intros (c' & Hname & (y & Hy & Hc')%list_elem_of_omap)%list_elem_of_fmap.
  apply Hx. apply list_elem_of_fmap. exists y. split; [|done].
  rewrite <- (Hg x c Hc), <- (Hg y c' Hc'). done.
Qed.

Lemma files_as_distinct `{Unicode} spots romanize_names cands result :
  files_as spots romanize_names cands result →
  NoDup ((λ c, name c.2) <$> cands) →
  distinct_files result.1.
Proof.
  intros [_ Hchar] Hnd title1 tracks1 k1 t1 title2 tracks2 k2 t2
    Hin1 Hk1 Hin2 Hk2 Hfile.
  apply Hchar in Hin1 as (_ & _ & i1 & Hi1 & ->).
  apply Hchar in Hin2 as (_ & _ & i2 & Hi2 & ->).
  unfold new_tracks in Hk1, Hk2. rewrite list_lookup_fmap in Hk1, Hk2.
  destruct (filter _ cands !! k1) as [c1|] eqn:Hc1; [|done].
  destruct (filter _ cands !! k2) as [c2|] eqn:Hc2; [|done].
  injection Hk1 as <-. injection Hk2 as <-.
  cbn [track_for track_file] in Hfile. injection Hfile as Hname.
  pose proof (list_elem_of_lookup_2 _ _ _ Hc1) as [[Hg1 _] Hin1]%list_elem_of_filter.
  pose proof (list_elem_of_lookup_2 _ _ _ Hc2) as [[Hg2 _] Hin2]%list_elem_of_filter.
  assert (c1 = c2) as <-
    by (by apply (NoDup_fmap_elem (λ c, name c.2) cands)).
  assert (title1 = title2) as <- by congruence.
  split; [done|]. assert (i1 = i2) as <- by congruence.
  eapply NoDup_lookup; [|exact Hc1|exact Hc2].
  eapply sublist_NoDup; [|apply sublist_filter].
  by apply NoDup_fmap_1 in Hnd.
Qed.

Lemma planned_files_distinct_names `{Unicode} (spots : list Spot)
    (rename_plan : list RenamePlanItem) (unknown_date : str)
    (keep_suzuki_id romanize_names : bool) (targets : gset str) :
  NoDup ((λ it, name (dst it)) <$> rename_plan) →
  distinct_files
    (plan_spots_additions_from_rename_plan spots rename_plan unknown_date
       keep_suzuki_id romanize_names targets).1.
Proof.
  intros Hnd.
  apply files_as_distinct
    with spots romanize_names
         (omap (classify_item unknown_date keep_suzuki_id targets)
            rename_plan).
  - rewrite plan_from_rename_plan_assign_all. apply assign_all_files_as.
  - apply omap_names_NoDup with (nm := λ it, name (dst it)); [|done].
    intros it c. unfold classify_item.
    destruct (parse_audio_name _ _ _); [|done].
    destruct (negb _); [done|]. by intros [= <-].
Qed.

(** X15.  When the destinations of a rename plan have pairwise distinct
    names, the planner plans no file twice: two tracks of its additions
    with the same file are the same entry of the same list. *)
Theorem planned_files_distinct `{Unicode} (spots : list Spot)
    (rename_plan : list RenamePlanItem) (unknown_date : str)
    (keep_suzuki_id romanize_names : bool) (targets : gset str) :
  NoDup ((λ it, name (dst it)) <$> rename_plan) →
  distinct_files
    (plan_spots_additions_from_rename_plan spots rename_plan unknown_date
       keep_suzuki_id romanize_names targets).1.
Proof. apply planned_files_distinct_names. Qed.

Lemma planned_files_distinct_witness :
  distinct_files
    (@plan_spots_additions_from_rename_plan plain_text sample_spots
       sample_plan (u"UnknownDate") true false sample_targets).1.
Proof.
  apply (@planned_files_distinct plain_text sample_spots sample_plan
           (u"UnknownDate") true false sample_targets).
  compute_done.
Defined.

(** X16.  The same for [plan_spots_additions], when the audio files have
    pairwise distinct names, as the files of one directory have. *)
Theorem listed_files_distinct `{Unicode} (spots : list Spot)
    (audio_files : list Path) (audio_dir : list str) (unknown_date : str)
    (keep_suzuki_id romanize_names : bool) (targets : gset str) :
  NoDup (name <$> audio_files) →
  distinct_files
    (plan_spots_additions spots audio_files audio_dir unknown_date
       keep_suzuki_id romanize_names targets).1.
Proof.
  intros Hnd.
  apply files_as_distinct
    with spots romanize_names
         (omap (classify_file unknown_date keep_suzuki_id targets)
            (sorted audio_files)).
  - rewrite plan_spots_additions_assign_all. apply assign_all_files_as.
  - apply omap_names_NoDup with (nm := name).
    + intros f c. unfold classify_file. destruct (negb _); [done|].
      destruct (re_match _ _) as [[|who [|? ?]]|]; try done.
      destruct (negb _); [done|].
      destruct (parse_audio_name _ _ _); [|done]. by intros [= <-].
    + unfold sorted. by rewrite merge_sort_Permutation.
Qed.

Lemma listed_files_distinct_witness :
  distinct_files
    (@plan_spots_additions plain_text sample_spots (src <$> sample_plan)
       sample_dir (u"UnknownDate") true false sample_targets).1.
Proof.
  apply (@listed_files_distinct plain_text sample_spots (src <$> sample_plan)
           sample_dir (u"UnknownDate") true false sample_targets).
  compute_done.
Defined.

(** X17.  Planning the renames of a directory and then the additions from
    that plan never plans a file twice: the destinations of the plan are
    distinct paths of one directory, so their names are distinct. *)
Theorem plan_then_assign_distinct `{Unicode} (fs : files)
    (audio_dir : list str) (targets : gset str) (romanize_names : bool)
    (unknown_date : str) (keep_suzuki_id : bool)
    (plan : list RenamePlanItem) (spots : list Spot) :
  plan_renames fs audio_dir targets romanize_names unknown_date
    keep_suzuki_id = Done plan →
  NoDup ((λ it, name (dst it)) <$> plan)
  ∧ distinct_files
      (plan_spots_additions_from_rename_plan spots plan unknown_date
         keep_suzuki_id romanize_names targets).1.
Proof.
  intros Hplan.
  assert (Hnd : NoDup ((λ it, name (dst it)) <$> plan));
    [|split; [done|by apply planned_files_distinct_names]].
  pose proof Hplan as (items & Hcollect & Hresolve)%plan_renames_parts.
  apply collect_items_Ok in Hcollect as (new & -> & Hnew).
  apply resolve_items_Done in Hresolve as (out & -> & Hout & _ & Hdst).
  cbn [app] in *.
  assert (Hparent : Forall (λ it, parent (dst it) = audio_dir) out).
  { apply Forall_forall. intros it Hit.
    apply list_elem_of_lookup in Hit as [k Hk].
    destruct (Forall2_lookup_r _ _ _ _ _ Hout Hk) as (item & Hitem & Hres).
    destruct (proj1 (Forall_forall _ _) Hnew item) as [Hin Hcand];
      [apply list_elem_of_lookup; eauto|].
    destruct (resolved_destination fs romanize_names unknown_date
                keep_suzuki_id item it Hcand Hres) as [Hpar _].
    rewrite Hpar. destruct Hres as [-> _].
    unfold sorted in Hin. rewrite merge_sort_Permutation in Hin.
    by apply iterdir_parent in Hin. }
  clear Hout Hnew Hplan. induction out as [|it out IH]; [constructor|].
  rewrite fmap_cons in Hdst. rewrite fmap_cons.
  apply NoDup_cons in Hdst as [Hit Hdst].
  apply Forall_cons_1 in Hparent as [Hp Hparent].
  apply NoDup_cons. split; [|by apply IH].
  intros (it' & Hname & Hin)%list_elem_of_fmap. apply Hit.
  apply list_elem_of_fmap. exists it'. split; [|done].
  pose proof (proj1 (Forall_forall _ _) Hparent it' Hin) as Hp'.
  cbv beta in Hname. apply Path_eq; congruence.
Qed.

Lemma plan_then_assign_distinct_witness :
  NoDup ((λ it, name (dst it)) <$> sample_plan)
  ∧ distinct_files
      (@plan_spots_additions_from_rename_plan plain_text sample_spots
         sample_plan (u"UnknownDate") true false sample_targets).1.
Proof.
  apply (@plan_then_assign_distinct plain_text sample_fs sample_dir
           sample_targets false (u"UnknownDate") true sample_plan
           sample_spots).
  vm_compute; reflexivity.
Defined.

(** ** More on the title dictionary and the merge *)

Lemma title_index_snoc spots s i d :
  title_index (spots ++ [s]) i d
  = dict_set (title_of s) (i + length spots) (title_index spots i d).
Proof.
  revert i d. induction spots as [|s' spots IH]; intros i d; simpl.
  - by rewrite Nat.add_0_r.
  - rewrite IH. f_equal. lia.
Qed.

Lemma title_to_spot_snoc spots s t :
  dict_get t (title_to_spot (spots ++ [s]))
  = if decide (title_of s = t) then Some (length spots)
    else dict_get t (title_to_spot spots).
Proof.
  unfold title_to_spot. by rewrite title_index_snoc, dict_get_set.
Qed.

(** X18.  The title dictionary both planners and the merge build refers,
    for each title, to the last object of the records with that title: an
    earlier object with the same title is never looked at. *)
Theorem title_to_spot_last (spots : list Spot) (t : str) (i : nat) :
  dict_get t (title_to_spot spots) = Some i
  ↔ (∃ spot, spots !! i = Some spot ∧ title_of spot = t)
    ∧ ∀ j spot, i < j → spots !! j = Some spot → title_of spot ≠ t.
Proof.
  revert i. induction spots as [|s spots IH] using rev_ind; intros i.
  - split; [done|]. by intros [(s & Hs & _) _].
  - rewrite title_to_spot_snoc. destruct (decide (title_of s = t)) as [Ht|Ht].
    + split.
      * intros [= <-]. split.
        -- exists s. split; [|done].
           by rewrite lookup_app_r, Nat.sub_diag by lia.
        -- intros j s' Hj Hs'. apply lookup_lt_Some in Hs'.
           rewrite length_app in Hs'. simpl in Hs'. lia.
      * intros [(s' & Hs' & _) Hlast]. f_equal.
        pose proof (lookup_lt_Some _ _ _ Hs') as Hlt.
        rewrite length_app in Hlt. simpl in Hlt.
        destruct (decide (i = length spots)) as [->|Hne]; [done|].
        destruct (Hlast (length spots) s); [lia| |done].
        by rewrite lookup_app_r, Nat.sub_diag by lia.
    + rewrite IH. split.
      * intros [(s' & Hs' & Hts') Hlast].
        pose proof (lookup_lt_Some _ _ _ Hs') as Hlt. split.
        -- exists s'. split; [|done]. by rewrite lookup_app_l.
        -- intros j s'' Hj Hs''.
           destruct (decide (j < length spots)) as [Hjl|Hjl].
           ++ rewrite lookup_app_l in Hs'' by done. by eapply Hlast.
           ++ rewrite lookup_app_r in Hs'' by lia.
              destruct (j - length spots) as [|?] eqn:Hd; [|done].
              by injection Hs'' as <-.
      * intros [(s' & Hs' & Hts') Hlast].
        pose proof (lookup_lt_Some _ _ _ Hs') as Hlt.
        rewrite length_app in Hlt. simpl in Hlt.
        assert (i ≠ length spots).
        { intros ->. rewrite lookup_app_r, Nat.sub_diag in Hs' by lia.
          injection Hs' as <-. done. }
        rewrite lookup_app_l in Hs' by lia. split; [by exists s'|].
        intros j s'' Hj Hs''. apply (Hlast j s''); [done|].
        rewrite lookup_app_l; [done|]. by eapply lookup_lt_Some.
Qed.

Section Merge.
Context (t2s : dict str nat).

Lemma apply_one_frame cur item j s :
  cur !! j = Some s →
  ∃ s' more,
    apply_one t2s cur item !! j = Some s'
    ∧ spot_title s' = spot_title s
    ∧ spot_other s' = spot_other s
    ∧ playlist_or_empty s' = playlist_or_empty s ++ more.
Proof.
  intros Hj. destruct item as [title tracks]. unfold apply_one.
  assert (Hsame : ∃ s' more,
            cur !! j = Some s' ∧ spot_title s' = spot_title s
            ∧ spot_other s' = spot_other s
            ∧ playlist_or_empty s' = playlist_or_empty s ++ more).
  { exists s, []. by rewrite app_nil_r. }
  destruct (dict_get title t2s) as [i|]; [|done].
  destruct (cur !! i) as [spot|] eqn:Hi; [|done].
  destruct (negb (spot_truthy spot)); [done|].
  destruct (decide (i = j)) as [->|Hne].
  - rewrite list_lookup_insert_eq by (by eapply lookup_lt_Some).
    rewrite Hj in Hi. injection Hi as ->.
    by exists (extend_playlist spot tracks), tracks.
  - by rewrite list_lookup_insert_ne.
Qed.

Lemma apply_all_frame adds cur j s :
  cur !! j = Some s →
  ∃ s' more,
    foldl (apply_one t2s) cur adds !! j = Some s'
    ∧ spot_title s' = spot_title s
    ∧ spot_other s' = spot_other s
    ∧ playlist_or_empty s' = playlist_or_empty s ++ more.
Proof.
  revert cur s. induction adds as [|item adds IH]; intros cur s Hj; simpl.
  - exists s, []. by rewrite app_nil_r.
  - destruct (apply_one_frame cur item j s Hj)
      as (s1 & more1 & H1 & Ht1 & Ho1 & Hp1).
    destruct (IH _ _ H1) as (s2 & more2 & H2 & Ht2 & Ho2 & Hp2).
    exists s2, (more1 ++ more2). split; [done|].
    split; [congruence|]. split; [congruence|].
    by rewrite Hp2, Hp1, app_assoc.
Qed.

Lemma apply_one_miss cur title tracks j :
  dict_get title t2s ≠ Some j →
  apply_one t2s cur (title, tracks) !! j = cur !! j.
Proof.
  intros Hmiss. unfold apply_one.
  destruct (dict_get title t2s) as [i|]; [|done].
  destruct (cur !! i) as [spot|]; [|done].
  destruct (negb (spot_truthy spot)); [done|].
  apply list_lookup_insert_ne. congruence.
Qed.

Lemma apply_all_miss adds cur j :
  (∀ title, title ∈ adds.*1 → dict_get title t2s ≠ Some j) →
  foldl (apply_one t2s) cur adds !! j = cur !! j.
Proof.
  revert cur. induction adds as [|[title tracks] adds IH]; intros cur Hmiss;
    simpl; [done|].
  rewrite IH.
  - apply apply_one_miss. apply Hmiss. rewrite fmap_cons. by left.
  - intros title' Hin. apply Hmiss. rewrite fmap_cons. by right.
Qed.

Lemma apply_one_hit cur title tracks j s :
  dict_get title t2s = Some j → cur !! j = Some s →
  apply_one t2s cur (title, tracks) !! j
  = Some (if spot_truthy s then extend_playlist s tracks else s).
Proof.
  intros Hhit Hs. unfold apply_one. rewrite Hhit, Hs.
  destruct (spot_truthy s); cbn [negb]; [|done].
  apply list_lookup_insert_eq. by eapply lookup_lt_Some.
Qed.

(** Each position is the target of one title at most. *)
Hypothesis t2s_titles :
  ∀ title title' i,
    dict_get title t2s = Some i → dict_get title' t2s = Some i →
    title = title'.

Lemma apply_all_hit adds cur title tracks j s :
  NoDup adds.*1 → (title, tracks) ∈ adds →
  dict_get title t2s = Some j → cur !! j = Some s →
  foldl (apply_one t2s) cur adds !! j
  = Some (if spot_truthy s then extend_playlist s tracks else s).
Proof.
  revert cur. induction adds as [|[title' tracks'] adds IH];
    intros cur Hnd Hin Hhit Hs; [by apply elem_of_nil in Hin|].
  rewrite fmap_cons in Hnd. apply NoDup_cons in Hnd as [Hfirst Hnd].
  cbn [fst] in Hfirst. cbn [foldl].
  apply elem_of_cons in Hin as [[= <- <-]|Hin].
  - rewrite apply_all_miss; [by apply apply_one_hit|].
    intros title' Hin' Hhit'.
    by rewrite (t2s_titles _ _ _ Hhit Hhit') in Hfirst.
  - apply IH; [done..|]. rewrite apply_one_miss; [done|].
    intros Hhit'. rewrite (t2s_titles _ _ _ Hhit' Hhit) in Hfirst.
    apply Hfirst. apply list_elem_of_fmap. by exists (title, tracks).
Qed.

End Merge.

(** X19.  [apply_spots_additions] only ever appends to playlists: for any
    additions, the records keep their length, every object keeps its
    title and its other keys, and the tracks its playlist had (none when
    the key was missing or null) are the head of the playlist it has
    afterwards. *)
Theorem apply_spots_additions_frame (spots : list Spot)
    (additions : dict str (list Track)) :
  length (apply_spots_additions spots additions) = length spots
  ∧ ∀ j spot,
      spots !! j = Some spot →
      ∃ spot' more,
        apply_spots_additions spots additions !! j = Some spot'
        ∧ spot_title spot' = spot_title spot
        ∧ spot_other spot' = spot_other spot
        ∧ playlist_or_empty spot' = playlist_or_empty spot ++ more.
Proof.
  split; [apply apply_all_length|].
  intros j spot Hj. by apply apply_all_frame.
Qed.

(** X20.  What the merge does to each object, exactly, when the titles of
    the additions are pairwise distinct (as the keys of a dictionary are):
    an object gets the tracks filed under its title appended to its
    playlist, which is created when missing or null, if it is the last
    object with that title and is not the empty object; every other
    object is left as it is. *)
Theorem apply_spots_additions_exact (spots : list Spot)
    (additions : dict str (list Track)) (j : nat) (spot : Spot) :
  NoDup additions.*1 →
  spots !! j = Some spot →
  apply_spots_additions spots additions !! j
  = Some
      match dict_get (title_of spot) additions with
      | Some tracks =>
          if bool_decide
               (dict_get (title_of spot) (title_to_spot spots) = Some j)
             && spot_truthy spot
          then extend_playlist spot tracks
          else spot
      | None => spot
      end.
Proof.
  intros Hnd Hj. unfold apply_spots_additions.
  assert (Hinj : ∀ title title' i,
            dict_get title (title_to_spot spots) = Some i →
            dict_get title' (title_to_spot spots) = Some i →
            title = title').
  { intros title title' i (s & Hs & <-)%title_to_spot_lookup
      (s' & Hs' & <-)%title_to_spot_lookup. congruence. }
  assert (Hmiss : dict_get (title_of spot) (title_to_spot spots) ≠ Some j
                  ∨ dict_get (title_of spot) additions = None →
                  foldl (apply_one (title_to_spot spots)) spots additions !! j
                  = Some spot).
  { intros Hwhy. rewrite apply_all_miss; [done|].
    intros title Hin Hhit.
    pose proof Hhit as (s & Hs & Hts)%title_to_spot_lookup.
    assert (s = spot) as -> by congruence. subst title.
    destruct Hwhy as [Hwhy|Hwhy]; [done|].
    by apply dict_get_None in Hwhy. }
  destruct (dict_get (title_of spot) additions) as [tracks|] eqn:Hget;
    [|apply Hmiss; by right].
  case_bool_decide as Hhit; cbn [andb]; [|apply Hmiss; by left].
  apply apply_all_hit with (title_of spot); try done.
  by apply dict_get_elem.
Qed.

Lemma apply_spots_additions_exact_witness :
  apply_spots_additions sample_spots sample_tracks !! 1
  = Some
      match
        dict_get
          (title_of
             {| spot_title := Some (u"多目的広場"); spot_playlist := Absent;
                spot_other := [u"lat"; u"lng"] |}) sample_tracks
      with
      | Some tracks =>
          if bool_decide
               (dict_get
                  (title_of
                     {| spot_title := Some (u"多目的広場");
                        spot_playlist := Absent;
                        spot_other := [u"lat"; u"lng"] |})
                  (title_to_spot sample_spots) = Some 1)
             && spot_truthy
                  {| spot_title := Some (u"多目的広場");
                     spot_playlist := Absent;
                     spot_other := [u"lat"; u"lng"] |}
          then
            extend_playlist
              {| spot_title := Some (u"多目的広場"); spot_playlist := Absent;
                 spot_other := [u"lat"; u"lng"] |} tracks
          else
            {| spot_title := Some (u"多目的広場"); spot_playlist := Absent;
               spot_other := [u"lat"; u"lng"] |}
      | None =>
          {| spot_title := Some (u"多目的広場"); spot_playlist := Absent;
             spot_other := [u"lat"; u"lng"] |}
      end.
Proof.
  apply (apply_spots_additions_exact sample_spots sample_tracks 1
           {| spot_title := Some (u"多目的広場"); spot_playlist := Absent;
              spot_other := [u"lat"; u"lng"] |}).
  - compute_done.
  - reflexivity.
Defined.

(** ** Applying a rename plan *)

Lemma tmp_path_inj p q : tmp_path p = tmp_path q → p = q.
Proof.
  unfold tmp_path. intros Heq.
  apply Path_eq; [by injection Heq|].
  apply (f_equal name) in Heq. cbn [name] in Heq.
  by apply app_inv_tail in Heq.
Qed.

Lemma with_name_tmp p :
  proper_name (name p) →
  with_name p (name p ++ u".__renametmp__") = Ok (tmp_path p).
Proof.
  intros [Hne Hno]. unfold with_name.
  rewrite bool_decide_eq_false_2 by done. cbn [negb andb].
  assert (Hv : valid_name (name p ++ u".__renametmp__") = true);
    [|by rewrite Hv].
  apply valid_name_iff.
  assert (Hlen : 14 ≤ length (name p ++ u".__renametmp__")).
  { rewrite length_app. change (length (u".__renametmp__")) with 14. lia. }
  split; [|split].
  - intros Heq. rewrite Heq in Hlen. simpl in Hlen. lia.
  - intros Heq. rewrite Heq in Hlen. simpl in Hlen. lia.
  - rewrite elem_of_app.
    assert (chr_slash ∉ u".__renametmp__") by compute_done. tauto.
Qed.

Section ApplyLaws.
Context `{Disk} {data : Type} (read : disk → Path → option data).
Context (laws : disk_laws read).

Local Abbreviation tmp it := (tmp_path (src it)).

Lemma clear_tmps_spec plan acc st :
  Forall (λ it, proper_name (name (src it))) plan →
  Forall (λ it, disk_exists st (tmp it) = true → is_Some (read st (tmp it)))
    plan →
  ∃ st1,
    clear_tmps plan acc st
    = Done (acc ++ ((λ it, (src it, tmp it)) <$> plan), st1)
    ∧ Forall (λ it, disk_exists st1 (tmp it) = false) plan
    ∧ ∀ p, p ∉ (λ it, tmp it) <$> plan →
           read st1 p = read st p ∧ disk_exists st1 p = disk_exists st p.
Proof.
  revert acc st. induction plan as [|item plan IH]; intros acc st Hnames Hreg.
  - exists st. rewrite app_nil_r. split; [done|]. split; [constructor|done].
  - apply Forall_cons_1 in Hnames as [Hname Hnames].
    apply Forall_cons_1 in Hreg as [Hitem Hreg].
    cbn [clear_tmps]. rewrite with_name_tmp by done.
    assert (Hstep : ∃ st0,
              (if disk_exists st (tmp item) then
                 match disk_unlink st (tmp item) with
                 | None => Raised
                 | Some st' =>
                     clear_tmps plan (acc ++ [(src item, tmp item)]) st'
                 end
               else clear_tmps plan (acc ++ [(src item, tmp item)]) st)
              = clear_tmps plan (acc ++ [(src item, tmp item)]) st0
              ∧ disk_exists st0 (tmp item) = false
              ∧ ∀ q, q ≠ tmp item →
                     read st0 q = read st q
                     ∧ disk_exists st0 q = disk_exists st q).
    { destruct (disk_exists st (tmp item)) eqn:Hex.
      - destruct (unlink_file read laws st (tmp item) (Hitem eq_refl))
          as (st' & -> & Hgone & Hframe).
        by exists st'.
      - by exists st. }
    destruct Hstep as (st0 & -> & Hgone0 & Hframe0).
    destruct (IH (acc ++ [(src item, tmp item)]) st0 Hnames)
      as (st1 & -> & Hgone1 & Hframe1).
    { eapply Forall_impl; [exact Hreg|]. intros it Hit Hex. cbv beta in *.
      destruct (decide (tmp it = tmp item)) as [Heq|Hne];
        [rewrite Heq in Hex; congruence|].
      destruct (Hframe0 _ Hne) as [-> Hex0]. apply Hit. by rewrite <- Hex0. }
    exists st1. rewrite fmap_cons, <- app_assoc. split; [done|]. split.
    + constructor; [|done].
      destruct (decide (tmp item ∈ (λ it, tmp it) <$> plan)) as [Hin|Hout].
      * apply list_elem_of_fmap in Hin as (it & Heq & Hin). rewrite Heq.
        by apply (proj1 (Forall_forall _ _) Hgone1).
      * destruct (Hframe1 _ Hout) as [_ ->]. done.
    + intros p Hp. apply not_elem_of_cons in Hp as [Hne Hp].
      destruct (Hframe1 _ Hp) as [-> ->]. by apply Hframe0.
Qed.

(** A run of renames whose targets are free and are no sources. *)
Lemma move_to_tmps_spec pairs st :
  NoDup pairs.*1 → NoDup pairs.*2 →
  (∀ p, p ∈ pairs.*1 → p ∉ pairs.*2) →
  Forall (λ ab, is_Some (read st ab.1) ∧ disk_exists st ab.2 = false) pairs →
  ∃ st',
    move_to_tmps pairs st = Done st'
    ∧ Forall (λ ab, read st' ab.2 = read st ab.1
                    ∧ disk_exists st' ab.1 = false) pairs
    ∧ ∀ p, p ∉ pairs.*1 → p ∉ pairs.*2 →
           read st' p = read st p ∧ disk_exists st' p = disk_exists st p.
Proof.
  revert st. induction pairs as [|[a b] pairs IH];
    intros st Hsrc Hdst Hdisj Hpre.
  - exists st. split; [done|]. split; [constructor|done].
  - rewrite fmap_cons in Hsrc, Hdst. cbn [fst snd] in Hsrc, Hdst.
    apply NoDup_cons in Hsrc as [Ha Hsrc].
    apply NoDup_cons in Hdst as [Hb Hdst].
    apply Forall_cons_1 in Hpre as [[Hread Hfree] Hpre]. cbn [fst snd] in *.
    assert (Hab : a ∉ pairs.*2).
    { intros Hin. apply (Hdisj a); rewrite fmap_cons; [by left|by right]. }
    assert (Hba : b ∉ pairs.*1).
    { intros Hin. apply (Hdisj b); rewrite fmap_cons; [by right|by left]. }
    destruct (rename_file read laws st a b Hread Hfree)
      as (st0 & Hrename & Hmoved & Hgone & Hframe0).
    cbn [move_to_tmps]. rewrite Hrename.
    destruct (IH st0 Hsrc Hdst) as (st' & -> & Hpost & Hframe).
    { intros p Hp1 Hp2. apply (Hdisj p); rewrite fmap_cons; by right. }
    { apply Forall_forall. intros [a' b'] Hin. cbn [fst snd].
      pose proof (proj1 (Forall_forall _ _) Hpre _ Hin) as [Hr' Hf'].
      cbn [fst snd] in Hr', Hf'.
      assert (Ha' : a' ∈ pairs.*1)
        by (apply list_elem_of_fmap; by exists (a', b')).
      assert (Hb' : b' ∈ pairs.*2)
        by (apply list_elem_of_fmap; by exists (a', b')).
      destruct (Hframe0 a') as [-> _]; [by intros ->|by intros ->|].
      destruct (Hframe0 b') as [_ ->]; [by intros ->|by intros ->|]. done. }
    exists st'. split; [done|]. split.
    + constructor; cbn [fst snd].
      * destruct (Hframe b Hba Hb) as [-> _].
        destruct (Hframe a Ha Hab) as [_ ->]. done.
      * apply Forall_forall. intros [a' b'] Hin. cbn [fst snd].
        pose proof (proj1 (Forall_forall _ _) Hpost _ Hin) as [Hr' Hg'].
        cbn [fst snd] in Hr', Hg'. split; [|done]. rewrite Hr'.
        apply Hframe0.
        -- intros ->. apply Ha. apply list_elem_of_fmap. by exists (a, b').
        -- intros ->. apply Hba. apply list_elem_of_fmap. by exists (b, b').
    + intros p Hp1 Hp2. rewrite fmap_cons in Hp1, Hp2. cbn [fst snd] in *.
      apply not_elem_of_cons in Hp1 as [Hpa Hp1].
      apply not_elem_of_cons in Hp2 as [Hpb Hp2].
      destruct (Hframe p Hp1 Hp2) as [-> ->]. by apply Hframe0.
Qed.

Lemma move_to_dsts_pairs plan st :
  move_to_dsts ((λ it, (src it, tmp it)) <$> plan) plan st
  = move_to_tmps ((λ it, (tmp it, dst it)) <$> plan) st.
Proof.
  revert st. induction plan as [|item plan IH]; intros st; [done|].
  rewrite !fmap_cons. cbn [move_to_dsts move_to_tmps].
  destruct (disk_rename st _ _); [apply IH|done].
Qed.

Lemma apply_renames_moved plan st :
  NoDup (src <$> plan) → NoDup (dst <$> plan) →
  Forall (λ it, proper_name (name (src it)) ∧ is_Some (read st (src it)))
    plan →
  Forall (λ it, (tmp it ∉ src <$> plan) ∧ (tmp it ∉ dst <$> plan)
                ∧ (disk_exists st (tmp it) = true
                   → is_Some (read st (tmp it)))) plan →
  Forall (λ it, disk_exists st (dst it) = false ∨ dst it ∈ src <$> plan)
    plan →
  ∃ st', _apply_renames plan st = Done st' ∧ moved read plan st st'.
Proof.
  intros Hsrc Hdst Hfiles Htmp Hfree.
  assert (Hin_src : ∀ it, it ∈ plan → src it ∈ src <$> plan).
  { intros it Hit. apply list_elem_of_fmap. by exists it. }
  assert (Hin_dst : ∀ it, it ∈ plan → dst it ∈ dst <$> plan).
  { intros it Hit. apply list_elem_of_fmap. by exists it. }
  assert (Hin_tmp : ∀ it, it ∈ plan → tmp it ∈ (λ it, tmp it) <$> plan).
  { intros it Hit. apply list_elem_of_fmap. by exists it. }
  assert (Htmp_src : ∀ p, p ∈ (λ it, tmp it) <$> plan → p ∉ src <$> plan).
  { intros p (it & -> & Hit)%list_elem_of_fmap.
    by apply (proj1 (Forall_forall _ _) Htmp it Hit). }
  assert (Htmp_dst : ∀ p, p ∈ (λ it, tmp it) <$> plan → p ∉ dst <$> plan).
  { intros p (it & -> & Hit)%list_elem_of_fmap.
    by apply (proj1 (Forall_forall _ _) Htmp it Hit). }
  assert (Htmps : NoDup ((λ it, tmp it) <$> plan)).
  { rewrite (list_fmap_compose src tmp_path). apply NoDup_fmap_2; [|done].
    intros p q. apply tmp_path_inj. }
  unfold _apply_renames.
  destruct (clear_tmps_spec plan [] st) as (st1 & -> & Hgone1 & Hframe1).
  { eapply Forall_impl; [exact Hfiles|]. by intros it [? _]. }
  { eapply Forall_impl; [exact Htmp|]. by intros it (_ & _ & ?). }
  cbn [app].
  destruct (move_to_tmps_spec ((λ it, (src it, tmp it)) <$> plan) st1)
    as (st2 & -> & Hpost2 & Hframe2).
  { by rewrite <- list_fmap_compose. }
  { by rewrite <- list_fmap_compose. }
  { rewrite <- !list_fmap_compose. intros p Hp Hp'.
    by apply (Htmp_src p). }
  { apply Forall_fmap, Forall_forall. intros it Hit. cbn [fst snd compose].
    split; [|by apply (proj1 (Forall_forall _ _) Hgone1)].
    destruct (Hframe1 (src it)) as [-> _].
    - intros Hin. by apply (Htmp_src (src it)); [|apply Hin_src].
    - by apply (proj1 (Forall_forall _ _) Hfiles it Hit). }
  rewrite <- !list_fmap_compose in Hframe2.
  apply Forall_fmap in Hpost2.
  rewrite move_to_dsts_pairs.
  destruct (move_to_tmps_spec ((λ it, (tmp it, dst it)) <$> plan) st2)
    as (st3 & -> & Hpost3 & Hframe3).
  { by rewrite <- list_fmap_compose. }
  { by rewrite <- list_fmap_compose. }
  { rewrite <- !list_fmap_compose. apply Htmp_dst. }
  { apply Forall_fmap, Forall_forall. intros it Hit. cbn [fst snd compose].
    pose proof (proj1 (Forall_forall _ _) Hpost2 it Hit) as [Hr2 _].
    cbn [fst snd compose] in Hr2. split.
    - rewrite Hr2. destruct (Hframe1 (src it)) as [-> _].
      + intros Hin. by apply (Htmp_src (src it)); [|apply Hin_src].
      + by apply (proj1 (Forall_forall _ _) Hfiles it Hit).
    - destruct (decide (dst it ∈ src <$> plan)) as [Hin|Hout].
      + apply list_elem_of_fmap in Hin as (it' & -> & Hit').
        by apply (proj1 (Forall_forall _ _) Hpost2 it' Hit').
      + assert (Hnt : dst it ∉ (λ it, tmp it) <$> plan).
        { intros Hin. by apply (Htmp_dst (dst it)); [|apply Hin_dst]. }
        destruct (Hframe2 (dst it) Hout Hnt) as [_ ->].
        destruct (Hframe1 (dst it) Hnt) as [_ ->].
        destruct (proj1 (Forall_forall _ _) Hfree it Hit); done. }
  rewrite <- !list_fmap_compose in Hframe3.
  apply Forall_fmap in Hpost3.
  exists st3. split; [done|]. split.
  - apply Forall_forall. intros it Hit.
    pose proof (proj1 (Forall_forall _ _) Hpost3 it Hit) as [Hr3 Hg3].
    pose proof (proj1 (Forall_forall _ _) Hpost2 it Hit) as [Hr2 Hg2].
    cbn [fst snd compose] in Hr3, Hg3, Hr2, Hg2.
    assert (Hst : src it ∉ (λ it, tmp it) <$> plan).
    { intros Hin. by apply (Htmp_src (src it)); [|apply Hin_src]. }
    split; [|split; [done|]].
    + rewrite Hr3, Hr2. by apply Hframe1.
    + intros Hout. destruct (Hframe3 (src it) Hst Hout) as [_ ->]. done.
  - intros p Hp1 Hp2 Hp3.
    destruct (Hframe3 p Hp3 Hp2) as [-> ->].
    destruct (Hframe2 p Hp1 Hp3) as [-> ->]. by apply Hframe1.
Qed.

End ApplyLaws.

Lemma flat_disk_laws : @disk_laws flat_disk N (λ st p, st !! p).
Proof.
  split; simpl.
  - intros st p Hp. by apply bool_decide_eq_true.
  - intros st p [c Hc]. rewrite Hc. exists (delete p st).
    split; [done|]. split.
    + apply bool_decide_eq_false. rewrite lookup_delete_eq. by intros [? ?].
    + intros q Hq. by rewrite lookup_delete_ne.
  - intros st p q [c Hc] Hq. rewrite Hc.
    apply bool_decide_eq_false in Hq.
    assert (p ≠ q) by (intros ->; apply Hq; eauto).
    exists (<[q := c]> (delete p st)). split; [done|]. split; [|split].
    + by rewrite lookup_insert_eq.
    + apply bool_decide_eq_false.
      rewrite lookup_insert_ne, lookup_delete_eq by done. by intros [? ?].
    + intros r Hrp Hrq. by rewrite lookup_insert_ne, lookup_delete_ne.
Qed.

(** X21.  [_apply_renames] moves every source of a plan to its
    destination, also when a destination is the source of another item
    (a swap or a chain), and changes nothing else but the temporary
    paths: given that the sources are distinct regular files with proper
    names, the destinations are distinct and each is free or a source,
    and no temporary path is a source or a destination or holds anything
    but a regular file, the run ends without raising; every destination
    then holds what its source held, every source that is no destination
    and every temporary path is gone, and every other path is as it
    was.  The file system is assumed to follow [disk_laws]. *)
Theorem apply_renames_moves `{Disk} {data : Type}
    (read : disk → Path → option data) (plan : list RenamePlanItem)
    (st : disk) :
  disk_laws read →
  NoDup (src <$> plan) → NoDup (dst <$> plan) →
  Forall (λ it, proper_name (name (src it)) ∧ is_Some (read st (src it)))
    plan →
  Forall (λ it, (tmp_path (src it) ∉ src <$> plan)
                ∧ (tmp_path (src it) ∉ dst <$> plan)
                ∧ (disk_exists st (tmp_path (src it)) = true
                   → is_Some (read st (tmp_path (src it))))) plan →
  Forall (λ it, disk_exists st (dst it) = false ∨ dst it ∈ src <$> plan)
    plan →
  ∃ st', _apply_renames plan st = Done st' ∧ moved read plan st st'.
Proof. intros laws. by apply apply_renames_moved. Qed.

Lemma apply_renames_moves_witness :
  ∃ st',
    @_apply_renames flat_disk swap_plan swap_disk = Done st'
    ∧ @moved flat_disk N (λ st p, st !! p) swap_plan swap_disk st'.
Proof.
  apply (@apply_renames_moves flat_disk N (λ st p, st !! p) swap_plan
           swap_disk).
  - exact flat_disk_laws.
  - compute_done.
  - compute_done.
  - repeat (apply List.Forall_cons || apply List.Forall_nil);
      (split; [split; compute_done|compute_done]).
  - repeat (apply List.Forall_cons || apply List.Forall_nil);
      (split; [compute_done|split; [compute_done|]]);
      intros Hex; vm_compute in Hex; discriminate Hex.
  - repeat (apply List.Forall_cons || apply List.Forall_nil);
      right; compute_done.
Defined.

(** The swap, run: the two contents have changed places. *)
Example apply_renames_swap :
  match @_apply_renames flat_disk swap_plan swap_disk with
  | Done st' =>
      st' !! mkPath sample_dir (u"a.mp3") = Some 2%N
      ∧ st' !! mkPath sample_dir (u"b.mp3") = Some 1%N
      ∧ size st' = 2
  | _ => False
  end.
Proof. vm_compute. repeat split. Qed.

(** *** Applying a plan of the rename planner *)

Lemma suffix_tmp_path p :
  name p ≠ [] → suffix (tmp_path p) = u".__renametmp__".
Proof.
  intros Hne. unfold suffix, tmp_path. cbn [name].
  assert (Hr : rfind chr_dot (name p ++ u".__renametmp__")
               = Some (length (name p))).
  { rewrite rfind_app.
    change (rfind chr_dot (u".__renametmp__")) with (Some 0).
    cbv beta iota. f_equal. lia. }
  rewrite Hr, length_app. change (length (u".__renametmp__")) with 14.
  assert (0 < length (name p)) by (destruct (name p); [done|simpl; lia]).
  rewrite !bool_decide_eq_true_2 by lia. cbn [andb].
  by rewrite drop_app_length.
Qed.

Lemma mp3_not_tmp (b n : str) : b ++ u".mp3" ≠ n ++ u".__renametmp__".
Proof.
  change (u".mp3") with (u".mp" ++ [51%N]).
  change (u".__renametmp__") with (u".__renametmp_" ++ [95%N]).
  rewrite !app_assoc. by intros [_ [=]]%app_inj_tail.
Qed.

Section PlanThenApply.
Context `{Unicode} `{Disk} {data : Type} (read : disk → Path → option data).
Context (fs : files) (audio_dir : list str) (targets : gset str)
  (romanize_names : bool) (unknown_date : str) (keep_suzuki_id : bool).

Lemma plan_renames_items plan :
  plan_renames fs audio_dir targets romanize_names unknown_date
    keep_suzuki_id = Done plan →
  NoDup (src <$> plan)
  ∧ NoDup (dst <$> plan)
  ∧ Forall (λ it, is_file fs (src it) = true
                  ∧ lower (suffix (src it)) = u".mp3"
                  ∧ path_exists fs (dst it) = false
                  ∧ parent (dst it) = audio_dir
                  ∧ ∃ b, name (dst it) = b ++ u".mp3") plan.
Proof.
  intros (items & Hcollect & Hresolve)%plan_renames_parts.
  pose proof (collect_items_sources _ _ _ _ _ _ _ _ Hcollect) as Hsrc.
  apply collect_items_Ok in Hcollect as (new & -> & Hnew).
  apply resolve_items_Done in Hresolve as (out & -> & Hout & Hfree & Hdst).
  cbn [app fmap list_fmap] in *.
  rewrite <- (resolution_of_sources _ _ Hout) in Hsrc.
  split; [|split; [done|]].
  - rewrite Hsrc. apply NoDup_filter, iterdir_NoDup.
  - apply Forall_forall. intros it Hit.
    pose proof (proj1 (Forall_forall _ _) Hfree it Hit) as Hnb.
    apply list_elem_of_lookup in Hit as [k Hk].
    destruct (Forall2_lookup_r _ _ _ _ _ Hout Hk) as (item & Hitem & Hres).
    destruct (proj1 (Forall_forall _ _) Hnew item) as [Hentry Hcand];
      [apply list_elem_of_lookup; eauto|].
    destruct (resolved_destination fs romanize_names unknown_date
                keep_suzuki_id item it Hcand Hres)
      as (Hpar & b & _ & Hname).
    destruct Hres as [Heq _]. destruct Hcand as (Hfile & parsed & Hparse & _).
    unfold sorted in Hentry. rewrite merge_sort_Permutation in Hentry.
    apply iterdir_parent in Hentry.
    rewrite <- Heq in Hfile, Hparse, Hentry. split; [done|].
    split; [|split; [|split; [congruence|]]].
    + unfold parse_audio_name in Hparse.
      destruct (bool_decide (lower (suffix (Path_of_name (name (src it))))
                             = u".mp3")) eqn:Hmp3; [|done].
      by apply bool_decide_eq_true in Hmp3.
    + destruct (path_exists fs (dst it)) eqn:Hex; [|done].
      destruct Hnb. by left.
    + by exists b.
Qed.

Lemma plan_then_apply_moved plan st :
  disk_laws read →
  lower (u".__renametmp__") ≠ u".mp3" →
  (∀ p, (is_file fs p = true → is_Some (read st p))
        ∧ disk_exists st p = path_exists fs p) →
  plan_renames fs audio_dir targets romanize_names unknown_date
    keep_suzuki_id = Done plan →
  Forall (λ it, proper_name (name (src it))
                ∧ (disk_exists st (tmp_path (src it)) = true
                   → is_Some (read st (tmp_path (src it))))) plan →
  ∃ st',
    _apply_renames plan st = Done st'
    ∧ moved read plan st st'
    ∧ Forall (λ it, disk_exists st' (src it) = false) plan.
Proof.
  intros laws Hlower Hagree (Hsrc & Hdst & Hitems)%plan_renames_items Hnames.
  assert (Hsd : ∀ it, it ∈ plan → src it ∉ dst <$> plan).
  { intros it Hit (it' & Heq & Hit')%list_elem_of_fmap.
    pose proof (proj1 (Forall_forall _ _) Hitems it Hit) as (Hfile & _).
    pose proof (proj1 (Forall_forall _ _) Hitems it' Hit') as (_ & _ & Hfree & _).
    apply (is_file_exists fs) in Hfile. congruence. }
  destruct (apply_renames_moved read laws plan st) as (st' & Hrun & Hmoved);
    try done.
  - apply Forall_forall. intros it Hit.
    pose proof (proj1 (Forall_forall _ _) Hitems it Hit) as (Hfile & _).
    pose proof (proj1 (Forall_forall _ _) Hnames it Hit) as (Hname & _).
    split; [done|]. by apply Hagree.
  - apply Forall_forall. intros it Hit.
    pose proof (proj1 (Forall_forall _ _) Hnames it Hit) as ([Hne _] & Hreg).
    split; [|split; [|done]].
    + intros (it' & Heq & Hit')%list_elem_of_fmap.
      pose proof (proj1 (Forall_forall _ _) Hitems it' Hit')
        as (_ & Hmp3 & _).
      rewrite <- Heq, suffix_tmp_path in Hmp3 by done. done.
    + intros (it' & Heq & Hit')%list_elem_of_fmap.
      pose proof (proj1 (Forall_forall _ _) Hitems it' Hit')
        as (_ & _ & _ & _ & b & Hb).
      apply (f_equal name) in Heq. rewrite Hb in Heq. cbn [tmp_path name] in Heq.
      symmetry in Heq. by apply mp3_not_tmp in Heq.
  - apply Forall_forall. intros it Hit.
    pose proof (proj1 (Forall_forall _ _) Hitems it Hit) as (_ & _ & Hfree & _).
    left. destruct (Hagree (dst it)) as [_ ->]. done.
  - exists st'. split; [done|]. split; [done|].
    destruct Hmoved as [Hall _]. apply Forall_forall. intros it Hit.
    pose proof (proj1 (Forall_forall _ _) Hall it Hit) as (_ & _ & Hgone).
    by apply Hgone, Hsd.
Qed.

End PlanThenApply.

(** X22.  Applying a plan of the rename planner to the directory it was
    made for renames every source to its destination: when the disk is as
    the planner saw it, the entries have proper names and a leftover
    temporary path, if any, is a regular file, [_apply_renames] ends
    without raising; every destination then holds what its source held,
    every source and every temporary path is gone, and every other path
    is as it was.  The file system is assumed to follow [disk_laws], and
    lower-casing to keep the temporary suffix apart from .mp3. *)
Theorem plan_then_apply `{Unicode} `{Disk} {data : Type}
    (read : disk → Path → option data) (fs : files) (audio_dir : list str)
    (targets : gset str) (romanize_names : bool) (unknown_date : str)
    (keep_suzuki_id : bool) (plan : list RenamePlanItem) (st : disk) :
  disk_laws read →
  lower (u".__renametmp__") ≠ u".mp3" →
  (∀ p, (is_file fs p = true → is_Some (read st p))
        ∧ disk_exists st p = path_exists fs p) →
  plan_renames fs audio_dir targets romanize_names unknown_date
    keep_suzuki_id = Done plan →
  Forall (λ it, proper_name (name (src it))
                ∧ (disk_exists st (tmp_path (src it)) = true
                   → is_Some (read st (tmp_path (src it))))) plan →
  ∃ st',
    _apply_renames plan st = Done st'
    ∧ moved read plan st st'
    ∧ Forall (λ it, disk_exists st' (src it) = false) plan.
Proof. apply plan_then_apply_moved. Qed.

Lemma sample_disk_view : sample_fs = (λ _ : N, File) <$> sample_disk.
Proof.
  unfold sample_fs, sample_disk.
  by rewrite <- (list_to_map_fmap (M := gmap Path) (λ _ : N, File)).
Qed.

Lemma sample_disk_agrees p :
  (is_file sample_fs p = true → is_Some (sample_disk !! p))
  ∧ @disk_exists flat_disk sample_disk p = path_exists sample_fs p.
Proof.
  unfold is_file, path_exists. rewrite sample_disk_view, lookup_fmap.
  change (@disk_exists flat_disk sample_disk p)
    with (bool_decide (is_Some (sample_disk !! p))).
  destruct (sample_disk !! p) as [c|]; cbn [fmap option_fmap option_map].
  - split; [by eauto|]. by apply bool_decide_eq_true.
  - split; [done|]. apply bool_decide_eq_false. by intros [? ?].
Qed.

Lemma plan_then_apply_witness :
  ∃ st',
    @_apply_renames flat_disk sample_plan sample_disk = Done st'
    ∧ @moved flat_disk N (λ st p, st !! p) sample_plan sample_disk st'
    ∧ Forall (λ it, @disk_exists flat_disk st' (src it) = false) sample_plan.
Proof.
  apply (@plan_then_apply plain_text flat_disk N (λ st p, st !! p) sample_fs
           sample_dir sample_targets false (u"UnknownDate") true sample_plan
           sample_disk).
  - exact flat_disk_laws.
  - compute_done.
  - exact sample_disk_agrees.
  - vm_compute; reflexivity.
  - repeat (apply List.Forall_cons || apply List.Forall_nil);
      (split; [split; compute_done|]);
      intros Hex; vm_compute in Hex; discriminate Hex.
Defined.

(** *** Renaming and assigning *)




(** ** No file is appended twice *)






